(** * A shallow embedding of the vue-router core

    The development follows the sources file by file:
    - [create-route-map.js]: [createRouteMap], [addRouteRecord], [normalizePath];
    - [create-matcher.js]: [match_], [redirect], [alias], [_createRoute], [matchRoute];
    - [history/base.js]: [transitionTo], [confirmTransition], [resolveQueue],
      the guard extraction functions and [updateRoute];
    - [index.js]: [registerHook].

    JavaScript objects that are only read are records; the dictionaries
    [pathMap], [nameMap] and [params] are finite maps; user supplied functions
    (guards, hooks, redirect functions, callbacks) are opaque identities whose
    behaviour is an input of the model. *)

From Stdlib Require Import Ascii.
From Equations Require Import Equations.
From stdpp Require Import gmap strings list fin_maps pretty.

Set Warnings "-register-all".
Local Open Scope string_scope.
Local Open Scope list_scope.

(** The embedding of the sources. *)
Module Router.

(** ** Values shared by all modules *)

(** Identity of a function object supplied by the application. *)
Definition Fn := nat.
(** Identity of a component definition and of a rendered instance. *)
Definition Component := nat.
Definition Instance := nat.

Definition Query := list (string * string).
Definition Meta := list (string * string).

(** [params] objects: a key may be present and hold [undefined] (an optional
    group that did not take part in the match), hence the [option] values. *)
Abbreviation Params := (gmap string (option string)).

(** JavaScript truthiness of a possibly missing string. *)
Definition truthy (o : option string) : bool :=
  match o with
  | Some (String _ _) => true
  | _ => false
  end.

(** [a || b] on strings. *)
Definition or_else (o : option string) (d : string) : string :=
  match o with
  | Some (String c s) => String c s
  | _ => d
  end.

Record Location := mkLocation {
  loc_normalized : bool;
  loc_name : option string;
  loc_path : option string;
  loc_hash : option string;
  loc_query : option Query;
  loc_params : option Params;
  loc_replace : bool }.

Inductive RawLocation :=
| RawString (s : string)
| RawObject (l : Location).

(** *** path-to-regexp *)

(** The name of a key is a string for [:name] and a number for an unnamed
    group. *)
Inductive KeyName :=
| KStr (s : string)
| KNum (n : nat).

#[global] Instance KeyName_eq_dec : EqDecision KeyName.
Proof. solve_decision. Defined.

Record Key := mkKey { key_name : KeyName; key_optional : bool }.

(** A compiled pattern: [exec s] is [s.match(regex)] without the leading whole
    match, each group being a string or [undefined]. *)
Record RouteRegExp := mkRegExp {
  exec : string -> option (list (option string));
  keys : list Key }.

Record PathToRegexpOptions := mkOptions {
  opt_strict : option bool;
  opt_sensitive : option bool;
  opt_end : option bool }.

Definition noOptions : PathToRegexpOptions :=
  {| opt_strict := None; opt_sensitive := None; opt_end := None |}.

(** *** Redirect options *)

(** An own property of a redirect object: [None] when [hasOwnProperty] is
    false, [Some v] when the property is there with value [v]. *)
Record RedirectTarget := mkRedirectTarget {
  re_name : option string;
  re_path : option string;
  re_query : option (option Query);
  re_hash : option (option string);
  re_params : option (option Params) }.

Inductive RedirectValue :=
| RedirectString (s : string)
| RedirectObject (re : RedirectTarget)
| RedirectInvalid.

Inductive RedirectOption :=
| RedirectStatic (v : RedirectValue)
| RedirectFunction (f : Fn).

Inductive PropsValue :=
| PropsBool (b : bool)
| PropsFunction (f : Fn)
| PropsObject (l : list (string * PropsValue)).

(** *** Route configuration and route records *)

Inductive AliasOption :=
| AliasOne (s : string)
| AliasMany (l : list string).

Inductive RouteConfig : Type := mkRouteConfig {
  cfg_path : string;
  cfg_name : option string;
  cfg_component : option Component;
  cfg_components : option (list (string * option Component));
  cfg_redirect : option RedirectOption;
  cfg_alias : option AliasOption;
  cfg_children : option (list RouteConfig);
  cfg_beforeEnter : option Fn;
  cfg_meta : option Meta;
  cfg_props : option PropsValue;
  cfg_caseSensitive : option bool;
  cfg_pathToRegexpOptions : option PathToRegexpOptions }.

(** The mutable [instances] table of a record is written by the rendering
    side only; it is kept in the store of the history ([instances] below). *)
Inductive RouteRecord : Type := mkRouteRecord {
  rec_path : string;
  rec_regex : RouteRegExp;
  rec_components : list (string * option Component);
  rec_name : option string;
  rec_parent : option RouteRecord;
  rec_matchAs : option string;
  rec_redirect : option RedirectOption;
  rec_beforeEnter : option Fn;
  rec_meta : Meta;
  rec_props : PropsValue }.

Record Route := mkRoute {
  r_name : option string;
  r_meta : Meta;
  r_path : string;
  r_hash : string;
  r_query : Query;
  r_params : Params;
  r_fullPath : string;
  r_matched : list RouteRecord;
  r_redirectedFrom : option string }.

(** ** create-route-map.js *)

Record RouteMap := mkRouteMap {
  pathList : list string;
  pathMap : gmap string RouteRecord;
  nameMap : gmap string RouteRecord }.

Definition emptyRouteMap : RouteMap :=
  {| pathList := []; pathMap := ∅; nameMap := ∅ |}.

(** [path.replace(/\/$/, '')] *)
Fixpoint stripTrailingSlash (path : string) : string :=
  match path with
  | "" => ""
  | String c "" => if decide (c = "/"%char) then "" else path
  | String c rest => String c (stripTrailingSlash rest)
  end.

(** [path[0] === '/'] *)
Definition startsWithSlash (path : string) : bool :=
  match path with
  | String c _ => bool_decide (c = "/"%char)
  | "" => false
  end.

(** The loop that closes [createRouteMap]:
[[
  for (let i = 0, l = pathList.length; i < l; i++) {
    if (pathList[i] === '*') {
      pathList.push(pathList.splice(i, 1)[0])
      l--
      i--
    }
  }
]]
    The [i--] of the body and the [i++] of the loop header cancel, so the
    index stays where it is after a move. *)
Equations? moveWildcards (pathList : list string) (i l : nat) : list string
  by wf (l - i) lt :=
  moveWildcards pl i l with decide (i < l) := {
    | right _ => pl
    | left _ with pl !! i := {
       | Some p with decide (p = "*") := {
          | left _ => moveWildcards (delete i pl ++ [p]) i (l - 1)
          | right _ => moveWildcards pl (i + 1) l }
       | None => moveWildcards pl (i + 1) l } }.
Proof. all: lia. Qed.

Section RouteMapBuilder.

(** [process.env.NODE_ENV === 'production'] *)
Variable production : bool.
(** [cleanPath] of util/path and the pattern compiler of path-to-regexp. *)
Variable cleanPath : string -> string.
Variable Regexp : string -> PathToRegexpOptions -> RouteRegExp.

Definition normalizePath (path : string) (parent : option RouteRecord)
    (strict : option bool) : string :=
  let path := if default false strict then path else stripTrailingSlash path in
  if startsWithSlash path then path
  else match parent with
       | None => path
       | Some p => cleanPath (rec_path p +:+ "/" +:+ path)
       end.

(** The duplicate key report of the development build is a diagnostic
    only; the compiled pattern is what the function returns. *)
Definition compileRouteRegex (path : string) (options : PathToRegexpOptions)
    : RouteRegExp :=
  Regexp path options.

(** The record literal built at the head of [addRouteRecord]. *)
Definition newRecord (route : RouteConfig) (parent : option RouteRecord)
    (matchAs : option string) : RouteRecord :=
  let pathToRegexpOptions := default noOptions (cfg_pathToRegexpOptions route) in
  let normalizedPath :=
    normalizePath (cfg_path route) parent (opt_strict pathToRegexpOptions) in
  let pathToRegexpOptions :=
    match cfg_caseSensitive route with
    | Some b => {| opt_strict := opt_strict pathToRegexpOptions;
                   opt_sensitive := Some b;
                   opt_end := opt_end pathToRegexpOptions |}
    | None => pathToRegexpOptions
    end in
  {| rec_path := normalizedPath;
     rec_regex := compileRouteRegex normalizedPath pathToRegexpOptions;
     rec_components :=
       match cfg_components route with
       | Some cs => cs
       | None => [("default", cfg_component route)]
       end;
     rec_name := cfg_name route;
     rec_parent := parent;
     rec_matchAs := matchAs;
     rec_redirect := cfg_redirect route;
     rec_beforeEnter := cfg_beforeEnter route;
     rec_meta := default [] (cfg_meta route);
     rec_props :=
       match cfg_props route with
       | None => PropsObject []
       | Some p =>
           match cfg_components route with
           | Some _ => p
           | None => PropsObject [("default", p)]
           end
       end |}.

(** [if (!pathMap[record.path]) { pathList.push(...); pathMap[...] = record }] *)
Definition registerPath (st : RouteMap) (record : RouteRecord) : RouteMap :=
  match pathMap st !! rec_path record with
  | None => {| pathList := pathList st ++ [rec_path record];
               pathMap := <[rec_path record := record]> (pathMap st);
               nameMap := nameMap st |}
  | Some _ => st
  end.

(** [if (name) { if (!nameMap[name]) nameMap[name] = record ... }] *)
Definition registerName (st : RouteMap) (name : option string)
    (record : RouteRecord) : RouteMap :=
  match name with
  | Some (String c s) =>
      match nameMap st !! String c s with
      | None => {| pathList := pathList st;
                   pathMap := pathMap st;
                   nameMap := <[String c s := record]> (nameMap st) |}
      | Some _ => st
      end
  | _ => st
  end.

(** The alias route synthesised for an alias of [route]:
    [{ path: alias, children: route.children }]. *)
Definition aliasRoute (alias : string) (route : RouteConfig) : RouteConfig :=
  {| cfg_path := alias; cfg_name := None; cfg_component := None;
     cfg_components := None; cfg_redirect := None; cfg_alias := None;
     cfg_children := cfg_children route; cfg_beforeEnter := None;
     cfg_meta := None; cfg_props := None; cfg_caseSensitive := None;
     cfg_pathToRegexpOptions := None |}.

Definition aliasList (a : AliasOption) : list string :=
  match a with
  | AliasOne s => [s]
  | AliasMany l => l
  end.

(** [matchAs ? cleanPath(`${matchAs}/${child.path}`) : undefined] *)
Definition childMatchAs (matchAs : option string) (child : RouteConfig)
    : option string :=
  match matchAs with
  | Some (String c s) => Some (cleanPath (String c s +:+ "/" +:+ cfg_path child))
  | _ => None
  end.

(** [addRouteRecord].  The source recurses on the children of [route] and on
    the alias routes built from [route]; an alias route carries no alias and
    no name of its own and has the children of [route], so its visit is the
    record-children-path part of the body, [visit], run on the alias route.
    This keeps the recursion structural in the configuration tree. *)
Fixpoint addRouteRecord (st : RouteMap) (route : RouteConfig)
    (parent : option RouteRecord) (matchAs : option string) {struct route}
    : RouteMap :=
  let visit := fun (st : RouteMap) (node : RouteConfig)
                   (parent : option RouteRecord) (matchAs : option string) =>
    let record := newRecord node parent matchAs in
    let st :=
      match cfg_children route with
      | Some children =>
          fold_left (fun st child =>
                       addRouteRecord st child (Some record)
                         (childMatchAs matchAs child))
                    children st
      | None => st
      end in
    (registerPath st record, record) in
  let '(st, record) := visit st route parent matchAs in
  let st :=
    match cfg_alias route with
    | Some a =>
        fold_left (fun st alias =>
                     if negb production && bool_decide (alias = cfg_path route)
                     then st
                     else fst (visit st (aliasRoute alias route) parent
                                 (Some (or_else (Some (rec_path record)) "/"))))
                  (aliasList a) st
    | None => st
    end in
  registerName st (cfg_name route) record.

Definition createRouteMap (routes : list RouteConfig) (old : RouteMap)
    : RouteMap :=
  let st := fold_left (fun st route => addRouteRecord st route None None)
                      routes old in
  {| pathList := moveWildcards (pathList st) 0 (length (pathList st));
     pathMap := pathMap st;
     nameMap := nameMap st |}.

End RouteMapBuilder.

(** ** create-matcher.js *)

(** What a call can do besides returning: raise.  [RangeError] is what the
    engine raises when nested calls use up the call stack, as a redirect that
    leads back to itself does; [OtherException] stands for any other value
    that a function of the application throws. *)
Inductive Exception :=
| URIError
| TypeError
| RangeError
| AssertionError (message : string)
| OtherException (what : nat).

Inductive result (A : Type) : Type :=
| Ok (a : A)
| Throw (e : Exception).
Arguments Ok {A} a.
Arguments Throw {A} e.

#[global] Instance result_bind : MBind result := fun A B k r =>
  match r with
  | Ok a => k a
  | Throw e => Throw e
  end.

(** The double quote, for the messages that quote a name. *)
Definition dquote : string := String (ascii_of_nat 34) "".

(** The property name under which a captured group is stored:
    [key.name || 'pathMatch']. *)
Definition paramKey (name : KeyName) : string :=
  match name with
  | KStr (String c s) => String c s
  | KStr "" => "pathMatch"
  | KNum 0 => "pathMatch"
  | KNum n => pretty n
  end.

(** [record.regex.keys.filter(key => !key.optional).map(key => key.name)] *)
Definition requiredParamNames (regex : RouteRegExp) : list KeyName :=
  map key_name (filter (fun key => key_optional key = false) (keys regex)).

(** The property names that every plain object inherits from
    [Object.prototype]. *)
Definition objectPrototypeKeys : list string :=
  ["constructor"; "__defineGetter__"; "__defineSetter__"; "hasOwnProperty";
   "__lookupGetter__"; "__lookupSetter__"; "isPrototypeOf";
   "propertyIsEnumerable"; "toString"; "valueOf"; "__proto__";
   "toLocaleString"].

(** [key in params] on a params object, which is a plain object: the
    operator holds for the keys of the object and for the names that the
    object inherits. *)
Definition keyIn (key : string) (params : Params) : bool :=
  bool_decide (is_Some (params !! key))
  || bool_decide (key ∈ objectPrototypeKeys).

(** The backfill loop of the name branch of [match]:
[[
  for (const key in currentRoute.params) {
    if (!(key in location.params) && paramNames.indexOf(key) > -1) {
      location.params[key] = currentRoute.params[key]
    }
  }
]]
    A property key is a string, and [indexOf] compares with [===], so only
    the string names among [paramNames] can be found. *)
Definition backfillParams (paramNames : list KeyName)
    (currentParams : Params) (params : Params) : Params :=
  map_fold (fun key value (params : Params) =>
              if negb (keyIn key params)
                 && bool_decide (KStr key ∈ paramNames)
              then <[key := value]> params
              else params)
           params currentParams.

(** Modelled from the spec: [formatMatch] of util/route, not part of the
    sources at hand.  The matched chain is the record preceded by its
    ancestors, root first. *)
Fixpoint formatMatch (record : RouteRecord) : list RouteRecord :=
  match rec_parent record with
  | Some parent => formatMatch parent ++ [record]
  | None => [record]
  end.

Definition setParams (location : Location) (params : option Params) : Location :=
  {| loc_normalized := loc_normalized location; loc_name := loc_name location;
     loc_path := loc_path location; loc_hash := loc_hash location;
     loc_query := loc_query location; loc_params := params;
     loc_replace := loc_replace location |}.

Definition setPath (location : Location) (path : option string) : Location :=
  {| loc_normalized := loc_normalized location; loc_name := loc_name location;
     loc_path := path; loc_hash := loc_hash location;
     loc_query := loc_query location; loc_params := loc_params location;
     loc_replace := loc_replace location |}.

(** [record && record.redirect]: an empty string is falsy. *)
Definition hasRedirect (record : RouteRecord) : bool :=
  match rec_redirect record with
  | None => false
  | Some (RedirectStatic (RedirectString "")) => false
  | Some _ => true
  end.

Section Matcher.

Variable production : bool.
(** [assert] of util/warn is not part of the sources at hand.  It reports a
    condition that fails; [assertRaises] says whether it does so by raising.
    [assert c m] is [Some e] when the call raises [e], [None] when it
    returns. *)
Variable assertRaises : bool.

Definition assert (condition : bool) (message : string) : option Exception :=
  if condition then None
  else if assertRaises then Some (AssertionError message) else None.
(** [normalizeLocation] of util/location, [fillParams] of util/params and
    [resolvePath] of util/path. *)
Variable normalizeLocation : RawLocation -> option Route -> bool -> Location.
Variable fillParams : string -> option Params -> string.
Variable resolvePath : string -> string -> bool -> string.
(** The built-in [decodeURIComponent]; [None] is its [URIError]. *)
Variable decodeURIComponent : string -> option string.
Variable stringifyQuery : Query -> string.
(** What a redirect function of the configuration does for a route: it
    returns a value, or throws. *)
Variable callRedirect : Fn -> Route -> result RedirectValue.

(** The closure variables [pathList], [pathMap] and [nameMap] of
    [createMatcher], as [addRoutes] left them. *)
Variable table : RouteMap.

(** Modelled from the spec: [getFullPath] of util/route, not part of the
    sources at hand: the path followed by the serialized query and the hash. *)
Definition getFullPath (location : Location) : string :=
  or_else (loc_path location) "/"
  +:+ stringifyQuery (default [] (loc_query location))
  +:+ or_else (loc_hash location) "".

(** Modelled from the spec: [createRoute] of util/route, not part of the
    sources at hand.  A Route has the location's path, query, hash and params,
    the name of the location or else of the record, the meta of the record,
    the full path, the matched chain of the record (empty without a record)
    and, when a redirect led here, the full path of the location it came
    from ([index.js] reads [route.redirectedFrom || route.fullPath]). *)
Definition createRoute (record : option RouteRecord) (location : Location)
    (redirectedFrom : option Location) : Route :=
  {| r_name := if truthy (loc_name location) then loc_name location
               else record ≫= rec_name;
     r_meta := from_option rec_meta [] record;
     r_path := or_else (loc_path location) "/";
     r_hash := or_else (loc_hash location) "";
     r_query := default [] (loc_query location);
     r_params := default ∅ (loc_params location);
     r_fullPath := getFullPath location;
     r_matched := from_option formatMatch [] record;
     r_redirectedFrom := getFullPath <$> redirectedFrom |}.

(** The loop of [matchRoute] over the captured groups: every string group is
    decoded, and stored when the pattern has a key for it. *)
Fixpoint fillGroups (groups : list (option string)) (keys : list Key)
    (params : Params) : result Params :=
  match groups with
  | [] => Ok params
  | group :: groups =>
      val ← match group with
            | Some s => match decodeURIComponent s with
                        | Some d => Ok (Some d)
                        | None => Throw URIError
                        end
            | None => Ok None
            end;
      match keys with
      | key :: keys =>
          fillGroups groups keys (<[paramKey (key_name key) := val]> params)
      | [] => fillGroups groups [] params
      end
  end.

(** [matchRoute] returns whether the pattern matches and leaves the captures
    in [params]; the pair is that boolean and the object after the call. *)
Definition matchRoute (regex : RouteRegExp) (path : string)
    (params : option Params) : result (bool * option Params) :=
  match exec regex path with
  | None => Ok (false, params)
  | Some groups =>
      match params with
      | None => Ok (true, None)
      | Some ps => ps' ← fillGroups groups (keys regex) ps; Ok (true, Some ps')
      end
  end.

(** [resolvePath(path, record.parent ? record.parent.path : '/', true)] *)
Definition resolveRecordPath (path : string) (record : RouteRecord) : string :=
  resolvePath path (from_option rec_path "/" (rec_parent record)) true.

(** The scan of [pathList] in the path branch of [match]: the first record
    whose pattern matches, with the location holding its captures. *)
Fixpoint scanPathList (paths : list string) (path : string)
    (location : Location) : result (option (RouteRecord * Location)) :=
  match paths with
  | [] => Ok None
  | p :: paths =>
      match pathMap table !! p with
      | None => Throw TypeError
      | Some record =>
          '(matched, params) ← matchRoute (rec_regex record) path
                                            (loc_params location);
          if matched : bool then Ok (Some (record, setParams location params))
          else scanPathList paths path location
      end
  end.

(** The location that the name branch of [match] hands to [_createRoute]:
    params defaulted, backfilled from the current route, and the path filled
    from the record's template. *)
Definition namedLocation (record : RouteRecord) (location : Location)
    (currentRoute : option Route) : Location :=
  let paramNames := requiredParamNames (rec_regex record) in
  let params := default ∅ (loc_params location) in
  let params :=
    match currentRoute with
    | Some current => backfillParams paramNames (r_params current) params
    | None => params
    end in
  setPath (setParams location (Some params))
          (Some (fillParams (rec_path record) (Some params))).

(** [match], with [_createRoute] as a parameter. *)
Definition matchWith
    (_createRoute : option RouteRecord -> Location -> option Location -> result Route)
    (raw : RawLocation) (currentRoute : option Route)
    (redirectedFrom : option Location) : result Route :=
  let location := normalizeLocation raw currentRoute false in
  if truthy (loc_name location) then
    match nameMap table !! default "" (loc_name location) with
    | None => _createRoute None location None
    | Some record =>
        _createRoute (Some record) (namedLocation record location currentRoute)
                     redirectedFrom
    end
  else
    match loc_path location with
    | Some (String c s) =>
        let location := setParams location (Some ∅) in
        found ← scanPathList (pathList table) (String c s) location;
        match found with
        | Some (record, location) =>
            _createRoute (Some record) location redirectedFrom
        | None => _createRoute None location None
        end
    | _ => _createRoute None location None
    end.

(** The head of [redirect]: the redirect option, or what it returns when
    it is a function. *)
Definition redirectValue (record : RouteRecord) (location : Location)
    : result RedirectValue :=
  match rec_redirect record with
  | Some (RedirectFunction f) => callRedirect f (createRoute (Some record) location None)
  | Some (RedirectStatic v) => Ok v
  | None => Ok RedirectInvalid
  end.

(** [redirect], with [match] and [_createRoute] as parameters. *)
Definition redirectWith
    (match_ : RawLocation -> option Route -> option Location -> result Route)
    (_createRoute : option RouteRecord -> Location -> option Location -> result Route)
    (record : RouteRecord) (location : Location) : result Route :=
  redirect ← redirectValue record location;
  let redirect :=
    match redirect with
    | RedirectString s =>
        RedirectObject {| re_name := None; re_path := Some s; re_query := None;
                          re_hash := None; re_params := None |}
    | v => v
    end in
  match redirect with
  | RedirectObject re =>
      let query := default (loc_query location) (re_query re) in
      let hash := default (loc_hash location) (re_hash re) in
      let params := default (loc_params location) (re_params re) in
      if truthy (re_name re) then
        let name := default "" (re_name re) in
        let targetRecord := nameMap table !! name in
        match (if production then None
               else assert (bool_decide (is_Some targetRecord))
                           ("redirect failed: named route " +:+ dquote +:+ name
                            +:+ dquote +:+ " not found.")) with
        | Some e => Throw e
        | None =>
            match_ (RawObject {| loc_normalized := true; loc_name := Some name;
                                 loc_path := None; loc_hash := hash;
                                 loc_query := query; loc_params := params;
                                 loc_replace := false |})
                   None (Some location)
        end
      else if truthy (re_path re) then
        let rawPath := resolveRecordPath (default "" (re_path re)) record in
        let resolvedPath := fillParams rawPath params in
        match_ (RawObject {| loc_normalized := true; loc_name := None;
                             loc_path := Some resolvedPath; loc_hash := hash;
                             loc_query := query; loc_params := None;
                             loc_replace := false |})
               None (Some location)
      else _createRoute None location None
  | _ => _createRoute None location None
  end.

(** [alias], with [match] and [_createRoute] as parameters. *)
Definition aliasWith
    (match_ : RawLocation -> option Route -> option Location -> result Route)
    (_createRoute : option RouteRecord -> Location -> option Location -> result Route)
    (record : RouteRecord) (location : Location) (matchAs : string) : result Route :=
  let aliasedPath := fillParams matchAs (loc_params location) in
  aliasedMatch ← match_ (RawObject {| loc_normalized := true; loc_name := None;
                                       loc_path := Some aliasedPath;
                                       loc_hash := None; loc_query := None;
                                       loc_params := None; loc_replace := false |})
                         None None;
  let matched := r_matched aliasedMatch in
  let aliasedRecord := last matched in
  let location := setParams location (Some (r_params aliasedMatch)) in
  _createRoute aliasedRecord location None.

(** [_createRoute].  [match], [redirect], [alias] and [_createRoute] call one
    another; [fuel] is the room that the call stack has for redirects and
    aliases nested in one another, and a call on a record that is neither
    needs none.  Without room for a nested call the engine raises its
    [RangeError], which nothing on the way catches. *)
Fixpoint _createRoute (fuel : nat) (record : option RouteRecord)
    (location : Location) (redirectedFrom : option Location) : result Route :=
  match record with
  | Some r =>
      if hasRedirect r then
        match fuel with
        | 0 => Throw RangeError
        | S fuel =>
            redirectWith (matchWith (_createRoute fuel)) (_createRoute fuel)
                         r (default location redirectedFrom)
        end
      else if truthy (rec_matchAs r) then
        match fuel with
        | 0 => Throw RangeError
        | S fuel =>
            aliasWith (matchWith (_createRoute fuel)) (_createRoute fuel)
                      r location (default "" (rec_matchAs r))
        end
      else Ok (createRoute record location redirectedFrom)
  | None => Ok (createRoute record location redirectedFrom)
  end.

(** What [match] has looked up when it calls [_createRoute]: the record, if
    one was found, and the location as it is by then. *)
Definition findRecord (raw : RawLocation) (currentRoute : option Route)
    : result (option RouteRecord * Location) :=
  let location := normalizeLocation raw currentRoute false in
  if truthy (loc_name location) then
    match nameMap table !! default "" (loc_name location) with
    | None => Ok (None, location)
    | Some record => Ok (Some record, namedLocation record location currentRoute)
    end
  else
    match loc_path location with
    | Some (String c s) =>
        let location := setParams location (Some ∅) in
        found ← scanPathList (pathList table) (String c s) location;
        match found with
        | Some (record, location) => Ok (Some record, location)
        | None => Ok (None, location)
        end
    | _ => Ok (None, location)
    end.

(** The raw location that [redirect] hands to [match] for a record and the
    location that came first; [None] for a redirect option that is no
    string or object, or that has neither a name nor a path, and for a
    redirect function that throws. *)
Definition redirectTarget (record : RouteRecord) (location : Location)
    : option RawLocation :=
  let redirect :=
    match redirectValue record location with
    | Ok v => v
    | Throw _ => RedirectInvalid
    end in
  let redirect :=
    match redirect with
    | RedirectString s =>
        RedirectObject {| re_name := None; re_path := Some s; re_query := None;
                          re_hash := None; re_params := None |}
    | v => v
    end in
  match redirect with
  | RedirectObject re =>
      let query := default (loc_query location) (re_query re) in
      let hash := default (loc_hash location) (re_hash re) in
      let params := default (loc_params location) (re_params re) in
      if truthy (re_name re) then
        Some (RawObject {| loc_normalized := true;
                           loc_name := Some (default "" (re_name re));
                           loc_path := None; loc_hash := hash;
                           loc_query := query; loc_params := params;
                           loc_replace := false |})
      else if truthy (re_path re) then
        Some (RawObject {| loc_normalized := true; loc_name := None;
                           loc_path :=
                             Some (fillParams
                                     (resolveRecordPath (default "" (re_path re)) record)
                                     params);
                           loc_hash := hash; loc_query := query;
                           loc_params := None; loc_replace := false |})
      else None
  | _ => None
  end.

(** A redirect by name names a registered route. *)
Definition namedTargetRegistered (raw : RawLocation) : Prop :=
  match raw with
  | RawObject l =>
      truthy (loc_name l) = true ->
      is_Some (nameMap table !! default "" (loc_name l))
  | RawString _ => True
  end.

(** [redirectChain orig n record location final last]: [n] redirecting
    records in a row, each redirect taken for the location [orig] that came
    first, lead from [record], found for [location], to [final], found for
    [last], a record that is neither a redirect nor an alias. *)
Inductive redirectChain (orig : Location)
    : nat -> RouteRecord -> Location -> RouteRecord -> Location -> Prop :=
| chain_end (record : RouteRecord) (location : Location) :
    hasRedirect record = false ->
    truthy (rec_matchAs record) = false ->
    redirectChain orig 0 record location record location
| chain_hop (n : nat) (record next final : RouteRecord)
    (location location' last : Location) (raw : RawLocation) :
    hasRedirect record = true ->
    redirectTarget record orig = Some raw ->
    namedTargetRegistered raw ->
    findRecord raw None = Ok (Some next, location') ->
    redirectChain orig n next location' final last ->
    redirectChain orig (S n) record location final last.

Definition match_ (fuel : nat) (raw : RawLocation) (currentRoute : option Route)
    (redirectedFrom : option Location) : result Route :=
  matchWith (_createRoute fuel) raw currentRoute redirectedFrom.

Definition redirect (fuel : nat) (record : RouteRecord) (location : Location)
    : result Route :=
  redirectWith (match_ fuel) (_createRoute fuel) record location.

Definition alias (fuel : nat) (record : RouteRecord) (location : Location)
    (matchAs : string) : result Route :=
  aliasWith (match_ fuel) (_createRoute fuel) record location matchAs.

End Matcher.

(** The closure variables of [createMatcher(routes)], and what [addRoutes]
    makes of them; [matcherTable routes added] is the table of a matcher
    after the calls of [addRoutes] listed in [added]. *)
Definition createMatcher (production : bool) (cleanPath : string -> string)
    (Regexp : string -> PathToRegexpOptions -> RouteRegExp)
    (routes : list RouteConfig) : RouteMap :=
  createRouteMap production cleanPath Regexp routes emptyRouteMap.

Definition addRoutes (production : bool) (cleanPath : string -> string)
    (Regexp : string -> PathToRegexpOptions -> RouteRegExp)
    (routes : list RouteConfig) (table : RouteMap) : RouteMap :=
  createRouteMap production cleanPath Regexp routes table.

Definition matcherTable (production : bool) (cleanPath : string -> string)
    (Regexp : string -> PathToRegexpOptions -> RouteRegExp)
    (routes : list RouteConfig) (added : list (list RouteConfig)) : RouteMap :=
  fold_left (fun table routes => addRoutes production cleanPath Regexp routes table)
            added (createMatcher production cleanPath Regexp routes).

(** ** index.js: hook registration *)

(** [list.indexOf(fn)]: the first index holding [fn], or [-1]. *)
Fixpoint indexOf (hooks : list Fn) (fn : Fn) : Z :=
  match hooks with
  | [] => (-1)%Z
  | x :: hooks =>
      if decide (x = fn) then 0%Z
      else let i := indexOf hooks fn in
           if decide (i = (-1)%Z) then (-1)%Z else (i + 1)%Z
  end.

(** [registerHook]: the array after [list.push(fn)], and the closure that the
    call returns, as a function of the array it finds when it is run:
    [const i = list.indexOf(fn); if (i > -1) list.splice(i, 1)]. *)
Definition registerHook (hooks : list Fn) (fn : Fn)
    : list Fn * (list Fn -> list Fn) :=
  (hooks ++ [fn],
   fun hooks =>
     let i := indexOf hooks fn in
     if decide (-1 < i)%Z then delete (Z.to_nat i) hooks else hooks).

Record VueRouter := mkVueRouter {
  app : bool;
  beforeHooks : list Fn;
  resolveHooks : list Fn;
  afterHooks : list Fn }.

Definition beforeEach (router : VueRouter) (fn : Fn)
    : VueRouter * (VueRouter -> VueRouter) :=
  let '(hooks, unregister) := registerHook (beforeHooks router) fn in
  ({| app := app router; beforeHooks := hooks;
      resolveHooks := resolveHooks router; afterHooks := afterHooks router |},
   fun router =>
     {| app := app router; beforeHooks := unregister (beforeHooks router);
        resolveHooks := resolveHooks router; afterHooks := afterHooks router |}).

Definition beforeResolve (router : VueRouter) (fn : Fn)
    : VueRouter * (VueRouter -> VueRouter) :=
  let '(hooks, unregister) := registerHook (resolveHooks router) fn in
  ({| app := app router; beforeHooks := beforeHooks router;
      resolveHooks := hooks; afterHooks := afterHooks router |},
   fun router =>
     {| app := app router; beforeHooks := beforeHooks router;
        resolveHooks := unregister (resolveHooks router);
        afterHooks := afterHooks router |}).

Definition afterEach (router : VueRouter) (fn : Fn)
    : VueRouter * (VueRouter -> VueRouter) :=
  let '(hooks, unregister) := registerHook (afterHooks router) fn in
  ({| app := app router; beforeHooks := beforeHooks router;
      resolveHooks := resolveHooks router; afterHooks := hooks |},
   fun router =>
     {| app := app router; beforeHooks := beforeHooks router;
        resolveHooks := resolveHooks router;
        afterHooks := unregister (afterHooks router) |}).

(** ** history/base.js *)

(** A Route object on the heap: [this.pending !== route] compares
    identities, and every call of [match] builds a new object. *)
Record RouteObject := mkRouteObject { oid : nat; val : Route }.

Definition sameObject (a b : RouteObject) : bool := bool_decide (oid a = oid b).

Inductive Error :=
| NavigationDuplicated (route : RouteObject)
| OtherError (n : nat).

(** The values a guard hands to [next], or throws. *)
Inductive Value :=
| VUndefined
| VBool (b : bool)
| VString (s : string)
| VObject (l : Location)
| VFunction (f : Fn)
| VError (e : Error).

(** Modelled from the spec: [isError] and [isExtendedError] of util/warn and
    the [NavigationDuplicated] class of history/errors, not part of the
    sources at hand.  A duplicate navigation is an error value of its own
    class; every other error value is a guard's. *)
Definition isError (err : Value) : bool :=
  match err with
  | VError _ => true
  | _ => false
  end.

Definition isNavigationDuplicated (err : Value) : bool :=
  match err with
  | VError (NavigationDuplicated _) => true
  | _ => false
  end.

(** [to === false] *)
Definition isFalse (to : Value) : bool :=
  match to with
  | VBool false => true
  | _ => false
  end.

(** Truthiness of a value, for [err && !this.ready]. *)
Definition truthyValue (v : Value) : bool :=
  match v with
  | VUndefined | VBool false | VString "" => false
  | _ => true
  end.

(** The elements of a guard queue. *)
Inductive NavigationGuard :=
| HookFn (f : Fn)
| BoundRouteGuard (guard : Fn) (instance : Instance)
| RouteEnterGuard (guard : Fn) (record : RouteRecord) (key : string)
| ResolveAsyncComponents (activated : list RouteRecord).

(** The [onComplete] argument of [transitionTo]: a function of the caller,
    or the closure that [push] or [replace] of the HTML5 history wraps around
    the caller's. *)
Inductive OnComplete :=
| CompleteFn (f : Fn)
| CompletePush (f : option Fn)
| CompleteReplace (f : option Fn).

(** A callback that an enter guard left for after the navigation. *)
Definition PostEnterCb : Type := Fn * RouteRecord * string.

(** Calls that leave the history: into guards, callbacks, observers and the
    URL of the subclass; and [EvRaise], for a call of a method of the history
    that ends by raising to its caller. *)
Inductive Event :=
| EvGuard (hook : NavigationGuard) (to from : RouteObject)
| EvEnsureURL (push : bool)
| EvErrorCb (cb : Fn) (err : Value)
| EvUncaughtError (err : Value)
| EvOnAbort (cb : Fn) (err : Value)
| EvReadyErrorCb (cb : Fn) (err : Value)
| EvListener (cb : Fn) (route : RouteObject)
| EvAfterHook (hook : Fn) (to from : RouteObject)
| EvPushState (route : RouteObject)
| EvReplaceState (route : RouteObject)
| EvOnComplete (cb : Fn) (route : RouteObject)
| EvReadyCb (cb : Fn) (route : option RouteObject)
| EvNextTick (route : RouteObject) (cbs : list PostEnterCb)
| EvRaise (e : Exception).

(** The variables that the closures of one [confirmTransition] call share. *)
Record Transition := mkTransition {
  t_route : RouteObject;
  t_current : RouteObject;
  t_onComplete : option OnComplete;
  t_onAbort : option Fn;
  t_activated : list RouteRecord }.

Inductive Stage := FirstQueue | SecondQueue.

(** A guard that was invoked and has not called [next] yet holds the rest of
    its queue: [() => step(index + 1)]. *)
Record Suspended := mkSuspended {
  s_transition : Transition;
  s_stage : Stage;
  s_hook : NavigationGuard;
  s_rest : list (option NavigationGuard);
  s_postEnterCbs : list PostEnterCb }.

Record History := mkHistory {
  router : VueRouter;
  current : RouteObject;
  pending : option RouteObject;
  cb : option Fn;
  ready : bool;
  readyCbs : list Fn;
  readyErrorCbs : list Fn;
  errorCbs : list Fn;
  (** [record.instances[key]], written by the rendering side *)
  instances : RouteRecord -> string -> option Instance;
  (** the guards in flight, the number of the next call of [match] (the
      identity of the route object that it returns), the calls made so far *)
  suspended : list Suspended;
  nextId : nat;
  trace : list Event }.

Definition emit (events : list Event) (h : History) : History :=
  {| router := router h; current := current h; pending := pending h;
     cb := cb h; ready := ready h; readyCbs := readyCbs h;
     readyErrorCbs := readyErrorCbs h; errorCbs := errorCbs h;
     instances := instances h; suspended := suspended h; nextId := nextId h;
     trace := trace h ++ events |}.

Definition setReady (h : History) : History :=
  {| router := router h; current := current h; pending := pending h;
     cb := cb h; ready := true; readyCbs := readyCbs h;
     readyErrorCbs := readyErrorCbs h; errorCbs := errorCbs h;
     instances := instances h; suspended := suspended h; nextId := nextId h;
     trace := trace h |}.

Definition setPending (p : option RouteObject) (h : History) : History :=
  {| router := router h; current := current h; pending := p;
     cb := cb h; ready := ready h; readyCbs := readyCbs h;
     readyErrorCbs := readyErrorCbs h; errorCbs := errorCbs h;
     instances := instances h; suspended := suspended h; nextId := nextId h;
     trace := trace h |}.

Definition setCurrent (route : RouteObject) (h : History) : History :=
  {| router := router h; current := route; pending := pending h;
     cb := cb h; ready := ready h; readyCbs := readyCbs h;
     readyErrorCbs := readyErrorCbs h; errorCbs := errorCbs h;
     instances := instances h; suspended := suspended h; nextId := nextId h;
     trace := trace h |}.

Definition setSuspended (l : list Suspended) (h : History) : History :=
  {| router := router h; current := current h; pending := pending h;
     cb := cb h; ready := ready h; readyCbs := readyCbs h;
     readyErrorCbs := readyErrorCbs h; errorCbs := errorCbs h;
     instances := instances h; suspended := l; nextId := nextId h;
     trace := trace h |}.

Definition setNextId (n : nat) (h : History) : History :=
  {| router := router h; current := current h; pending := pending h;
     cb := cb h; ready := ready h; readyCbs := readyCbs h;
     readyErrorCbs := readyErrorCbs h; errorCbs := errorCbs h;
     instances := instances h; suspended := suspended h; nextId := n;
     trace := trace h |}.

Definition setRouter (r : VueRouter) (h : History) : History :=
  {| router := r; current := current h; pending := pending h;
     cb := cb h; ready := ready h; readyCbs := readyCbs h;
     readyErrorCbs := readyErrorCbs h; errorCbs := errorCbs h;
     instances := instances h; suspended := suspended h; nextId := nextId h;
     trace := trace h |}.

Definition setInstances (i : RouteRecord -> string -> option Instance)
    (h : History) : History :=
  {| router := router h; current := current h; pending := pending h;
     cb := cb h; ready := ready h; readyCbs := readyCbs h;
     readyErrorCbs := readyErrorCbs h; errorCbs := errorCbs h;
     instances := i; suspended := suspended h; nextId := nextId h;
     trace := trace h |}.

(** [listen], [onReady] and [onError]. *)
Definition listen (f : Fn) (h : History) : History :=
  {| router := router h; current := current h; pending := pending h;
     cb := Some f; ready := ready h; readyCbs := readyCbs h;
     readyErrorCbs := readyErrorCbs h; errorCbs := errorCbs h;
     instances := instances h; suspended := suspended h; nextId := nextId h;
     trace := trace h |}.

Definition onReady (f : Fn) (errorCb : option Fn) (h : History) : History :=
  if ready h then emit [EvReadyCb f None] h
  else
    {| router := router h; current := current h; pending := pending h;
       cb := cb h; ready := ready h; readyCbs := readyCbs h ++ [f];
       readyErrorCbs := readyErrorCbs h ++ option_list errorCb;
       errorCbs := errorCbs h;
       instances := instances h; suspended := suspended h; nextId := nextId h;
       trace := trace h |}.

Definition onError (errorCb : Fn) (h : History) : History :=
  {| router := router h; current := current h; pending := pending h;
     cb := cb h; ready := ready h; readyCbs := readyCbs h;
     readyErrorCbs := readyErrorCbs h; errorCbs := errorCbs h ++ [errorCb];
     instances := instances h; suspended := suspended h; nextId := nextId h;
     trace := trace h |}.

(** [ensureURL] is the subclass's; the base class only asks for it, with
    [push] true to add an entry and false or absent to replace one. *)
Definition ensureURL (push : bool) (h : History) : History :=
  emit [EvEnsureURL push] h.

(** [updateRoute] *)
Definition updateRoute (route : RouteObject) (h : History) : History :=
  let prev := current h in
  let h := setCurrent route h in
  let h := emit ((fun f => EvListener f route) <$> option_list (cb h)) h in
  emit ((fun hook => EvAfterHook hook route prev) <$> afterHooks (router h)) h.

(** Modelled from the spec: [runQueue] of util/async, not part of the
    sources at hand: the steps run one at a time, in order; an empty slot is
    passed over; [fn] gets the step and the way to go on, here the rest of
    the queue; [cb] runs after the last step. *)
Fixpoint runQueue {S : Type} (queue : list (option NavigationGuard))
    (fn : NavigationGuard -> list (option NavigationGuard) -> S -> S)
    (cb : S -> S) (s : S) : S :=
  match queue with
  | [] => cb s
  | None :: queue => runQueue queue fn cb s
  | Some hook :: queue => fn hook queue s
  end.

(** [a[i] !== b[i]] on two arrays of records, [undefined] past the end. *)
Definition differAt (same : RouteRecord -> RouteRecord -> bool)
    (a b : list RouteRecord) (i : nat) : bool :=
  match a !! i, b !! i with
  | Some x, Some y => negb (same x y)
  | None, None => false
  | _, _ => true
  end.

(** The loop of [resolveQueue]: [n] is what is left of [max - i]. *)
Fixpoint firstDifference (same : RouteRecord -> RouteRecord -> bool)
    (current next : list RouteRecord) (n i : nat) : nat :=
  match n with
  | 0 => i
  | S n => if differAt same current next i then i
           else firstDifference same current next n (i + 1)
  end.

Record ResolvedQueue := mkResolvedQueue {
  updated : list RouteRecord;
  activated : list RouteRecord;
  deactivated : list RouteRecord }.

Definition resolveQueue (same : RouteRecord -> RouteRecord -> bool)
    (current next : list RouteRecord) : ResolvedQueue :=
  let max := Nat.max (length current) (length next) in
  let i := firstDifference same current next max 0 in
  {| updated := take i next; activated := drop i next;
     deactivated := drop i current |}.

(** What [def.options[key]] holds for a guard name. *)
Inductive GuardOption :=
| NoGuard
| OneGuard (guard : Fn)
| GuardArray (guards : list Fn).

(** Modelled from the spec: [flatMapComponents] and [flatten] of
    util/resolve-components, not part of the sources at hand.  [fn] is run on
    every view slot of every record, in the order of the records and of the
    slots of each; [flatten] joins the arrays among the results.  A result is
    given here as the list of its elements: one element for a single value,
    [undefined] included. *)
Definition flatMapComponents {A : Type} (matched : list RouteRecord)
    (instances : RouteRecord -> string -> option Instance)
    (fn : option Component -> option Instance -> RouteRecord -> string -> A)
    : list A :=
  concat ((fun m =>
             (fun slot => fn slot.2 (instances m slot.1) m slot.1)
               <$> rec_components m) <$> matched).

Definition flatten {A : Type} (arr : list (list A)) : list A := concat arr.

(** [bindGuard] *)
Definition bindGuard (guard : Fn) (instance : option Instance)
    (record : RouteRecord) (key : string) : option NavigationGuard :=
  match instance with
  | Some i => Some (BoundRouteGuard guard i)
  | None => None
  end.

(** [bindEnterGuard], as the bind function of [extractEnterGuards] calls it *)
Definition bindEnterGuard (guard : Fn) (instance : option Instance)
    (record : RouteRecord) (key : string) : option NavigationGuard :=
  Some (RouteEnterGuard guard record key).

Section HistoryBase.

(** [this.router.match(location, this.current)], which returns a route or
    raises; identity of records ([!==]); [isSameRoute] of util/route; the
    guards that [extractGuard] finds in a component definition once
    extended. *)
Variable router_match : RawLocation -> RouteObject -> result Route.
Variable sameRecord : RouteRecord -> RouteRecord -> bool.
Variable isSameRoute : RouteObject -> RouteObject -> bool.
Variable extractGuard : option Component -> string -> GuardOption.

Definition extractGuards (instances : RouteRecord -> string -> option Instance)
    (records : list RouteRecord) (name : string)
    (bind : Fn -> option Instance -> RouteRecord -> string -> option NavigationGuard)
    (reverse : bool) : list (option NavigationGuard) :=
  let guards :=
    flatMapComponents records instances (fun def instance record key =>
      match extractGuard def name with
      | NoGuard => [None]
      | OneGuard guard => [bind guard instance record key]
      | GuardArray guards => (fun guard => bind guard instance record key) <$> guards
      end) in
  flatten (if reverse then rev guards else guards).

Definition extractLeaveGuards (instances : RouteRecord -> string -> option Instance)
    (deactivated : list RouteRecord) : list (option NavigationGuard) :=
  extractGuards instances deactivated "beforeRouteLeave" bindGuard true.

Definition extractUpdateHooks (instances : RouteRecord -> string -> option Instance)
    (updated : list RouteRecord) : list (option NavigationGuard) :=
  extractGuards instances updated "beforeRouteUpdate" bindGuard false.

Definition extractEnterGuards (instances : RouteRecord -> string -> option Instance)
    (activated : list RouteRecord) : list (option NavigationGuard) :=
  extractGuards instances activated "beforeRouteEnter" bindEnterGuard false.

(** The closure [err => ...] that [transitionTo] passes as [onAbort]. *)
Definition onAbort (t : Transition) (err : Value) (h : History) : History :=
  let h := emit ((fun f => EvOnAbort f err) <$> option_list (t_onAbort t)) h in
  if truthyValue err && negb (ready h)
  then emit ((fun f => EvReadyErrorCb f err) <$> readyErrorCbs h) (setReady h)
  else h.

(** [abort] of [confirmTransition] *)
Definition abort (t : Transition) (err : Value) (h : History) : History :=
  let h :=
    if negb (isNavigationDuplicated err) && isError err then
      match errorCbs h with
      | [] => emit [EvUncaughtError err] h
      | cbs => emit ((fun f => EvErrorCb f err) <$> cbs) h
      end
    else h in
  onAbort t err h.

(** The caller's [onComplete]; [push] and [replace] of the HTML5 history
    write the URL before they call it. *)
Definition callOnComplete (c : option OnComplete) (route : RouteObject)
    (h : History) : History :=
  match c with
  | None => h
  | Some (CompleteFn f) => emit [EvOnComplete f route] h
  | Some (CompletePush f) =>
      emit (EvPushState route :: ((fun f => EvOnComplete f route) <$> option_list f)) h
  | Some (CompleteReplace f) =>
      emit (EvReplaceState route :: ((fun f => EvOnComplete f route) <$> option_list f)) h
  end.

(** The closure [() => ...] that [transitionTo] passes as [onComplete]. *)
Definition onComplete (t : Transition) (h : History) : History :=
  let route := t_route t in
  let h := updateRoute route h in
  let h := callOnComplete (t_onComplete t) route h in
  let h := ensureURL false h in
  if ready h then h
  else emit ((fun f => EvReadyCb f (Some route)) <$> readyCbs h) (setReady h).

(** [iterator]: the guard is called only for the pending navigation, and
    then holds the rest of the queue until it calls [next]. *)
Definition iterator (t : Transition) (stage : Stage) (cbs : list PostEnterCb)
    (hook : NavigationGuard) (rest : list (option NavigationGuard))
    (h : History) : History :=
  match pending h with
  | Some p =>
      if sameObject p (t_route t) then
        emit [EvGuard hook (t_route t) (t_current t)]
             (setSuspended (suspended h ++
                              [{| s_transition := t; s_stage := stage;
                                  s_hook := hook; s_rest := rest;
                                  s_postEnterCbs := cbs |}]) h)
      else abort t VUndefined h
  | None => abort t VUndefined h
  end.

(** The callback that ends the second queue. *)
Definition secondQueueDone (t : Transition) (cbs : list PostEnterCb)
    (h : History) : History :=
  match pending h with
  | Some p =>
      if sameObject p (t_route t) then
        let h := setPending None h in
        let h := onComplete t h in
        if app (router h) then emit [EvNextTick (t_route t) cbs] h else h
      else abort t VUndefined h
  | None => abort t VUndefined h
  end.

(** The callback that ends the first queue. *)
Definition firstQueueDone (t : Transition) (h : History) : History :=
  let postEnterCbs := [] in
  let enterGuards := extractEnterGuards (instances h) (t_activated t) in
  let queue := enterGuards ++ (Some ∘ HookFn <$> resolveHooks (router h)) in
  runQueue queue (iterator t SecondQueue postEnterCbs)
           (secondQueueDone t postEnterCbs) h.

(** The first queue of [confirmTransition]. *)
Definition guardQueue (h : History) (q : ResolvedQueue)
    : list (option NavigationGuard) :=
  extractLeaveGuards (instances h) (deactivated q)
  ++ (Some ∘ HookFn <$> beforeHooks (router h))
  ++ extractUpdateHooks (instances h) (updated q)
  ++ ((fun m => HookFn <$> rec_beforeEnter m) <$> activated q)
  ++ [Some (ResolveAsyncComponents (activated q))].

Definition confirmTransition (route : RouteObject)
    (onComplete : option OnComplete) (onAbort : option Fn) (h : History)
    : History :=
  let current := current h in
  let q := resolveQueue sameRecord (r_matched (val current)) (r_matched (val route)) in
  let t := {| t_route := route; t_current := current;
              t_onComplete := onComplete; t_onAbort := onAbort;
              t_activated := activated q |} in
  if isSameRoute route current
     && bool_decide (length (r_matched (val route)) = length (r_matched (val current)))
  then abort t (VError (NavigationDuplicated route)) (ensureURL false h)
  else
    let queue := guardQueue h q in
    let h := setPending (Some route) h in
    runQueue queue (iterator t FirstQueue []) (firstQueueDone t) h.

(** [transitionTo].  The call of [match] stands outside every [try]: when
    it raises, [transitionTo] ends there, before [confirmTransition] writes
    [this.pending] or calls anything, and the caller gets the exception. *)
Definition transitionTo (location : RawLocation)
    (onComplete : option OnComplete) (onAbort : option Fn) (h : History)
    : History :=
  match router_match location (current h) with
  | Ok route =>
      confirmTransition {| oid := nextId h; val := route |} onComplete onAbort
                        (setNextId (S (nextId h)) h)
  | Throw e => emit [EvRaise e] (setNextId (S (nextId h)) h)
  end.

(** [push] and [replace] of the HTML5 history. *)
Definition push (location : RawLocation) (onComplete onAbort : option Fn)
    (h : History) : History :=
  transitionTo location (Some (CompletePush onComplete)) onAbort h.

Definition replace (location : RawLocation) (onComplete onAbort : option Fn)
    (h : History) : History :=
  transitionTo location (Some (CompleteReplace onComplete)) onAbort h.

(** [typeof to === 'string' || (typeof to === 'object' &&
     (typeof to.path === 'string' || typeof to.name === 'string'))] *)
Definition isRedirect (to : Value) : bool :=
  match to with
  | VString _ => true
  | VObject l => bool_decide (is_Some (loc_path l)) || bool_decide (is_Some (loc_name l))
  | _ => false
  end.

Definition rawLocationOf (to : Value) : RawLocation :=
  match to with
  | VObject l => RawObject l
  | VString s => RawString s
  | _ => RawString ""
  end.

(** The function that the iterator gives to a guard as [next], for the guard
    whose continuation is [s].  An enter guard first keeps a function it is
    given for after the navigation.  What [push] or [replace] raises in a
    redirect goes to the guard, the caller of [next]. *)
Definition next (s : Suspended) (to : Value) (h : History) : History :=
  let t := s_transition s in
  if isFalse to || isError to then
    abort t to (ensureURL true h)
  else if isRedirect to then
    let h := abort t VUndefined h in
    match to with
    | VObject l =>
        if loc_replace l then replace (rawLocationOf to) None None h
        else push (rawLocationOf to) None None h
    | _ => push (rawLocationOf to) None None h
    end
  else
    let cbs :=
      match s_hook s, to with
      | RouteEnterGuard _ record key, VFunction f =>
          s_postEnterCbs s ++ [(f, record, key)]
      | _, _ => s_postEnterCbs s
      end in
    runQueue (s_rest s) (iterator t (s_stage s) cbs)
             (match s_stage s with
              | FirstQueue => firstQueueDone t
              | SecondQueue => secondQueueDone t cbs
              end) h.

(** [catch (e) { abort(e) }] around the call of the guard. *)
Definition guardThrew (s : Suspended) (e : Value) (h : History) : History :=
  abort (s_transition s) e h.

(** The guard in flight for the navigation to the route object [id]. *)
Fixpoint takeSuspended (id : nat) (l : list Suspended)
    : option (Suspended * list Suspended) :=
  match l with
  | [] => None
  | s :: l =>
      if decide (oid (t_route (s_transition s)) = id) then Some (s, l)
      else '(found, l') ← takeSuspended id l; Some (found, s :: l')
  end.

(** What happens to a history from outside: calls of its methods and of the
    router's (the closure that a registration returned is run by
    [CallUnregister...]), the rendering side, and guards that answer.  A guard
    answers once, by calling [next] or by throwing instead; when its call of
    [next] raises, for a redirect to a location on which [match] raises, the
    exception is the guard's to handle, and the guard does not throw it on. *)
Inductive Input :=
| CallTransitionTo (location : RawLocation) (onComplete onAbort : option Fn)
| CallPush (location : RawLocation) (onComplete onAbort : option Fn)
| CallReplace (location : RawLocation) (onComplete onAbort : option Fn)
| CallListen (f : Fn)
| CallOnReady (f : Fn) (errorCb : option Fn)
| CallOnError (errorCb : Fn)
| CallBeforeEach (fn : Fn)
| CallBeforeResolve (fn : Fn)
| CallAfterEach (fn : Fn)
| CallUnregisterBeforeEach (fn : Fn)
| CallUnregisterBeforeResolve (fn : Fn)
| CallUnregisterAfterEach (fn : Fn)
| Render (instances : RouteRecord -> string -> option Instance)
| GuardNext (id : nat) (to : Value)
| GuardThrow (id : nat) (e : Value).

Definition step (h : History) (i : Input) : History :=
  match i with
  | CallTransitionTo location c a => transitionTo location (CompleteFn <$> c) a h
  | CallPush location c a => push location c a h
  | CallReplace location c a => replace location c a h
  | CallListen f => listen f h
  | CallOnReady f e => onReady f e h
  | CallOnError e => onError e h
  | CallBeforeEach fn => setRouter (beforeEach (router h) fn).1 h
  | CallBeforeResolve fn => setRouter (beforeResolve (router h) fn).1 h
  | CallAfterEach fn => setRouter (afterEach (router h) fn).1 h
  | CallUnregisterBeforeEach fn =>
      setRouter ((beforeEach (router h) fn).2 (router h)) h
  | CallUnregisterBeforeResolve fn =>
      setRouter ((beforeResolve (router h) fn).2 (router h)) h
  | CallUnregisterAfterEach fn =>
      setRouter ((afterEach (router h) fn).2 (router h)) h
  | Render i => setInstances i h
  | GuardNext id to =>
      match takeSuspended id (suspended h) with
      | Some (s, l) => next s to (setSuspended l h)
      | None => h
      end
  | GuardThrow id e =>
      match takeSuspended id (suspended h) with
      | Some (s, l) => guardThrew s e (setSuspended l h)
      | None => h
      end
  end.

Definition run (h : History) (inputs : list Input) : History :=
  fold_left step inputs h.

End HistoryBase.

(** The history that the constructor leaves: [START] is route object 0. *)
Definition newHistory (router : VueRouter) (START : Route) : History :=
  {| router := router; current := {| oid := 0; val := START |};
     pending := None; cb := None; ready := false; readyCbs := [];
     readyErrorCbs := []; errorCbs := [];
     instances := fun _ _ => None; suspended := []; nextId := 1; trace := [] |}.

(** ** Vocabulary of the statements *)

(** [st'] has all that [st] has: its path list is that of [st] followed by
    paths that [st] did not map, and its maps keep the entries of [st]. *)
Definition extends (st st' : RouteMap) : Prop :=
  (∃ added, pathList st' = pathList st ++ added
            ∧ ∀ p, p ∈ added → pathMap st !! p = None)
  ∧ pathMap st ⊆ pathMap st' ∧ nameMap st ⊆ nameMap st'.

(** Every listed path is mapped, and to a record of that path. *)
Definition consistent (st : RouteMap) : Prop :=
  (∀ p, p ∈ pathList st → is_Some (pathMap st !! p))
  ∧ (∀ p r, pathMap st !! p = Some r → rec_path r = p).

(** The wildcard paths of a list come after all the others. *)
Definition wildcardsLast (paths : list string) : Prop :=
  paths = filter (fun p => p ≠ "*") paths ++ filter (fun p => p = "*") paths.

(** No record listed in [paths] has a pattern that matches [path]. *)
Definition unmatched (table : RouteMap) (paths : list string) (path : string)
    : Prop :=
  ∀ p, p ∈ paths →
       ∃ r, pathMap table !! p = Some r ∧ exec (rec_regex r) path = None.

(** ** Matching before and after an addition *)

Section MatchStability.

Variable normalizeLocation : RawLocation -> option Route -> bool -> Location.
Variable fillParams : string -> option Params -> string.
Variable resolvePath : string -> string -> bool -> string.
Variable decodeURIComponent : string -> option string.
Variable stringifyQuery : Query -> string.
Variable callRedirect : Fn -> Route -> result RedirectValue.

(** The tables before and after. *)
Variable table table' : RouteMap.

(** The raw location that [alias] hands to [match] for a record that
    matches as [matchAs]. *)
Definition aliasTarget (matchAs : string) (location : Location) : RawLocation :=
  RawObject {| loc_normalized := true; loc_name := None;
               loc_path := Some (fillParams matchAs (loc_params location));
               loc_hash := None; loc_query := None; loc_params := None;
               loc_replace := false |}.

(** The lookup of [match] for a raw location does not meet what the second
    table has more than the first: the name that it looks up has the same
    entry in both, or no added path has a pattern that matches the path that
    it scans for. *)
Definition lookupUnaffected (raw : RawLocation) (currentRoute : option Route)
    : Prop :=
  let location := normalizeLocation raw currentRoute false in
  if truthy (loc_name location) then
    nameMap table' !! default "" (loc_name location)
    = nameMap table !! default "" (loc_name location)
  else
    match loc_path location with
    | Some (String c s) =>
        ∀ p record, p ∈ pathList table' → p ∉ pathList table →
                    pathMap table' !! p = Some record →
                    exec (rec_regex record) (String c s) = None
    | _ => True
    end.

(** The name that a redirect by name asks for has the same entry in both
    tables. *)
Definition targetUnaffected (raw : RawLocation) : Prop :=
  match raw with
  | RawObject l =>
      truthy (loc_name l) = true →
      nameMap table' !! default "" (loc_name l)
      = nameMap table !! default "" (loc_name l)
  | RawString _ => True
  end.

(** [stable] holds of calls of [match], each a raw location, a current
    route and the location that a redirect came from, whose lookups do not
    meet the addition, and with each call of those that its record leads
    [match] to: the call on the target of its redirect, or on the path that
    it is an alias of. *)
Definition awayFromAddition
    (stable : RawLocation → option Route → option Location → Prop) : Prop :=
  ∀ raw currentRoute redirectedFrom,
    stable raw currentRoute redirectedFrom →
    lookupUnaffected raw currentRoute
    ∧ ∀ record location,
        findRecord normalizeLocation fillParams decodeURIComponent table
                   raw currentRoute = Ok (Some record, location) →
        if hasRedirect record then
          ∀ target,
            redirectTarget fillParams resolvePath stringifyQuery callRedirect
                           record (default location redirectedFrom) = Some target →
            targetUnaffected target
            ∧ stable target None (Some (default location redirectedFrom))
        else if truthy (rec_matchAs record) then
          stable (aliasTarget (default "" (rec_matchAs record)) location) None None
        else True.

End MatchStability.

(** ** Stand-ins for the collaborators, for the worked examples

    The examples below need a pattern compiler, a location normalizer and
    the like to run on.  These are small stand-ins, enough for paths made of
    literal segments, [:name] segments and the lone ["*"]; nothing is proved
    of path-to-regexp itself. *)

Fixpoint splitSlash (s : string) (segment : string) : list string :=
  match s with
  | "" => [segment]
  | String c s =>
      if decide (c = "/"%char) then segment :: splitSlash s ""
      else splitSlash s (segment +:+ String c "")
  end.

Fixpoint joinSlash (segments : list string) : string :=
  match segments with
  | [] => ""
  | [s] => s
  | s :: segments => s +:+ "/" +:+ joinSlash segments
  end.

Fixpoint matchSegments (pattern path : list string)
    : option (list (option string)) :=
  match pattern, path with
  | [], [] => Some []
  | String ":" _ :: pattern, "" :: _ => None
  | String ":" _ :: pattern, s :: path => (Some s ::.) <$> matchSegments pattern path
  | p :: pattern, s :: path =>
      if decide (p = s) then matchSegments pattern path else None
  | _, _ => None
  end.

Definition segmentKeys (pattern : list string) : list Key :=
  omap (fun p => match p with
                 | String ":" name => Some {| key_name := KStr name; key_optional := false |}
                 | _ => None
                 end) pattern.

Definition sampleRegexp (path : string) (options : PathToRegexpOptions)
    : RouteRegExp :=
  if decide (path = "*") then
    {| exec := fun s => Some [Some s];
       keys := [{| key_name := KNum 0; key_optional := false |}] |}
  else
    {| exec := fun s => matchSegments (splitSlash path "") (splitSlash s "");
       keys := segmentKeys (splitSlash path "") |}.

Fixpoint fillSegments (pattern : list string) (params : Params)
    : option (list string) :=
  match pattern with
  | [] => Some []
  | String ":" name :: pattern =>
      match params !! name with
      | Some (Some v) => (v ::.) <$> fillSegments pattern params
      | _ => None
      end
  | p :: pattern => (p ::.) <$> fillSegments pattern params
  end.

(** An empty string stands for a template that could not be filled. *)
Definition sampleFillParams (path : string) (params : option Params) : string :=
  match fillSegments (splitSlash path "") (default ∅ params) with
  | Some segments => joinSlash segments
  | None => ""
  end.

Definition sampleNormalizeLocation (raw : RawLocation) (current : option Route)
    (append : bool) : Location :=
  match raw with
  | RawString s =>
      {| loc_normalized := true; loc_name := None; loc_path := Some s;
         loc_hash := None; loc_query := None; loc_params := None;
         loc_replace := false |}
  | RawObject l => l
  end.

Definition sampleCleanPath (path : string) : string := path.

Definition sampleResolvePath (relative base : string) (append : bool) : string :=
  if startsWithSlash relative then relative else base +:+ "/" +:+ relative.

Fixpoint hasPercent (s : string) : bool :=
  match s with
  | "" => false
  | String c s => bool_decide (c = "%"%char) || hasPercent s
  end.

(** Escapes are not decoded by this stand-in: it raises where it meets a
    percent sign, as the built-in does on a malformed escape such as a lone
    percent sign, and returns any other string as it is. *)
Definition sampleDecode (s : string) : option string :=
  if hasPercent s then None else Some s.

Definition sampleStringifyQuery (q : Query) : string := "".

(** The redirect functions of the examples: function 1 throws, the others
    return nothing of use. *)
Definition sampleCallRedirect (f : Fn) (route : Route) : result RedirectValue :=
  if decide (f = 1) then Throw (OtherException 0) else Ok RedirectInvalid.

(** A configuration with a path and nothing else. *)
Definition routeAt (path : string) : RouteConfig :=
  {| cfg_path := path; cfg_name := None; cfg_component := None;
     cfg_components := None; cfg_redirect := None; cfg_alias := None;
     cfg_children := None; cfg_beforeEnter := None; cfg_meta := None;
     cfg_props := None; cfg_caseSensitive := None;
     cfg_pathToRegexpOptions := None |}.

Definition named (name : string) (route : RouteConfig) : RouteConfig :=
  {| cfg_path := cfg_path route; cfg_name := Some name;
     cfg_component := cfg_component route;
     cfg_components := cfg_components route; cfg_redirect := cfg_redirect route;
     cfg_alias := cfg_alias route; cfg_children := cfg_children route;
     cfg_beforeEnter := cfg_beforeEnter route; cfg_meta := cfg_meta route;
     cfg_props := cfg_props route; cfg_caseSensitive := cfg_caseSensitive route;
     cfg_pathToRegexpOptions := cfg_pathToRegexpOptions route |}.

Definition redirecting (target : string) (route : RouteConfig) : RouteConfig :=
  {| cfg_path := cfg_path route; cfg_name := cfg_name route;
     cfg_component := cfg_component route;
     cfg_components := cfg_components route;
     cfg_redirect := Some (RedirectStatic (RedirectString target));
     cfg_alias := cfg_alias route; cfg_children := cfg_children route;
     cfg_beforeEnter := cfg_beforeEnter route; cfg_meta := cfg_meta route;
     cfg_props := cfg_props route; cfg_caseSensitive := cfg_caseSensitive route;
     cfg_pathToRegexpOptions := cfg_pathToRegexpOptions route |}.

Definition aliased (alias : string) (route : RouteConfig) : RouteConfig :=
  {| cfg_path := cfg_path route; cfg_name := cfg_name route;
     cfg_component := cfg_component route;
     cfg_components := cfg_components route; cfg_redirect := cfg_redirect route;
     cfg_alias := Some (AliasOne alias); cfg_children := cfg_children route;
     cfg_beforeEnter := cfg_beforeEnter route; cfg_meta := cfg_meta route;
     cfg_props := cfg_props route; cfg_caseSensitive := cfg_caseSensitive route;
     cfg_pathToRegexpOptions := cfg_pathToRegexpOptions route |}.

Definition sampleTable (routes : list RouteConfig) : RouteMap :=
  createMatcher true sampleCleanPath sampleRegexp routes.

(** [match] of a matcher over the stand-ins, in a production build. *)
Definition sampleMatch (routes : list RouteConfig) (fuel : nat)
    (raw : RawLocation) (current : option Route) : result Route :=
  match_ true false sampleNormalizeLocation sampleFillParams
         sampleResolvePath sampleDecode sampleStringifyQuery sampleCallRedirect
         (sampleTable routes) fuel raw current None.

(** The same on a table as [addRoutes] left it. *)
Definition sampleMatchOn (table : RouteMap) (fuel : nat)
    (raw : RawLocation) (current : option Route) : result Route :=
  match_ true false sampleNormalizeLocation sampleFillParams
         sampleResolvePath sampleDecode sampleStringifyQuery sampleCallRedirect
         table fuel raw current None.

Definition locationNamed (name : string) (params : option Params) : Location :=
  {| loc_normalized := false; loc_name := Some name; loc_path := None;
     loc_hash := None; loc_query := None; loc_params := params;
     loc_replace := false |}.

(** A table with a named route of two required params, and a current
    route on it. *)
Definition userRoutes : list RouteConfig :=
  [named "user" (routeAt "/user/:id/:tab")].

Definition userRecord : RouteRecord :=
  newRecord sampleCleanPath sampleRegexp
            (named "user" (routeAt "/user/:id/:tab")) None None.

Definition userCurrent : Route :=
  {| r_name := Some "user"; r_meta := []; r_path := "/user/42/posts";
     r_hash := ""; r_query := [];
     r_params := {[ "id" := Some "42"; "tab" := Some "posts";
                    "extra" := Some "x" ]};
     r_fullPath := "/user/42/posts"; r_matched := [userRecord];
     r_redirectedFrom := None |}.

(** Two redirects in a row that end at a plain record, two that end at an
    alias, and a redirect to itself. *)
Definition homeRoutes : list RouteConfig :=
  [redirecting "/b" (routeAt "/a"); redirecting "/home" (routeAt "/b");
   routeAt "/home"].

Definition aliasRoutes : list RouteConfig :=
  [redirecting "/b" (routeAt "/a"); redirecting "/d" (routeAt "/b");
   aliased "/d" (routeAt "/c")].

Definition loopRoutes : list RouteConfig :=
  [redirecting "/loop" (routeAt "/loop")].

Definition locationAt (path : string) : Location :=
  {| loc_normalized := true; loc_name := None; loc_path := Some path;
     loc_hash := None; loc_query := None; loc_params := Some ∅;
     loc_replace := false |}.

(** The raw location that a redirect to a path hands to [match]. *)
Definition redirectedTo (path : string) : RawLocation :=
  RawObject {| loc_normalized := true; loc_name := None; loc_path := Some path;
               loc_hash := None; loc_query := None; loc_params := None;
               loc_replace := false |}.

(** The record that the table of [homeRoutes] maps a path to. *)
Definition homeRecord (path : string) : RouteRecord :=
  default userRecord (pathMap (sampleTable homeRoutes) !! path).

(** The record that the table of [loopRoutes] maps its path to. *)
Definition loopRecord : RouteRecord :=
  default userRecord (pathMap (sampleTable loopRoutes) !! "/loop").

(** A route whose redirect is the function that throws. *)
Definition throwingRoutes : list RouteConfig :=
  [{| cfg_path := "/thrower"; cfg_name := None; cfg_component := None;
      cfg_components := None; cfg_redirect := Some (RedirectFunction 1);
      cfg_alias := None; cfg_children := None; cfg_beforeEnter := None;
      cfg_meta := None; cfg_props := None; cfg_caseSensitive := None;
      cfg_pathToRegexpOptions := None |}].

(** A named route whose required param has a name that every object
    inherits, and a current route on it. *)
Definition thingRoutes : list RouteConfig :=
  [named "thing" (routeAt "/thing/:constructor")].

Definition thingRecord : RouteRecord :=
  newRecord sampleCleanPath sampleRegexp
            (named "thing" (routeAt "/thing/:constructor")) None None.

Definition thingCurrent : Route :=
  {| r_name := Some "thing"; r_meta := []; r_path := "/thing/42";
     r_hash := ""; r_query := [];
     r_params := {[ "constructor" := Some "42" ]};
     r_fullPath := "/thing/42"; r_matched := [thingRecord];
     r_redirectedFrom := None |}.

(** A named record with a required and an optional param, as the pattern
    compiler gives it for [/profile/:id/:tab?], and a table that has it. *)
Definition profileRecord : RouteRecord :=
  {| rec_path := "/profile/:id/:tab?";
     rec_regex :=
       {| exec := fun _ => None;
          keys := [{| key_name := KStr "id"; key_optional := false |};
                   {| key_name := KStr "tab"; key_optional := true |}] |};
     rec_components := [("default", None)]; rec_name := Some "profile";
     rec_parent := None; rec_matchAs := None; rec_redirect := None;
     rec_beforeEnter := None; rec_meta := []; rec_props := PropsObject [] |}.

Definition profileTable : RouteMap :=
  {| pathList := ["/profile/:id/:tab?"];
     pathMap := {[ "/profile/:id/:tab?" := profileRecord ]};
     nameMap := {[ "profile" := profileRecord ]} |}.

(** A redirect to a path that is registered later. *)
Definition earlyRoutes : list RouteConfig := [redirecting "/b" (routeAt "/a")].

Definition lateRoutes : list RouteConfig := [routeAt "/b"].

(** A redirect by name to a route that nobody registered. *)
Definition ghostRoutes : list RouteConfig :=
  [{| cfg_path := "/old"; cfg_name := None; cfg_component := None;
      cfg_components := None;
      cfg_redirect :=
        Some (RedirectStatic
                (RedirectObject {| re_name := Some "ghost"; re_path := None;
                                   re_query := None; re_hash := None;
                                   re_params := None |}));
      cfg_alias := None; cfg_children := None; cfg_beforeEnter := None;
      cfg_meta := None; cfg_props := None; cfg_caseSensitive := None;
      cfg_pathToRegexpOptions := None |}].

Definition ghostRecord : RouteRecord :=
  default userRecord (pathMap (sampleTable ghostRoutes) !! "/old").

(** The records that the table of [aliasRoutes] maps a path to. *)
Definition aliasRecord (path : string) : RouteRecord :=
  default userRecord (pathMap (sampleTable aliasRoutes) !! path).

(** A route with nested routes. *)
Definition withChildren (children : list RouteConfig) (route : RouteConfig)
    : RouteConfig :=
  {| cfg_path := cfg_path route; cfg_name := cfg_name route;
     cfg_component := cfg_component route;
     cfg_components := cfg_components route; cfg_redirect := cfg_redirect route;
     cfg_alias := cfg_alias route; cfg_children := Some children;
     cfg_beforeEnter := cfg_beforeEnter route; cfg_meta := cfg_meta route;
     cfg_props := cfg_props route; cfg_caseSensitive := cfg_caseSensitive route;
     cfg_pathToRegexpOptions := cfg_pathToRegexpOptions route |}.

Definition nestedRoute : RouteConfig :=
  withChildren [routeAt "list"; routeAt "detail"] (routeAt "/shop").

(** The children of a route registered under its record: the recursive
    calls of [addRouteRecord] in [route.children.forEach]. *)
Definition registerChildren (production : bool) (cleanPath : string -> string)
    (Regexp : string -> PathToRegexpOptions -> RouteRegExp)
    (st : RouteMap) (children : option (list RouteConfig))
    (record : RouteRecord) (matchAs : option string) : RouteMap :=
  match children with
  | Some children =>
      fold_left (fun st child =>
                   addRouteRecord production cleanPath Regexp st child
                     (Some record) (childMatchAs cleanPath matchAs child))
                children st
  | None => st
  end.

(** The path list has no path twice and lists the mapped paths, no other;
    a named record is kept under its own name, which is not empty. *)
Definition tidy (st : RouteMap) : Prop :=
  NoDup (pathList st)
  ∧ (∀ p, p ∈ pathList st ↔ is_Some (pathMap st !! p))
  ∧ (∀ n r, nameMap st !! n = Some r → rec_name r = Some n ∧ n ≠ "").

(** A table whose wildcard was registered first, and a table with routes
    added to it: one at a path that is taken, one at a new path. *)
Definition wildRoutes : list RouteConfig := [routeAt "*"; routeAt "/a"].

Definition firstRoutes : list RouteConfig := [named "first" (routeAt "/a")].

Definition moreRoutes : list RouteConfig :=
  [named "second" (routeAt "/a"); routeAt "/b"].

(** ** Vocabulary of the statements about the history *)

(** The navigation that a guard in flight belongs to: the identity of its
    target route object. *)
Definition sid (s : Suspended) : nat := oid (t_route (s_transition s)).

Definition pendingIs (a : nat) (h : History) : Prop :=
  ∃ p, pending h = Some p ∧ oid p = a.

(** The guards called for the navigation to the route object [a], in the
    order of the calls. *)
Definition guardCalls (a : nat) (events : list Event) : list NavigationGuard :=
  omap (fun e => match e with
                 | EvGuard hook to _ => if decide (oid to = a) then Some hook else None
                 | _ => None
                 end) events.

(** The calls that tell of a commit to the route object [a]: the listener,
    the after hooks, the caller's completion and the URL it writes, the
    ready callbacks and the deferred callbacks of enter guards. *)
Definition commitsTo (a : nat) (e : Event) : bool :=
  match e with
  | EvListener _ r | EvAfterHook _ r _ | EvOnComplete _ r
  | EvPushState r | EvReplaceState r | EvReadyCb _ (Some r)
  | EvNextTick r _ => bool_decide (oid r = a)
  | _ => false
  end.

Definition commits (a : nat) (events : list Event) : list Event :=
  filter (fun e => commitsTo a e = true) events.

(** The calls that [abort] makes. *)
Definition abortCalls (t : Transition) (err : Value) (h : History) : list Event :=
  (if negb (isNavigationDuplicated err) && isError err then
     match errorCbs h with
     | [] => [EvUncaughtError err]
     | cbs => (fun f => EvErrorCb f err) <$> cbs
     end
   else [])
  ++ ((fun f => EvOnAbort f err) <$> option_list (t_onAbort t))
  ++ (if truthyValue err && negb (ready h)
      then (fun f => EvReadyErrorCb f err) <$> readyErrorCbs h else []).

(** The calls that the completion closure of [transitionTo] makes. *)
Definition completeCalls (t : Transition) (h : History) : list Event :=
  ((fun f => EvListener f (t_route t)) <$> option_list (cb h))
  ++ ((fun hook => EvAfterHook hook (t_route t) (current h)) <$> afterHooks (router h))
  ++ match t_onComplete t with
     | None => []
     | Some (CompleteFn f) => [EvOnComplete f (t_route t)]
     | Some (CompletePush f) =>
         EvPushState (t_route t)
         :: ((fun f => EvOnComplete f (t_route t)) <$> option_list f)
     | Some (CompleteReplace f) =>
         EvReplaceState (t_route t)
         :: ((fun f => EvOnComplete f (t_route t)) <$> option_list f)
     end
  ++ [EvEnsureURL false]
  ++ (if ready h then []
      else (fun f => EvReadyCb f (Some (t_route t))) <$> readyCbs h).

(** The guards of a queue, without its empty slots. *)
Definition guardsOf (queue : list (option NavigationGuard)) : list NavigationGuard :=
  omap id queue.

(** The histories that inputs can lead to. *)
Definition reachable (router_match : RawLocation -> RouteObject -> result Route)
    (sameRecord : RouteRecord -> RouteRecord -> bool)
    (isSameRoute : RouteObject -> RouteObject -> bool)
    (extractGuard : option Component -> string -> GuardOption)
    (h : History) : Prop :=
  ∃ (router : VueRouter) (START : Route) (inputs : list Input),
    h = run router_match sameRecord isSameRoute extractGuard
            (newHistory router START) inputs.

(** What holds in every history that inputs lead to: route objects are
    older than the next one to come, no navigation has two guards in flight,
    the current route has none, and a pending navigation with a guard in
    flight started from the current route. *)
Definition wellFormed (h : History) : Prop :=
  oid (current h) < nextId h
  ∧ (∀ s, s ∈ suspended h → sid s < nextId h)
  ∧ NoDup (sid <$> suspended h)
  ∧ (oid (current h) ∉ (sid <$> suspended h))
  ∧ (∀ s, s ∈ suspended h → pendingIs (sid s) h →
          t_current (s_transition s) = current h).

(** The closures of [t] may run: what [wellFormed] says of a guard in
    flight holds of [t], which has none. *)
Definition active (t : Transition) (h : History) : Prop :=
  oid (t_route t) < nextId h
  ∧ (oid (t_route t) ∉ (sid <$> suspended h))
  ∧ oid (t_route t) ≠ oid (current h)
  ∧ (pendingIs (oid (t_route t)) h → t_current t = current h).

(** The navigation to [a] cannot commit any more: [a] is not a route object
    to come, it is not the current route, and if it is pending then it has
    no guard in flight. *)
Definition spent (a : nat) (h : History) : Prop :=
  a < nextId h
  ∧ oid (current h) ≠ a
  ∧ (pendingIs a h → a ∉ (sid <$> suspended h)).

(** What a call leaves as it was when it only reports: everything but the
    trace and the ready flag. *)
Definition sameCore (h h' : History) : Prop :=
  current h' = current h ∧ pending h' = pending h
  ∧ suspended h' = suspended h ∧ nextId h' = nextId h
  ∧ router h' = router h ∧ instances h' = instances h.

(** From [h] to [h'] the navigation to [a] stays unable to commit, and no
    call tells of a commit to it. *)
Definition staysSpent (a : nat) (h h' : History) : Prop :=
  spent a h' ∧ commits a (trace h') = commits a (trace h).

(** From [h] to [h'] no guard was called for the navigation to [a], and no
    guard of it came in flight. *)
Definition neutral (a : nat) (h h' : History) : Prop :=
  guardCalls a (trace h') = guardCalls a (trace h)
  ∧ ∃ added, suspended h' = suspended h ++ added
             ∧ Forall (fun s => sid s ≠ a) added.

(** Where a navigation stands in its first queue [queue], given the guards
    [called] for it so far: in the first queue with [rest] to go, what was
    called and what is to go make up the queue; in the second queue, the
    whole first queue was called. *)
Definition position (queue called : list NavigationGuard) (stage : Stage)
    (rest : list (option NavigationGuard)) : Prop :=
  match stage with
  | FirstQueue => called ++ guardsOf rest = queue
  | SecondQueue => queue `prefix_of` called
  end.

(** The guards called for the navigation to [a] since the calls [before]
    follow its first queue [queue], and its guard in flight, if any, stands
    where they say. *)
Definition ordered (a : nat) (before queue : list NavigationGuard)
    (h : History) : Prop :=
  ∃ called,
    guardCalls a (trace h) = before ++ called
    ∧ (called `prefix_of` queue ∨ queue `prefix_of` called)
    ∧ ∀ s, s ∈ suspended h → sid s = a →
           position queue called (s_stage s) (s_rest s).

(** The route object that [transitionTo] makes of the route that [match]
    returned. *)
Definition candidate (route : Route) (h : History) : RouteObject :=
  {| oid := nextId h; val := route |}.

(** The guards of a guard option, in the order of the array. *)
Definition guardList (o : GuardOption) : list Fn :=
  match o with
  | NoGuard => []
  | OneGuard guard => [guard]
  | GuardArray guards => guards
  end.

(** The specification's words for the in-component guards: the guards that
    the component of a view has under a guard name, each bound to the
    instance rendered in the view; a view without an instance gives none. *)
Definition viewGuards (extractGuard : option Component -> string -> GuardOption)
    (instances : RouteRecord -> string -> option Instance) (name : string)
    (m : RouteRecord) (view : string * option Component) : list NavigationGuard :=
  match instances m view.1 with
  | Some i => (fun guard => BoundRouteGuard guard i) <$> guardList (extractGuard view.2 name)
  | None => []
  end.

(** The specification's words for stage (a) of the queue: the leave guards
    of the records, last record first and, in a record, last view first. *)
Fixpoint leaveGuardsInReverse
    (extractGuard : option Component -> string -> GuardOption)
    (instances : RouteRecord -> string -> option Instance)
    (records : list RouteRecord) : list NavigationGuard :=
  match records with
  | [] => []
  | m :: records =>
      leaveGuardsInReverse extractGuard instances records
      ++ (reverse (rec_components m)
            ≫= viewGuards extractGuard instances "beforeRouteLeave" m)
  end.

(** The specification's words for stage (c) of the queue: the update hooks
    of the records, first record first. *)
Fixpoint updateHooksInOrder
    (extractGuard : option Component -> string -> GuardOption)
    (instances : RouteRecord -> string -> option Instance)
    (records : list RouteRecord) : list NavigationGuard :=
  match records with
  | [] => []
  | m :: records =>
      (rec_components m ≫= viewGuards extractGuard instances "beforeRouteUpdate" m)
      ++ updateHooksInOrder extractGuard instances records
  end.

(** No call tells of a commit to a route object that is still to come or
    that has a guard in flight. *)
Definition uncommitted (h : History) : Prop :=
  ∀ a, (nextId h ≤ a)%nat ∨ a ∈ (sid <$> suspended h) →
       commits a (trace h) = [].

(** ** Stand-ins for what the history works with *)

(** A table of four views, one with a [beforeEnter] guard and one with a
    param. *)
Definition guardedBy (guard : Fn) (route : RouteConfig) : RouteConfig :=
  {| cfg_path := cfg_path route; cfg_name := cfg_name route;
     cfg_component := cfg_component route;
     cfg_components := cfg_components route; cfg_redirect := cfg_redirect route;
     cfg_alias := cfg_alias route; cfg_children := cfg_children route;
     cfg_beforeEnter := Some guard; cfg_meta := cfg_meta route;
     cfg_props := cfg_props route; cfg_caseSensitive := cfg_caseSensitive route;
     cfg_pathToRegexpOptions := cfg_pathToRegexpOptions route |}.

Definition viewRoutes : list RouteConfig :=
  [routeAt "/home"; guardedBy 5 (routeAt "/a"); routeAt "/b";
   routeAt "/user/:id"].

(** The route that a history starts from: no record is matched. *)
Definition sampleSTART : Route :=
  {| r_name := None; r_meta := []; r_path := "/"; r_hash := ""; r_query := [];
     r_params := ∅; r_fullPath := "/"; r_matched := [];
     r_redirectedFrom := None |}.

(** [router.match] over the table of [viewRoutes]. *)
Definition sampleRouterMatch (raw : RawLocation) (current : RouteObject)
    : result Route :=
  sampleMatch viewRoutes 4 raw (Some (val current)).

(** The route that it returns from a history, for the locations of the
    examples, which all have one. *)
Definition sampleRoute (raw : RawLocation) (h : History) : Route :=
  match sampleRouterMatch raw (current h) with
  | Ok route => route
  | Throw _ => sampleSTART
  end.

(** The records of a table differ in their paths. *)
Definition sampleSameRecord (a b : RouteRecord) : bool :=
  bool_decide (rec_path a = rec_path b).

(** The start route, which is route object 0, is the same as itself only;
    other routes are the same when their path and hash are. *)
Definition sampleIsSameRoute (a b : RouteObject) : bool :=
  if bool_decide (oid b = 0) then bool_decide (oid a = 0)
  else bool_decide (r_path (val a) = r_path (val b))
       && bool_decide (r_hash (val a) = r_hash (val b)).

(** No component has guards of its own. *)
Definition sampleExtractGuard (def : option Component) (name : string)
    : GuardOption := NoGuard.

Definition sampleStep : History -> Input -> History :=
  step sampleRouterMatch sampleSameRecord sampleIsSameRoute sampleExtractGuard.

Definition sampleRun : History -> list Input -> History :=
  run sampleRouterMatch sampleSameRecord sampleIsSameRoute sampleExtractGuard.

(** A router with one global before hook, and its history. *)
Definition sampleRouter : VueRouter :=
  {| app := false; beforeHooks := [7]; resolveHooks := []; afterHooks := [] |}.

Definition sampleHistory : History := newHistory sampleRouter sampleSTART.

(** The history once a navigation to [/home] went through its three guards:
    the before hook and the resolution of components in the first queue. *)
Definition atHome : History :=
  sampleRun sampleHistory
    [CallTransitionTo (RawString "/home") None None;
     GuardNext 1 VUndefined; GuardNext 1 VUndefined].

(** From there, a navigation to [/a] that waits in the before hook. *)
Definition leavingHome : History :=
  sampleStep atHome (CallTransitionTo (RawString "/a") (Some 11) (Some 12)).

(** The guard in flight of that navigation: the before hook holds the rest
    of the first queue. *)
Definition toA : Transition :=
  {| t_route := candidate (sampleRoute (RawString "/a") atHome) atHome;
     t_current := current atHome;
     t_onComplete := Some (CompleteFn 11); t_onAbort := Some 12;
     t_activated := r_matched (sampleRoute (RawString "/a") atHome) |}.

Definition waiting : Suspended :=
  {| s_transition := toA; s_stage := FirstQueue; s_hook := HookFn 7;
     s_rest := [Some (HookFn 5);
                Some (ResolveAsyncComponents (t_activated toA))];
     s_postEnterCbs := [] |}.

(** A route with a component. *)
Definition withComponent (c : Component) (route : RouteConfig) : RouteConfig :=
  {| cfg_path := cfg_path route; cfg_name := cfg_name route;
     cfg_component := Some c;
     cfg_components := cfg_components route; cfg_redirect := cfg_redirect route;
     cfg_alias := cfg_alias route; cfg_children := cfg_children route;
     cfg_beforeEnter := cfg_beforeEnter route; cfg_meta := cfg_meta route;
     cfg_props := cfg_props route; cfg_caseSensitive := cfg_caseSensitive route;
     cfg_pathToRegexpOptions := cfg_pathToRegexpOptions route |}.

(** A shop with a list of items and a detail view, each with a component:
    [/shop] has component 1, [/shop/list] component 2, [/shop/list/item]
    component 3 and [/shop/detail] component 4 and a [beforeEnter] guard. *)
Definition shopRoutes : list RouteConfig :=
  [withChildren
     [withChildren [withComponent 3 (routeAt "item")]
        (withComponent 2 (routeAt "list"));
      guardedBy 6 (withComponent 4 (routeAt "detail"))]
     (withComponent 1 (routeAt "/shop"))].

Definition shopRecord (path : string) : RouteRecord :=
  default userRecord (pathMap (sampleTable shopRoutes) !! path).

Definition shopRouterMatch (raw : RawLocation) (current : RouteObject)
    : result Route :=
  sampleMatch shopRoutes 4 raw (Some (val current)).

(** The guards of the components: component 1 has an update hook and a leave
    guard, component 2 two leave guards, component 3 a leave guard, and
    component 4 an enter guard. *)
Definition shopExtractGuard (def : option Component) (name : string)
    : GuardOption :=
  match def with
  | Some 1 => if decide (name = "beforeRouteUpdate") then OneGuard 10
              else if decide (name = "beforeRouteLeave") then OneGuard 11
              else NoGuard
  | Some 2 => if decide (name = "beforeRouteLeave") then GuardArray [21; 22]
              else NoGuard
  | Some 3 => if decide (name = "beforeRouteLeave") then OneGuard 31 else NoGuard
  | Some 4 => if decide (name = "beforeRouteEnter") then OneGuard 41 else NoGuard
  | _ => NoGuard
  end.

(** The instances rendered at [/shop/list/item]. *)
Definition shopInstances (m : RouteRecord) (key : string) : option Instance :=
  if decide (key = "default") then
    if decide (rec_path m = "/shop") then Some 100
    else if decide (rec_path m = "/shop/list") then Some 200
    else if decide (rec_path m = "/shop/list/item") then Some 300
    else None
  else None.

Definition shopRun : History -> list Input -> History :=
  run shopRouterMatch sampleSameRecord sampleIsSameRoute shopExtractGuard.

(** The history once a navigation to [/shop/list/item] went through and its
    views are rendered. *)
Definition atItem : History :=
  shopRun sampleHistory
    [CallTransitionTo (RawString "/shop/list/item") None None;
     GuardNext 1 VUndefined; GuardNext 1 VUndefined; Render shopInstances].

(** The route that [match] returns there for [/shop/detail]. *)
Definition detailRoute : Route :=
  match shopRouterMatch (RawString "/shop/detail") (current atItem) with
  | Ok route => route
  | Throw _ => sampleSTART
  end.

(** The calls of the callbacks that wait for the history to be ready: a
    ready callback called with a route, a ready-error callback. *)
Definition readyCall (e : Event) : bool :=
  match e with
  | EvReadyCb _ (Some _) | EvReadyErrorCb _ _ => true
  | _ => false
  end.

Definition readyCalls (events : list Event) : list Event :=
  filter (fun e => readyCall e = true) events.

(** ** history/base.js: the base of the URLs *)

(** [base.replace(/^https?:\/\/[^\/]+/, '')]: a leading [http://] or
    [https://] goes with the run of characters other than a slash that
    follows it, when there is at least one. *)
Fixpoint dropNonSlash (s : string) : string :=
  match s with
  | "" => ""
  | String c rest => if decide (c = "/"%char) then s else dropNonSlash rest
  end.

Fixpoint dropPrefix (prefix s : string) : option string :=
  match prefix, s with
  | "", _ => Some s
  | String c prefix, String d s =>
      if decide (c = d) then dropPrefix prefix s else None
  | String _ _, "" => None
  end.

Definition stripOrigin (base : string) : string :=
  let host :=
    match dropPrefix "https://" base with
    | Some rest => Some rest
    | None => dropPrefix "http://" base
    end in
  match host with
  | Some (String c rest) =>
      if decide (c = "/"%char) then base else dropNonSlash rest
  | _ => base
  end.

(** [normalizeBase]: [baseHref] is what [baseEl && baseEl.getAttribute('href')]
    gives, if the document has a base element with that attribute. *)
Definition normalizeBase (inBrowser : bool) (baseHref : option string)
    (base : option string) : string :=
  let base :=
    if truthy base then default "" base
    else if inBrowser then stripOrigin (or_else baseHref "/")
    else "/" in
  let base := if startsWithSlash base then base else "/" +:+ base in
  stripTrailingSlash base.

(** ** history/html5.js and history/hash.js: reading and writing the URL *)

(** [s.indexOf(c)] for a one-character [c]: the first index, if there is
    one. *)
Fixpoint indexOfChar (c : ascii) (s : string) : option nat :=
  match s with
  | "" => None
  | String d s => if decide (d = c) then Some 0 else S <$> indexOfChar c s
  end.

(** [s.slice(n)] and [s.slice(0, n)] *)
Fixpoint sliceFrom (n : nat) (s : string) : string :=
  match n, s with
  | 0, _ => s
  | S n, String _ s => sliceFrom n s
  | S _, "" => ""
  end.

Fixpoint sliceTo (n : nat) (s : string) : string :=
  match n, s with
  | 0, _ => ""
  | S n, String c s => String c (sliceTo n s)
  | S _, "" => ""
  end.

(** What a history asks the browser to put in the address bar:
    [history.pushState], [history.replaceState], [location.hash = ...] and
    [location.replace(...)]. *)
Inductive UrlWrite :=
| PushState (url : string)
| ReplaceState (url : string)
| SetHash (path : string)
| LocationReplace (url : string).

Section BrowserHistory.

(** The built-in [decodeURI]; [None] is its [URIError]. *)
Variable decodeURI : string -> option string.
Variable supportsPushState : bool.

(** [getLocation] of html5.js, on [window.location.pathname], [.search]
    and [.hash]; [path.indexOf(base) === 0] says that [base] starts [path]. *)
Definition getLocation (pathname search hash : string) (base : string)
    : result string :=
  match decodeURI pathname with
  | None => Throw URIError
  | Some path =>
      let path :=
        if truthy (Some base) && String.prefix base path
        then sliceFrom (String.length base) path else path in
      Ok (or_else (Some path) "/" +:+ search +:+ hash)
  end.

(** [getHash], on [window.location.href] *)
Definition getHash (href : string) : result string :=
  match indexOfChar "#" href with
  | None => Ok ""
  | Some index =>
      let href := sliceFrom (index + 1) href in
      match indexOfChar "?" href with
      | None =>
          match indexOfChar "#" href with
          | Some hashIndex =>
              match decodeURI (sliceTo hashIndex href) with
              | Some decoded => Ok (decoded +:+ sliceFrom hashIndex href)
              | None => Throw URIError
              end
          | None =>
              match decodeURI href with
              | Some decoded => Ok decoded
              | None => Throw URIError
              end
          end
      | Some searchIndex =>
          match decodeURI (sliceTo searchIndex href) with
          | Some decoded => Ok (decoded +:+ sliceFrom searchIndex href)
          | None => Throw URIError
          end
      end
  end.

(** [getUrl] *)
Definition getUrl (href path : string) : string :=
  let base :=
    match indexOfChar "#" href with
    | Some i => sliceTo i href
    | None => href
    end in
  base +:+ "#" +:+ path.

(** [pushHash] and [replaceHash] *)
Definition pushHash (href path : string) : UrlWrite :=
  if supportsPushState then PushState (getUrl href path) else SetHash path.

Definition replaceHash (href path : string) : UrlWrite :=
  if supportsPushState then ReplaceState (getUrl href path)
  else LocationReplace (getUrl href path).

(** [ensureSlash]: what it returns, and what it asks the browser for. *)
Definition ensureSlash (href : string) : result (bool * option UrlWrite) :=
  path ← getHash href;
  if startsWithSlash path then Ok (true, None)
  else Ok (false, Some (replaceHash href ("/" +:+ path))).

(** [ensureURL] of the hash history, for a current route of that full
    path. *)
Definition hashEnsureURL (href fullPath : string) (push : bool)
    : result (option UrlWrite) :=
  hash ← getHash href;
  if decide (hash = fullPath) then Ok None
  else Ok (Some (if push then pushHash href fullPath
                 else replaceHash href fullPath)).

End BrowserHistory.

(** ** components/view.js *)

(** [data.registerRouteInstance] of a view named [name], on the [instances]
    object of the matched record; [val] is absent when an instance
    unregisters. *)
Definition registerRouteInstance (name : string) (vm : Instance)
    (val : option Instance) (instances : gmap string (option Instance))
    : gmap string (option Instance) :=
  let current := instances !! name ≫= id in
  if (bool_decide (is_Some val) && negb (bool_decide (current = Some vm)))
     || (negb (bool_decide (is_Some val)) && bool_decide (current = Some vm))
  then <[name := val]> instances
  else instances.

(** The instance that a record has for a view: [instances[name]]. *)
Definition instanceOf (instances : gmap string (option Instance))
    (name : string) : option Instance :=
  instances !! name ≫= id.

(** A value passed to a component as a prop or as an attribute: a param of
    the route, a value of the [props] object of the route configuration, or
    any other value. *)
Inductive PropVal :=
| PropParam (v : option string)
| PropConfig (v : PropsValue)
| PropOther (n : nat).

(** [resolveProps]; [callProps] is what a function given as [props] returns
    for a route. *)
Definition resolveProps (callProps : Fn -> Route -> option (gmap string PropVal))
    (route : Route) (config : option PropsValue)
    : option (gmap string PropVal) :=
  match config with
  | None => None
  | Some (PropsObject l) =>
      Some (fold_left (fun o kv => <[kv.1 := PropConfig kv.2]> o) l ∅)
  | Some (PropsFunction f) => callProps f route
  | Some (PropsBool b) =>
      if b then Some (PropParam <$> r_params route) else None
  end.

Record ViewData := mkViewData {
  d_props : option (gmap string PropVal);
  d_attrs : option (gmap string PropVal) }.

(** [fillPropsinData]: [declared] holds the keys of [component.props], the
    props that the component declares, if it declares any.  The props that it does not
    declare are moved to the attributes.  ([extend] of util/misc copies the
    properties of an object; a map needs no copy.) *)
Definition fillPropsinData
    (callProps : Fn -> Route -> option (gmap string PropVal))
    (declared : option (gset string)) (data : ViewData) (route : Route)
    (configProps : option PropsValue) : ViewData :=
  match resolveProps callProps route configProps with
  | None => {| d_props := None; d_attrs := d_attrs data |}
  | Some propsToPass =>
      let attrs := default ∅ (d_attrs data) in
      let moved :=
        map_fold (fun key value (acc : gmap string PropVal * gmap string PropVal) =>
                    if match declared with
                       | None => true
                       | Some names => negb (bool_decide (key ∈ names))
                       end
                    then (delete key acc.1, <[key := value]> acc.2)
                    else acc)
                 (propsToPass, attrs) propsToPass in
      {| d_props := Some moved.1; d_attrs := Some moved.2 |}
  end.

(** [component.props && key in component.props]: the component declares
    a prop of that name. *)
Definition isDeclared (declared : option (gset string)) (key : string) : bool :=
  match declared with
  | None => false
  | Some names => bool_decide (key ∈ names)
  end.

(** ** index.js: the constructor and the applications *)

(** The [mode] and the [fallback] flag that the constructor settles on. *)
Definition selectMode (mode : option string) (fallback : option bool)
    (supportsPushState inBrowser : bool) : string * bool :=
  let mode := or_else mode "hash" in
  let fallback :=
    bool_decide (mode = "history") && negb supportsPushState
    && negb (bool_decide (fallback = Some false)) in
  let mode := if fallback then "hash" else mode in
  let mode := if inBrowser then mode else "abstract" in
  (mode, fallback).

Inductive HistoryKind := HTML5History | HashHistory | AbstractHistory.

(** The [switch] of the constructor.  For an unknown mode a production
    build leaves the router without a history; any other build calls
    [assert(false, `invalid mode: ${mode}`)]. *)
Definition historyFor (production assertRaises : bool) (mode : string)
    : result (option HistoryKind) :=
  if decide (mode = "history") then Ok (Some HTML5History)
  else if decide (mode = "hash") then Ok (Some HashHistory)
  else if decide (mode = "abstract") then Ok (Some AbstractHistory)
  else match (if production then None
              else assert assertRaises false ("invalid mode: " +:+ mode)) with
       | Some e => Throw e
       | None => Ok None
       end.

(** [this.app] and [this.apps]. *)
Record Apps := mkApps { mainApp : option Instance; liveApps : list Instance }.

(** [init(app)], as far as the applications go: the state after the call,
    and whether the call went on to set up the history (it returns before
    when there is a main application already). *)
Definition initApp (a : Instance) (st : Apps) : Apps * bool :=
  let apps := liveApps st ++ [a] in
  match mainApp st with
  | Some _ => ({| mainApp := mainApp st; liveApps := apps |}, false)
  | None => ({| mainApp := Some a; liveApps := apps |}, true)
  end.

(** The handler of [hook:destroyed] that [init(app)] registers. *)
Definition appDestroyed (a : Instance) (st : Apps) : Apps :=
  let index := indexOf (liveApps st) a in
  let apps :=
    if decide (-1 < index)%Z then delete (Z.to_nat index) (liveApps st)
    else liveApps st in
  {| mainApp := if decide (mainApp st = Some a) then head apps else mainApp st;
     liveApps := apps |}.

(** What happens to the applications of a router. *)
Inductive AppEvent :=
| AppInit (a : Instance)
| AppDestroyed (a : Instance).

Definition appStep (st : Apps) (e : AppEvent) : Apps :=
  match e with
  | AppInit a => (initApp a st).1
  | AppDestroyed a => appDestroyed a st
  end.

(** [new VueRouter(...)]: no application yet. *)
Definition noApps : Apps := {| mainApp := None; liveApps := [] |}.

(** What [this.app] and [this.apps] keep between the calls: the main
    application is one of the applications, and there is none only if there
    is no application. *)
Definition appsKept (st : Apps) : Prop :=
  match mainApp st with
  | Some a => a ∈ liveApps st
  | None => liveApps st = []
  end.

(** A stand-in for [decodeURI] that has no escape to decode: it gives a
    string without [%] back, and raises for the others. *)
Definition decodePlain (s : string) : option string :=
  match indexOfChar "%" s with
  | None => Some s
  | Some _ => None
  end.

(** Projections and updates of the history, unfolded one layer at a time. *)
Ltac fields :=
  cbn [Router.router Router.current Router.pending Router.cb Router.ready Router.readyCbs
       Router.readyErrorCbs Router.errorCbs Router.instances Router.suspended
       Router.nextId Router.trace
       emit setReady setPending setCurrent setSuspended setNextId setRouter
       setInstances ensureURL updateRoute listen onError
       t_route t_current t_onComplete t_onAbort t_activated oid val sid
       s_transition s_stage s_hook s_rest s_postEnterCbs] in *.

End Router.
Import Router.

(** * index.js: facts *)

Lemma indexOf_absent (hooks : list Fn) (fn : Fn) :
  fn ∉ hooks → indexOf hooks fn = (-1)%Z.
Proof.
  induction hooks as [|x hooks IH]; intros Hnot; [done|].
  apply not_elem_of_cons in Hnot as [Hne Hnot]. simpl.
  destruct (decide (x = fn)) as [->|_]; [done|].
  rewrite (IH Hnot). by destruct (decide _).
Qed.

Lemma indexOf_first (l1 l2 : list Fn) (fn : Fn) :
  fn ∉ l1 → indexOf (l1 ++ fn :: l2) fn = Z.of_nat (length l1).
Proof.
  induction l1 as [|x l1 IH]; intros Hnot; simpl.
  - by destruct (decide (fn = fn)).
  - apply not_elem_of_cons in Hnot as [Hne Hnot].
    destruct (decide (x = fn)) as [->|_]; [done|].
    rewrite (IH Hnot). destruct (decide _); lia.
Qed.

Lemma unregister_first (hooks l1 l2 : list Fn) (fn : Fn) :
  fn ∉ l1 → (registerHook hooks fn).2 (l1 ++ fn :: l2) = l1 ++ l2.
Proof.
  intros Hnot. simpl. rewrite (indexOf_first _ _ _ Hnot).
  destruct (decide _) as [_|Hneg]; [|lia].
  rewrite Nat2Z.id.
  induction l1 as [|x l1 IH]; [done|]. simpl. f_equal. apply IH.
  by apply not_elem_of_cons in Hnot as [_ ?].
Qed.

Lemma unregister_absent (hooks l : list Fn) (fn : Fn) :
  fn ∉ l → (registerHook hooks fn).2 l = l.
Proof.
  intros Hnot. simpl. rewrite (indexOf_absent _ _ Hnot).
  by destruct (decide _).
Qed.


(** * create-route-map.js: facts *)

(** ** The wildcard loop *)
Lemma moveWildcards_done (pl : list string) (i l : nat) :
  ¬ i < l → moveWildcards pl i l = pl.
Proof.
  intros H. rewrite moveWildcards_equation_1.
  by destruct (decide (i < l)).
Qed.

Lemma moveWildcards_move (pl : list string) (i l : nat) :
  i < l → pl !! i = Some "*" →
  moveWildcards pl i l = moveWildcards (delete i pl ++ ["*"]) i (l - 1).
Proof.
  intros H Hi. rewrite moveWildcards_equation_1.
  destruct (decide (i < l)); [|lia]. simpl. by rewrite Hi.
Qed.

Lemma moveWildcards_skip (pl : list string) (i l : nat) (p : string) :
  i < l → pl !! i = Some p → p ≠ "*" →
  moveWildcards pl i l = moveWildcards pl (i + 1) l.
Proof.
  intros H Hi Hp. rewrite moveWildcards_equation_1.
  destruct (decide (i < l)); [|lia]. simpl. rewrite Hi. simpl.
  by destruct (decide (p = "*")).
Qed.

(** The loop invariant: the entries before [i] are settled, those from [l]
    on are the wildcards moved so far, and the window in between is split. *)
Lemma moveWildcards_window (settled window moved : list string) :
  moveWildcards (settled ++ window ++ moved) (length settled)
                (length settled + length window)
  = settled ++ filter (λ p, p ≠ "*") window
            ++ moved ++ filter (λ p, p = "*") window.
Proof.
  revert settled moved.
  induction window as [|p window IH]; intros settled moved.
  - rewrite moveWildcards_done by (simpl; lia). simpl.
    by rewrite app_nil_r.
  - assert ((settled ++ (p :: window) ++ moved) !! length settled = Some p)
      as Hi by (by rewrite lookup_app_r, Nat.sub_diag by lia).
    destruct (decide (p = "*")) as [->|Hp].
    + rewrite moveWildcards_move by (simpl; try done; lia).
      replace (delete (length settled) (settled ++ ("*" :: window) ++ moved) ++ ["*"])
        with (settled ++ window ++ (moved ++ ["*"])).
      2:{ change (("*" :: window) ++ moved) with ("*" :: (window ++ moved)).
          rewrite delete_middle. by rewrite <- !app_assoc. }
      replace (length settled + length ("*" :: window) - 1)
        with (length settled + length window) by (simpl; lia).
      rewrite IH. rewrite filter_cons_False by naive_solver.
      rewrite filter_cons_True by done. by rewrite <- !app_assoc.
    + rewrite (moveWildcards_skip _ _ _ p) by (simpl; try done; lia).
      replace (settled ++ (p :: window) ++ moved)
        with ((settled ++ [p]) ++ window ++ moved) by (by rewrite <- app_assoc).
      replace (length settled + 1) with (length (settled ++ [p]))
        by (rewrite length_app; simpl; lia).
      replace (length settled + length (p :: window))
        with (length (settled ++ [p]) + length window)
        by (rewrite length_app; simpl; lia).
      rewrite IH. rewrite filter_cons_True by done.
      rewrite filter_cons_False by done. by rewrite <- !app_assoc.
Qed.

Lemma moveWildcards_partition (pl : list string) :
  moveWildcards pl 0 (length pl)
  = filter (λ p, p ≠ "*") pl ++ filter (λ p, p = "*") pl.
Proof.
  pose proof (moveWildcards_window [] pl []) as H. simpl in H.
  by rewrite app_nil_r in H.
Qed.


Section RouteMapFacts.

Variable production : bool.
Variable cleanPath : string -> string.
Variable Regexp : string -> PathToRegexpOptions -> RouteRegExp.

Local Abbreviation addRouteRecord := (addRouteRecord production cleanPath Regexp).
Local Abbreviation createRouteMap := (createRouteMap production cleanPath Regexp).
Local Abbreviation matcherTable := (matcherTable production cleanPath Regexp).
Local Abbreviation addRoutes := (addRoutes production cleanPath Regexp).

Lemma fold_left_steps {A : Type} (R : RouteMap → RouteMap → Prop)
    (f : RouteMap → A → RouteMap) (l : list A) :
  (∀ st, R st st) → (∀ a b c, R a b → R b c → R a c) →
  (∀ st x, x ∈ l → R st (f st x)) →
  ∀ st, R st (fold_left f l st).
Proof.
  intros Hrefl Htrans. induction l as [|x l IH]; intros Hf st; simpl; [done|].
  eapply Htrans; [apply Hf; left|]. apply IH. intros. apply Hf. by right.
Qed.

(** Whatever relates a route map to itself, composes, and holds across one
    registration of a path or of a name, holds across [addRouteRecord]. *)
Lemma addRouteRecord_steps (R : RouteMap → RouteMap → Prop) :
  (∀ st, R st st) → (∀ a b c, R a b → R b c → R a c) →
  (∀ st record, R st (registerPath st record)) →
  (∀ st name record, R st (registerName st name record)) →
  ∀ route st parent matchAs, R st (addRouteRecord st route parent matchAs).
Proof.
  intros Hrefl Htrans Hpath Hname.
  fix IH 1. intros route st parent matchAs.
  destruct route as [path name component components redirect alias children
                     beforeEnter meta props caseSensitive options].
  assert (∀ st record mAs,
            R st (match children with
                  | Some cs =>
                      fold_left (λ st child,
                        addRouteRecord st child (Some record)
                          (childMatchAs cleanPath mAs child)) cs st
                  | None => st
                  end)) as Hchildren.
  { intros st' record mAs. destruct children as [cs|]; [|done].
    revert st'. induction cs as [|c cs IHcs]; intros st'; simpl; [done|].
    eapply Htrans; [apply IH|apply IHcs]. }
  cbn -[childMatchAs or_else newRecord registerPath registerName aliasRoute].
  eapply Htrans; [|apply Hname].
  eapply Htrans; [eapply Htrans; [apply Hchildren|apply Hpath]|].
  destruct alias as [a|]; [|done].
  apply fold_left_steps; [done..|]. intros st' al _.
  destruct (_ && _); [done|]. cbn [fst].
  eapply Htrans; [apply Hchildren|apply Hpath].
Qed.

Lemma createRouteMap_steps (R : RouteMap → RouteMap → Prop) :
  (∀ st, R st st) → (∀ a b c, R a b → R b c → R a c) →
  (∀ st record, R st (registerPath st record)) →
  (∀ st name record, R st (registerName st name record)) →
  ∀ routes st,
    R st (fold_left (λ st route, addRouteRecord st route None None) routes st).
Proof.
  intros Hrefl Htrans Hpath Hname routes st.
  apply fold_left_steps; [done..|]. intros. by apply addRouteRecord_steps.
Qed.





(** ** What a registration keeps *)

Lemma extends_refl (st : RouteMap) : extends st st.
Proof.
  split; [|done]. exists []. split; [by rewrite app_nil_r|].
  intros p Hp. by apply elem_of_nil in Hp.
Qed.

Lemma extends_trans (a b c : RouteMap) : extends a b → extends b c → extends a c.
Proof.
  intros [(ab & Hab & Hnew1) [Hp1 Hn1]] [(bc & Hbc & Hnew2) [Hp2 Hn2]].
  split; [|split; by etrans].
  exists (ab ++ bc). split; [by rewrite Hbc, Hab, app_assoc|].
  intros p [Hp|Hp]%elem_of_app; [by apply Hnew1|].
  specialize (Hnew2 p Hp). destruct (pathMap a !! p) as [r|] eqn:E; [|done].
  eapply lookup_weaken in E; [|exact Hp1]. congruence.
Qed.

Lemma extends_registerPath (st : RouteMap) (record : RouteRecord) :
  extends st (registerPath st record).
Proof.
  unfold registerPath. destruct (pathMap st !! rec_path record) eqn:E;
    [apply extends_refl|].
  split; [|split; [by apply insert_subseteq|done]].
  exists [rec_path record]. split; [done|].
  by intros p ->%list_elem_of_singleton.
Qed.

Lemma extends_registerName (st : RouteMap) (name : option string)
    (record : RouteRecord) :
  extends st (registerName st name record).
Proof.
  unfold registerName. destruct name as [[|c s]|]; try apply extends_refl.
  destruct (nameMap st !! String c s) eqn:E; [apply extends_refl|].
  split; [|split; [done|by apply insert_subseteq]].
  exists []. split; [by rewrite app_nil_r|].
  intros p Hp. by apply elem_of_nil in Hp.
Qed.

Lemma addRouteRecord_extends (st : RouteMap) (route : RouteConfig)
    (parent : option RouteRecord) (matchAs : option string) :
  extends st (addRouteRecord st route parent matchAs).
Proof.
  apply addRouteRecord_steps;
    [apply extends_refl | apply extends_trans
    | apply extends_registerPath | apply extends_registerName].
Qed.

Lemma consistent_registerPath (st : RouteMap) (record : RouteRecord) :
  consistent st → consistent (registerPath st record).
Proof.
  intros [Hlist Hkey]. unfold registerPath.
  destruct (pathMap st !! rec_path record) eqn:E; [done|].
  split; simpl.
  - intros p [Hp| ->%list_elem_of_singleton]%elem_of_app.
    + destruct (decide (rec_path record = p)) as [<-|Hne].
      * rewrite lookup_insert_eq. eauto.
      * rewrite lookup_insert_ne by done. auto.
    + rewrite lookup_insert_eq. eauto.
  - intros p r. destruct (decide (rec_path record = p)) as [<-|Hne].
    + rewrite lookup_insert_eq. by intros [= <-].
    + rewrite lookup_insert_ne by done. auto.
Qed.

Lemma consistent_registerName (st : RouteMap) (name : option string)
    (record : RouteRecord) :
  consistent st → consistent (registerName st name record).
Proof.
  unfold registerName. destruct name as [[|c s]|]; try done.
  by destruct (nameMap st !! String c s).
Qed.

Lemma addRouteRecord_consistent (st : RouteMap) (route : RouteConfig)
    (parent : option RouteRecord) (matchAs : option string) :
  consistent st → consistent (addRouteRecord st route parent matchAs).
Proof.
  apply (addRouteRecord_steps (λ a b, consistent a → consistent b));
    [done | by auto | apply consistent_registerPath
    | apply consistent_registerName].
Qed.



(** ** What [createRouteMap] returns *)

Lemma wildcardsLast_partition (paths : list string) :
  wildcardsLast (filter (λ p, p ≠ "*") paths ++ filter (λ p, p = "*") paths).
Proof.
  unfold wildcardsLast. rewrite !filter_app, !list_filter_filter.
  rewrite (list_filter_iff (λ p, p ≠ "*" ∧ p ≠ "*") (λ p, p ≠ "*")) by (intros; tauto).
  rewrite (list_filter_iff (λ p, p = "*" ∧ p = "*") (λ p, p = "*")) by (intros; tauto).
  assert (∀ l : list string, filter (λ p, p ≠ "*" ∧ p = "*") l = []) as ->.
  { induction l as [|x l IH]; [done|]. by rewrite filter_cons_False by (by intros [? ?]). }
  assert (∀ l : list string, filter (λ p, p = "*" ∧ p ≠ "*") l = []) as ->.
  { induction l as [|x l IH]; [done|]. by rewrite filter_cons_False by (by intros [? ?]). }
  by rewrite app_nil_r.
Qed.

Lemma createRouteMap_pathList (routes : list RouteConfig) (old : RouteMap) :
  let st := fold_left (λ st route, addRouteRecord st route None None) routes old in
  pathList (createRouteMap routes old)
  = filter (λ p, p ≠ "*") (pathList st) ++ filter (λ p, p = "*") (pathList st).
Proof. apply moveWildcards_partition. Qed.

Lemma createRouteMap_wildcardsLast (routes : list RouteConfig) (old : RouteMap) :
  wildcardsLast (pathList (createRouteMap routes old)).
Proof. rewrite createRouteMap_pathList. apply wildcardsLast_partition. Qed.

Lemma elem_of_partition (paths : list string) (p : string) :
  p ∈ filter (λ p, p ≠ "*") paths ++ filter (λ p, p = "*") paths ↔ p ∈ paths.
Proof.
  rewrite elem_of_app, !list_elem_of_filter.
  destruct (decide (p = "*")); tauto.
Qed.

Lemma createRouteMap_consistent (routes : list RouteConfig) (old : RouteMap) :
  consistent old → consistent (createRouteMap routes old).
Proof.
  intros Hold.
  assert (consistent (fold_left (λ st route, addRouteRecord st route None None)
                                routes old)) as [Hlist Hkey].
  { revert Hold.
    apply (createRouteMap_steps (λ a b, consistent a → consistent b));
      [done | by auto | apply consistent_registerPath
      | apply consistent_registerName]. }
  split; [|done]. intros p. rewrite createRouteMap_pathList.
  rewrite elem_of_partition. apply Hlist.
Qed.

Lemma createRouteMap_extends (routes : list RouteConfig) (old : RouteMap) :
  extends old (fold_left (λ st route, addRouteRecord st route None None) routes old).
Proof.
  apply createRouteMap_steps;
    [apply extends_refl | apply extends_trans
    | apply extends_registerPath | apply extends_registerName].
Qed.

Lemma consistent_empty : consistent emptyRouteMap.
Proof. split; [by intros p Hp%elem_of_nil|done]. Qed.

Lemma matcherTable_snoc (routes : list RouteConfig)
    (added : list (list RouteConfig)) (more : list RouteConfig) :
  matcherTable routes (added ++ [more]) = addRoutes more (matcherTable routes added).
Proof. unfold Router.matcherTable. by rewrite fold_left_app. Qed.

Lemma matcherTable_invariant (routes : list RouteConfig)
    (added : list (list RouteConfig)) :
  consistent (matcherTable routes added)
  ∧ wildcardsLast (pathList (matcherTable routes added)).
Proof.
  induction added as [|more added IH] using rev_ind.
  - split; [apply createRouteMap_consistent, consistent_empty
           |apply createRouteMap_wildcardsLast].
  - rewrite matcherTable_snoc. destruct IH as [IH _].
    split; [by apply createRouteMap_consistent
           |apply createRouteMap_wildcardsLast].
Qed.

End RouteMapFacts.

(** ** The scan of the path list *)

Section ScanFacts.

Variable decodeURIComponent : string -> option string.

Local Abbreviation scanPathList := (scanPathList decodeURIComponent).

Lemma scanPathList_app (table : RouteMap) (l1 l2 : list string) (path : string)
    (location : Location) :
  scanPathList table (l1 ++ l2) path location
  = match scanPathList table l1 path location with
    | Ok None => scanPathList table l2 path location
    | r => r
    end.
Proof.
  induction l1 as [|p l1 IH]; simpl; [done|].
  destruct (pathMap table !! p) as [record|]; [|done].
  destruct (matchRoute _ _ _ _) as [[[] params]|]; simpl; try done.
Qed.

Lemma scanPathList_unmatched (table : RouteMap) (paths : list string)
    (path : string) (location : Location) :
  scanPathList table paths path location = Ok None ↔ unmatched table paths path.
Proof.
  unfold unmatched. induction paths as [|p paths IH]; simpl.
  - split; [by intros _ p Hp%elem_of_nil|done].
  - destruct (pathMap table !! p) as [record|] eqn:Hp.
    + unfold matchRoute. destruct (exec (rec_regex record) path) as [groups|] eqn:Hm; simpl.
      * split.
        -- destruct (loc_params location); simpl; [|done].
           by destruct (fillGroups _ _ _ _).
        -- intros H. destruct (H p) as (r & Hr & Hnone); [by left|]. congruence.
      * rewrite IH. split.
        -- intros H q [->|Hq]%elem_of_cons; eauto.
        -- intros H q Hq. apply H. by right.
    + split; [done|]. intros H. destruct (H p) as (r & Hr & _); [by left|]. congruence.
Qed.

Lemma scanPathList_found (table : RouteMap) (paths : list string)
    (path : string) (location location' : Location) (record : RouteRecord) :
  scanPathList table paths path location = Ok (Some (record, location')) →
  ∃ p, p ∈ paths ∧ pathMap table !! p = Some record
       ∧ is_Some (exec (rec_regex record) path).
Proof.
  induction paths as [|p paths IH]; simpl; [done|].
  destruct (pathMap table !! p) as [r|] eqn:Hp; [|done].
  unfold matchRoute. destruct (exec (rec_regex r) path) as [groups|] eqn:Hm; simpl.
  - intros H. exists p. split; [by left|].
    destruct (loc_params location); simpl in H.
    + destruct (fillGroups _ _ _ _); simpl in H; try done.
      injection H as <- _. rewrite Hm. eauto.
    + injection H as <- _. rewrite Hm. eauto.
  - intros H. destruct (IH H) as (q & Hq & Hr). exists q. split; [by right|done].
Qed.

(** The scan reads the map at the listed paths only. *)
Lemma scanPathList_ext (table table' : RouteMap) (paths : list string)
    (path : string) (location : Location) :
  (∀ p, p ∈ paths → pathMap table' !! p = pathMap table !! p) →
  scanPathList table' paths path location = scanPathList table paths path location.
Proof.
  induction paths as [|p paths IH]; intros H; simpl; [done|].
  rewrite (H p) by (by left). destruct (pathMap table !! p); [|done].
  destruct (matchRoute _ _ _ _) as [[[] params]|]; simpl; try done.
  apply IH. intros q Hq. apply H. by right.
Qed.

End ScanFacts.

Section RouteTableTheorems.

Variable production : bool.
Variable cleanPath : string -> string.
Variable Regexp : string -> PathToRegexpOptions -> RouteRegExp.
Variable decodeURIComponent : string -> option string.

Local Abbreviation addRouteRecord := (addRouteRecord production cleanPath Regexp).
Local Abbreviation createRouteMap := (createRouteMap production cleanPath Regexp).
Local Abbreviation matcherTable := (matcherTable production cleanPath Regexp).
Local Abbreviation addRoutes := (addRoutes production cleanPath Regexp).
Local Abbreviation newRecord := (newRecord cleanPath Regexp).
Local Abbreviation scanPathList := (scanPathList decodeURIComponent).

(** C4.  [createRouteMap] leaves the path list as the paths registered, those
    other than ["*"] first and in their order, then the ["*"] ones in theirs;
    and in the table of a matcher, whatever was registered and added, the scan
    of [match] settles on the record of ["*"] only for a path that the
    pattern of no other listed record matches. *)
Theorem wildcard_last_and_least (routes : list RouteConfig) (old : RouteMap)
    (added : list (list RouteConfig)) :
  (let registered :=
     pathList (fold_left (λ st route, addRouteRecord st route None None) routes old) in
   pathList (createRouteMap routes old)
   = filter (λ p, p ≠ "*") registered ++ filter (λ p, p = "*") registered)
  ∧ (let table := matcherTable routes added in
     ∀ (path : string) (location location' : Location) (record : RouteRecord),
       scanPathList table (pathList table) path location
       = Ok (Some (record, location')) →
       rec_path record = "*" →
       ∀ p r, p ∈ pathList table → p ≠ "*" → pathMap table !! p = Some r →
              exec (rec_regex r) path = None).
Proof.
  split; [apply createRouteMap_pathList|].
  intros table path location location' record Hscan Hwild p r Hp Hne Hr.
  destruct (matcherTable_invariant production cleanPath Regexp routes added)
    as [[_ Hkey] Hlast]. fold table in Hkey, Hlast.
  rewrite Hlast, scanPathList_app in Hscan.
  destruct (scanPathList table (filter _ (pathList table)) path location)
    as [[[record0 location0]|]|] eqn:Hspecific; try done.
  - injection Hscan as -> ->.
    apply scanPathList_found in Hspecific as (q & Hq & Hrec & _).
    apply list_elem_of_filter in Hq as [Hq _].
    apply Hkey in Hrec. congruence.
  - apply scanPathList_unmatched in Hspecific.
    destruct (Hspecific p) as (r' & Hr' & Hnone); [by apply list_elem_of_filter|].
    congruence.
Qed.

(** A registration whose normalized path is already mapped keeps the
    entry and adds no entry for that path. *)
Lemma addRouteRecord_keeps (st : RouteMap) (route : RouteConfig)
    (parent : option RouteRecord) (matchAs : option string)
    (existing : RouteRecord) :
  let path := rec_path (newRecord route parent matchAs) in
  let st' := addRouteRecord st route parent matchAs in
  pathMap st !! path = Some existing →
  pathMap st' !! path = Some existing
  ∧ filter (λ p, p = path) (pathList st') = filter (λ p, p = path) (pathList st).
Proof.
  intros path st' Hpath.
  destruct (addRouteRecord_extends production cleanPath Regexp st route parent matchAs)
    as [(new & Hlist & Hnew) [Hmap _]]. fold st' in Hlist, Hmap.
  split; [by eapply lookup_weaken|].
  rewrite Hlist, filter_app.
  assert (filter (λ p, p = path) new = []) as ->; [|by rewrite app_nil_r].
  clear Hlist. induction new as [|q new IH]; [done|].
  rewrite filter_cons_False.
  - apply IH. intros p Hp. apply Hnew. by right.
  - intros ->. specialize (Hnew path (list_elem_of_here _ _)). congruence.
Qed.

(** [addRoutes] keeps every entry of the maps and every listed path, in
    their order, and the scan of [match] finds what it found before for a
    path that the pattern of no added record matches. *)
Lemma addRoutes_keeps (routes more : list RouteConfig)
    (added : list (list RouteConfig)) :
  let table := matcherTable routes added in
  let table' := addRoutes more table in
  pathMap table ⊆ pathMap table'
  ∧ nameMap table ⊆ nameMap table'
  ∧ pathList table `sublist_of` pathList table'
  ∧ ∀ (path : string) (location : Location),
      (∀ p r, p ∈ pathList table' → p ∉ pathList table →
              pathMap table' !! p = Some r → exec (rec_regex r) path = None) →
      scanPathList table' (pathList table') path location
      = scanPathList table (pathList table) path location.
Proof.
  intros table table'.
  destruct (matcherTable_invariant production cleanPath Regexp routes added)
    as [[Hlisted Hkey] Hlast]. fold table in Hlisted, Hkey, Hlast.
  unfold wildcardsLast in Hlast.
  destruct (createRouteMap_extends production cleanPath Regexp more table)
    as [(new & Hlist & Hnew) [Hmap Hname]].
  assert (pathList table'
          = filter (λ p, p ≠ "*") (pathList table) ++ filter (λ p, p ≠ "*") new
            ++ filter (λ p, p = "*") (pathList table) ++ filter (λ p, p = "*") new)
    as Hlist'.
  { unfold table', Router.addRoutes. rewrite createRouteMap_pathList. cbn zeta.
    rewrite Hlist, !filter_app. by rewrite <- !app_assoc. }
  split; [done|]. split; [done|]. split.
  + rewrite Hlist'. rewrite Hlast at 1.
    apply sublist_app; [done|]. apply sublist_inserts_l.
    apply sublist_inserts_r. done.
  + intros path location Hunaffected.
    assert (∀ P : string → Prop, ∀ HP : ∀ p, Decision (P p),
              unmatched table' (filter P new) path) as Hskip.
    { intros P HP p [_ Hp]%list_elem_of_filter.
      assert (p ∈ pathList table') as Hin.
      { rewrite Hlist'. rewrite !elem_of_app, !list_elem_of_filter.
        destruct (decide (p = "*")); tauto. }
      assert (p ∉ pathList table) as Hout.
      { intros [r Hr]%Hlisted. rewrite (Hnew p Hp) in Hr. done. }
      destruct (createRouteMap_consistent production cleanPath Regexp more table)
        as [Hlisted' _]; [done|].
      destruct (Hlisted' p Hin) as [r Hr]. exists r. eauto. }
    rewrite Hlist'. rewrite Hlast at 3.
    rewrite !scanPathList_app.
    rewrite (proj2 (scanPathList_unmatched _ table' (filter (λ p, p ≠ "*") new) path location))
      by apply Hskip.
    rewrite (proj2 (scanPathList_unmatched _ table' (filter (λ p, p = "*") new) path location))
      by apply Hskip.
    rewrite !(scanPathList_ext _ table table').
    * destruct (scanPathList table (filter _ (pathList table)) path location)
        as [[?|]|]; try done.
      by destruct (scanPathList table (filter _ (pathList table)) path location)
        as [[?|]|].
    * intros p [_ Hp]%list_elem_of_filter.
      destruct (Hlisted p Hp) as [r Hr]. rewrite Hr. by eapply lookup_weaken.
    * intros p [_ Hp]%list_elem_of_filter.
      destruct (Hlisted p Hp) as [r Hr]. rewrite Hr. by eapply lookup_weaken.
Qed.

End RouteTableTheorems.

(** ** The tables and the hooks at work *)


(** The wildcard that was registered first is listed last, and the pattern
    of [/a] does not match the path that the scan leaves to it. *)
Lemma wildcard_last_and_least_witness :
  pathList (sampleTable wildRoutes) = ["/a"; "*"]
  ∧ (∃ (record : RouteRecord) (found : Location),
       scanPathList sampleDecode (sampleTable wildRoutes)
         (pathList (sampleTable wildRoutes)) "/zzz" (locationAt "/zzz")
       = Ok (Some (record, found))
       ∧ rec_path record = "*")
  ∧ ∀ r, pathMap (sampleTable wildRoutes) !! "/a" = Some r →
         exec (rec_regex r) "/zzz" = None.
Proof.
  destruct (wildcard_last_and_least true sampleCleanPath sampleRegexp
              sampleDecode wildRoutes emptyRouteMap [])
    as [Hlist Hleast].
  split; [etransitivity; [exact Hlist|vm_compute; reflexivity]|].
  assert (∃ (record : RouteRecord) (found : Location),
            scanPathList sampleDecode (sampleTable wildRoutes)
              (pathList (sampleTable wildRoutes)) "/zzz" (locationAt "/zzz")
            = Ok (Some (record, found))
            ∧ rec_path record = "*") as (record & found & Hscan & Hwild).
  { eexists _, _. split; vm_compute; reflexivity. }
  split; [by exists record, found|].
  intros r Hr.
  apply (Hleast "/zzz" (locationAt "/zzz") found record Hscan Hwild "/a" r);
    [|discriminate|exact Hr].
  vm_compute. apply list_elem_of_here.
Defined.

(** * create-matcher.js: facts *)

(** The backfill copies a key of the current params exactly when the
    location does not have it, no object inherits it, and it is a required
    name of the record. *)
Lemma backfillParams_lookup (paramNames : list KeyName)
    (currentParams params : Params) (key : string) :
  backfillParams paramNames currentParams params !! key
  = match params !! key with
    | Some v => Some v
    | None => if bool_decide (KStr key ∈ paramNames)
                 && negb (bool_decide (key ∈ objectPrototypeKeys))
              then currentParams !! key else None
    end.
Proof.
  unfold backfillParams. revert key.
  apply (map_fold_weak_ind
           (λ (r : Params) (m : Params), ∀ key,
              r !! key = match params !! key with
                         | Some v => Some v
                         | None => if bool_decide (KStr key ∈ paramNames)
                                      && negb (bool_decide (key ∈ objectPrototypeKeys))
                                   then m !! key else None
                         end)).
  - intros key. rewrite lookup_empty. destruct (params !! key); [done|].
    by destruct (_ && _).
  - intros i x m r Hi IH key.
    destruct (decide (i = key)) as [->|Hne].
    + specialize (IH key). rewrite Hi in IH. rewrite lookup_insert_eq.
      unfold keyIn.
      destruct (params !! key) as [v|] eqn:Hp.
      * rewrite (bool_decide_eq_true_2 (is_Some (r !! key))) by (by rewrite IH).
        done.
      * assert (r !! key = None) as Hr by (rewrite IH; by destruct (_ && _)).
        rewrite (bool_decide_eq_false_2 (is_Some (r !! key)))
          by (rewrite Hr; by intros [? ?]).
        cbn [orb]. rewrite (andb_comm (bool_decide (KStr key ∈ paramNames))).
        destruct (negb (bool_decide (key ∈ objectPrototypeKeys))
                  && bool_decide (KStr key ∈ paramNames));
          [by rewrite lookup_insert_eq|done].
    + rewrite (lookup_insert_ne m) by done. rewrite <- IH.
      destruct (_ && _); [by rewrite lookup_insert_ne|done].
Qed.

(** The chain of a record ends with the record. *)
Lemma formatMatch_last (record : RouteRecord) :
  last (formatMatch record) = Some record.
Proof.
  destruct record as [path regex components name parent matchAs redirect
                      beforeEnter meta props].
  cbn [formatMatch rec_parent]. destruct parent; [|done]. apply last_snoc.
Qed.

Section MatcherFacts.

Variable production : bool.
Variable assertRaises : bool.
Variable normalizeLocation : RawLocation -> option Route -> bool -> Location.
Variable fillParams : string -> option Params -> string.
Variable resolvePath : string -> string -> bool -> string.
Variable decodeURIComponent : string -> option string.
Variable stringifyQuery : Query -> string.
Variable callRedirect : Fn -> Route -> result RedirectValue.
Variable table : RouteMap.

Local Abbreviation createRoute := (createRoute stringifyQuery).
Local Abbreviation getFullPath := (getFullPath stringifyQuery).
Local Abbreviation scanPathList := (scanPathList decodeURIComponent table).
Local Abbreviation namedLocation := (namedLocation fillParams).
Local Abbreviation matchWith :=
  (matchWith normalizeLocation fillParams decodeURIComponent table).
Local Abbreviation redirectWith :=
  (redirectWith production assertRaises fillParams resolvePath stringifyQuery
                callRedirect table).
Local Abbreviation aliasWith := (aliasWith fillParams).
Local Abbreviation _createRoute :=
  (_createRoute production assertRaises normalizeLocation fillParams resolvePath
                decodeURIComponent stringifyQuery callRedirect table).
Local Abbreviation match_ :=
  (match_ production assertRaises normalizeLocation fillParams resolvePath
          decodeURIComponent stringifyQuery callRedirect table).
Local Abbreviation findRecord :=
  (findRecord normalizeLocation fillParams decodeURIComponent table).
Local Abbreviation redirectTarget :=
  (redirectTarget fillParams resolvePath stringifyQuery callRedirect).
Local Abbreviation redirectValue := (redirectValue stringifyQuery callRedirect).
Local Abbreviation redirectChain :=
  (redirectChain normalizeLocation fillParams resolvePath decodeURIComponent
                 stringifyQuery callRedirect table).

(** [match] is its lookup followed by [_createRoute]; the location that
    redirected is passed on only with a record. *)
Lemma matchWith_findRecord
    (cr : option RouteRecord → Location → option Location → result Route)
    (raw : RawLocation) (currentRoute : option Route)
    (redirectedFrom : option Location) :
  matchWith cr raw currentRoute redirectedFrom
  = '(record, location) ← findRecord raw currentRoute;
    cr record location (match record with Some _ => redirectedFrom | None => None end).
Proof.
  unfold Router.matchWith, Router.findRecord.
  destruct (truthy _).
  - by destruct (nameMap table !! _).
  - destruct (loc_path _) as [[|c s]|]; try done.
    destruct (Router.scanPathList _ _ _ _ _) as [[[record location]|]|]; done.
Qed.

(** A redirect with a target goes back to [match] with it, unless a
    development build with the raising [assert] finds no record for the
    name. *)
Lemma redirectWith_target
    (m : RawLocation → option Route → option Location → result Route)
    (cr : option RouteRecord → Location → option Location → result Route)
    (record : RouteRecord) (location : Location) (raw : RawLocation) :
  redirectTarget record location = Some raw →
  production = true ∨ assertRaises = false ∨ namedTargetRegistered table raw →
  redirectWith m cr record location = m raw None (Some location).
Proof.
  unfold Router.redirectTarget, Router.redirectWith. intros Htarget Hassert.
  cbv zeta in *.
  destruct (redirectValue record location) as [[s|re|]|e]; cbn [mbind result_bind];
    try done.
  { cbn in *. destruct s; [done|]. by injection Htarget as <-. }
  destruct (truthy (re_name re)) eqn:Hname.
  - injection Htarget as <-.
    match goal with
    | |- context [if production then None else ?a] =>
        assert ((if production then None else a) = None) as ->; [|done]
    end.
    destruct production; [done|]. unfold assert.
    destruct Hassert as [?|[->|Hl]]; try done.
    + by destruct (bool_decide _).
    + simpl in Hl. destruct (re_name re) as [[|c s]|]; try done.
      rewrite bool_decide_eq_true_2; [done|]. by apply Hl.
  - destruct (truthy (re_path re)); [|done]. by injection Htarget as <-.
Qed.

Lemma redirectWith_malformed
    (m : RawLocation → option Route → option Location → result Route)
    (cr : option RouteRecord → Location → option Location → result Route)
    (record : RouteRecord) (location : Location) (v : RedirectValue) :
  redirectValue record location = Ok v →
  redirectTarget record location = None →
  redirectWith m cr record location = cr None location None.
Proof.
  unfold Router.redirectTarget, Router.redirectWith. intros -> Htarget.
  cbv zeta in *. cbn [mbind result_bind].
  destruct v as [s|re|]; try done.
  { cbn in *. by destruct s. }
  destruct (truthy (re_name re)); [done|].
  by destruct (truthy (re_path re)).
Qed.

(** What a redirect function throws, [redirect] lets through. *)
Lemma redirectWith_throws
    (m : RawLocation → option Route → option Location → result Route)
    (cr : option RouteRecord → Location → option Location → result Route)
    (record : RouteRecord) (location : Location) (e : Exception) :
  redirectValue record location = Throw e →
  redirectWith m cr record location = Throw e
  ∧ ∃ f route, callRedirect f route = Throw e.
Proof.
  unfold Router.redirectWith. intros Hv. rewrite Hv. split; [done|].
  unfold Router.redirectValue in Hv.
  destruct (rec_redirect record) as [[v|f]|]; try done. eauto.
Qed.

Lemma _createRoute_plain (fuel : nat) (record : option RouteRecord)
    (location : Location) (redirectedFrom : option Location) :
  (∀ r, record = Some r → hasRedirect r = false ∧ truthy (rec_matchAs r) = false) →
  _createRoute fuel record location redirectedFrom
  = Ok (createRoute record location redirectedFrom).
Proof.
  intros H. destruct record as [r|]; [|by destruct fuel].
  destruct (H r eq_refl) as [Hr Ha]. destruct fuel; simpl; by rewrite Hr, Ha.
Qed.


(** The chain lemma *)
Lemma redirectChain_resolves (orig : Location) (n : nat)
    (record final : RouteRecord) (location last : Location) :
  redirectChain orig n record location final last →
  ∀ (fuel : nat) (redirectedFrom : option Location),
    (n ≤ fuel)%nat → default location redirectedFrom = orig →
    (n = 0 → redirectedFrom = Some orig) →
    _createRoute fuel (Some record) location redirectedFrom
    = Ok (createRoute (Some final) last (Some orig)).
Proof.
  intros Hchain.
  induction Hchain as [record location Hr Ha
                      |n record next final location location' last raw
                         Hr Htarget Hnamed Hfind Hchain IH];
    intros fuel redirectedFrom Hfuel Horig Hfirst.
  - rewrite _createRoute_plain by (by intros r [= <-]).
    by rewrite Hfirst.
  - destruct fuel as [|fuel]; [lia|]. simpl. rewrite Hr, Horig.
    rewrite (redirectWith_target _ _ _ _ raw) by tauto.
    rewrite matchWith_findRecord, Hfind. simpl.
    apply IH; [lia|done..].
Qed.


(** C3.  A chain of one or more redirecting records that ends at a record
    which is neither a redirect nor an alias resolves to the Route of that
    record, and the Route reports the full path of the location that met the
    first redirect. *)
Theorem redirect_chain_reports_origin (raw : RawLocation)
    (current : option Route) (n fuel : nat) (record final : RouteRecord)
    (location last : Location) :
  findRecord raw current = Ok (Some record, location) →
  redirectChain location n record location final last →
  (1 ≤ n)%nat → (n ≤ fuel)%nat →
  match_ fuel raw current None = Ok (createRoute (Some final) last (Some location))
  ∧ r_matched (createRoute (Some final) last (Some location)) = formatMatch final
  ∧ r_redirectedFrom (createRoute (Some final) last (Some location))
    = Some (getFullPath location).
Proof.
  intros Hfind Hchain Hn Hfuel. split; [|done].
  unfold Router.match_. rewrite matchWith_findRecord, Hfind. simpl.
  eapply redirectChain_resolves; [done..|lia].
Qed.

(** ** What [match] can raise *)

Lemma fillGroups_raises (groups : list (option string)) (ks : list Key)
    (params : Params) (e : Exception) :
  fillGroups decodeURIComponent groups ks params = Throw e → e = URIError.
Proof.
  revert ks params. induction groups as [|g groups IH]; intros ks params; [done|].
  simpl. destruct g as [s|]; simpl.
  - destruct (decodeURIComponent s); simpl; [|by intros [= <-]].
    destruct ks; apply IH.
  - destruct ks; apply IH.
Qed.

Lemma scanPathList_raises (paths : list string) (path : string)
    (location : Location) (e : Exception) :
  (∀ p, p ∈ paths → is_Some (pathMap table !! p)) →
  scanPathList paths path location = Throw e → e = URIError.
Proof.
  induction paths as [|p paths IH]; intros Hlisted; [done|]. simpl.
  destruct (Hlisted p) as [r ->]; [by left|].
  unfold matchRoute. destruct (exec (rec_regex r) path) as [groups|]; simpl.
  - destruct (loc_params location) as [ps|]; simpl; [|done].
    destruct (fillGroups _ _ _ _) eqn:Hfill; simpl; try done.
    intros [= <-]. by eapply fillGroups_raises.
  - apply IH. intros q Hq. apply Hlisted. by right.
Qed.

Lemma findRecord_raises (raw : RawLocation) (current : option Route)
    (e : Exception) :
  (∀ p, p ∈ pathList table → is_Some (pathMap table !! p)) →
  findRecord raw current = Throw e → e = URIError.
Proof.
  intros Hlisted. unfold Router.findRecord.
  destruct (truthy _); [by destruct (nameMap table !! _)|].
  destruct (loc_path _) as [[|c s]|]; try done.
  destruct (Router.scanPathList _ _ _ _ _) as [[[r l]|]|] eqn:Hscan; try done.
  simpl. intros [= <-]. by eapply scanPathList_raises.
Qed.

(** The exceptions of [match]: the decoder's, the engine's for a call stack
    used up, and what a redirect function throws. *)
Local Abbreviation matchException e :=
  (e = URIError ∨ e = RangeError ∨ ∃ f route, callRedirect f route = Throw e).

Lemma _createRoute_raises (fuel : nat) :
  (∀ p, p ∈ pathList table → is_Some (pathMap table !! p)) →
  production = true ∨ assertRaises = false →
  ∀ (record : option RouteRecord) (location : Location)
    (redirectedFrom : option Location) (e : Exception),
    _createRoute fuel record location redirectedFrom = Throw e →
    matchException e.
Proof.
  intros Hlisted Hassert.
  induction fuel as [|fuel IH]; intros record location redirectedFrom e.
  - destruct record as [r|]; [|done]. simpl.
    destruct (hasRedirect r); [intros [= <-]; right; by left|].
    destruct (truthy (rec_matchAs r)); [|done]. intros [= <-]; right; by left.
  - assert (∀ raw cur rf e, matchWith (_createRoute fuel) raw cur rf = Throw e
                            → matchException e) as Hmatch.
    { intros raw cur rf e'. rewrite matchWith_findRecord.
      destruct (findRecord raw cur) as [[rec loc]|] eqn:Hfind; simpl.
      - apply IH.
      - intros [= <-]. left. by eapply findRecord_raises. }
    destruct record as [r|]; [|done]. simpl.
    destruct (hasRedirect r).
    + destruct (redirectValue r (default location redirectedFrom)) as [v|e']
        eqn:Hv.
      * destruct (redirectTarget r (default location redirectedFrom))
          as [raw|] eqn:Ht.
        -- rewrite (redirectWith_target _ _ _ _ raw) by tauto. apply Hmatch.
        -- rewrite (redirectWith_malformed _ _ _ _ v) by done. apply IH.
      * destruct (redirectWith_throws (matchWith (_createRoute fuel))
                    (_createRoute fuel) _ _ _ Hv) as [-> Hf].
        intros [= <-]. right. by right.
    + destruct (truthy (rec_matchAs r)); [|done].
      unfold Router.aliasWith.
      destruct (Router.matchWith _ _ _ _ _ _ _ _) as [route|] eqn:Hm; simpl.
      * apply IH.
      * intros [= <-]. by eapply Hmatch.
Qed.

(** A record that redirects to the location it was found for: every call
    stack is used up. *)
Lemma redirect_to_itself (raw : RawLocation) (record : RouteRecord)
    (location : Location) :
  production = true ∨ assertRaises = false →
  findRecord raw None = Ok (Some record, location) →
  hasRedirect record = true →
  redirectTarget record location = Some raw →
  ∀ (fuel : nat) (redirectedFrom : option Location),
    default location redirectedFrom = location →
    _createRoute fuel (Some record) location redirectedFrom = Throw RangeError.
Proof.
  intros Hassert Hfind Hredirect Htarget.
  induction fuel as [|fuel IH]; intros redirectedFrom Horig; simpl;
    rewrite Hredirect; [done|].
  rewrite Horig. rewrite (redirectWith_target _ _ _ _ raw) by tauto.
  rewrite matchWith_findRecord, Hfind. simpl. by apply IH.
Qed.


End MatcherFacts.

(** ** The matcher at work on the stand-ins *)



(** Two redirects in a row, from [/a] over [/b] to [/home]: the Route is that
    of [/home] and reports [/a]. *)
Lemma redirect_chain_reports_origin_witness :
  ∃ route : Route,
    sampleMatch homeRoutes 2 (RawString "/a") None = Ok route
    ∧ rec_path <$> r_matched route = ["/home"]
    ∧ r_redirectedFrom route = Some "/a".
Proof.
  destruct (redirect_chain_reports_origin true false sampleNormalizeLocation
              sampleFillParams sampleResolvePath sampleDecode
              sampleStringifyQuery sampleCallRedirect (sampleTable homeRoutes)
              (RawString "/a") None 2 2 (homeRecord "/a") (homeRecord "/home")
              (locationAt "/a") (locationAt "/home"))
    as (Hmatch & Hmatched & Hfrom).
  - vm_compute. reflexivity.
  - apply chain_hop with (next := homeRecord "/b") (location' := locationAt "/b")
                          (raw := redirectedTo "/b");
      [reflexivity | vm_compute; reflexivity | discriminate
      | vm_compute; reflexivity |].
    apply chain_hop with (next := homeRecord "/home")
                         (location' := locationAt "/home")
                         (raw := redirectedTo "/home");
      [reflexivity | vm_compute; reflexivity | discriminate
      | vm_compute; reflexivity |].
    apply chain_end; reflexivity.
  - lia.
  - lia.
  - eexists. split; [exact Hmatch|]. split; [|exact Hfrom].
    rewrite Hmatched. vm_compute. reflexivity.
Defined.

(** Where C3 fails as the specification words it: two redirects that end at
    an alias.  The Route is that of the aliased record and reports no
    redirect. *)
Lemma redirect_into_alias_forgets_origin :
  ∃ route : Route,
    sampleMatch aliasRoutes 3 (RawString "/a") None = Ok route
    ∧ rec_path <$> r_matched route = ["/c"]
    ∧ r_redirectedFrom route = None
    ∧ r_redirectedFrom route ≠ Some "/a".
Proof.
  eexists. split; [vm_compute; reflexivity|]. by vm_compute.
Qed.



(** * create-matcher.js: matching after an addition *)

Section AdditionFacts.

Variable production : bool.
Variable assertRaises : bool.
Variable cleanPath : string -> string.
Variable Regexp : string -> PathToRegexpOptions -> RouteRegExp.
Variable normalizeLocation : RawLocation -> option Route -> bool -> Location.
Variable fillParams : string -> option Params -> string.
Variable resolvePath : string -> string -> bool -> string.
Variable decodeURIComponent : string -> option string.
Variable stringifyQuery : Query -> string.
Variable callRedirect : Fn -> Route -> result RedirectValue.

Local Abbreviation addRouteRecord := (addRouteRecord production cleanPath Regexp).
Local Abbreviation matcherTable := (matcherTable production cleanPath Regexp).
Local Abbreviation addRoutes := (addRoutes production cleanPath Regexp).
Local Abbreviation newRecord := (newRecord cleanPath Regexp).
Local Abbreviation createRoute := (createRoute stringifyQuery).
Local Abbreviation scanPathList := (scanPathList decodeURIComponent).
Local Abbreviation matchWith t :=
  (matchWith normalizeLocation fillParams decodeURIComponent t).
Local Abbreviation redirectWith t :=
  (redirectWith production assertRaises fillParams resolvePath stringifyQuery
                callRedirect t).
Local Abbreviation aliasWith := (aliasWith fillParams).
Local Abbreviation _createRoute t :=
  (_createRoute production assertRaises normalizeLocation fillParams resolvePath
                decodeURIComponent stringifyQuery callRedirect t).
Local Abbreviation match_ t :=
  (match_ production assertRaises normalizeLocation fillParams resolvePath
          decodeURIComponent stringifyQuery callRedirect t).
Local Abbreviation findRecord t :=
  (findRecord normalizeLocation fillParams decodeURIComponent t).
Local Abbreviation redirectTarget :=
  (redirectTarget fillParams resolvePath stringifyQuery callRedirect).
Local Abbreviation redirectValue := (redirectValue stringifyQuery callRedirect).
Local Abbreviation lookupUnaffected := (lookupUnaffected normalizeLocation).
Local Abbreviation aliasTarget := (aliasTarget fillParams).
Local Abbreviation awayFromAddition :=
  (awayFromAddition normalizeLocation fillParams resolvePath decodeURIComponent
                    stringifyQuery callRedirect).
Local Abbreviation plain record :=
  (∀ r : RouteRecord, record = Some r →
                      hasRedirect r = false ∧ truthy (rec_matchAs r) = false).

(** What [redirect] does: it raises, it goes back to [match] with the
    target of the redirect, or it makes the route of no record. *)
Lemma redirectWith_cases (t : RouteMap)
    (m : RawLocation → option Route → option Location → result Route)
    (cr : option RouteRecord → Location → option Location → result Route)
    (record : RouteRecord) (location : Location) :
  (∃ e, redirectWith t m cr record location = Throw e)
  ∨ (∃ raw, redirectTarget record location = Some raw
            ∧ redirectWith t m cr record location = m raw None (Some location))
  ∨ redirectWith t m cr record location = cr None location None.
Proof.
  unfold Router.redirectTarget, Router.redirectWith. cbv zeta.
  destruct (redirectValue record location) as [[s|re|]|e];
    cbn [mbind result_bind]; [| | |left; eauto]; [| |by right; right].
  { cbn. destruct s; [by right; right|]. right. left. eauto. }
  destruct (truthy (re_name re)) eqn:Hname.
  - match goal with
    | |- context [if production then None else ?a] =>
        destruct (if production then None else a) as [e|]
    end; [left; eauto|]. right. left. eauto.
  - destruct (truthy (re_path re)); [|by right; right]. right. left. eauto.
Qed.

(** [redirect] on two tables that have the same entry for the name that
    the redirect asks for. *)
Lemma redirectWith_tables (t t' : RouteMap)
    (m m' : RawLocation → option Route → option Location → result Route)
    (cr cr' : option RouteRecord → Location → option Location → result Route)
    (record : RouteRecord) (location : Location) :
  (∀ raw, redirectTarget record location = Some raw →
          targetUnaffected t t' raw
          ∧ m' raw None (Some location) = m raw None (Some location)) →
  cr' None location None = cr None location None →
  redirectWith t' m' cr' record location = redirectWith t m cr record location.
Proof.
  unfold Router.redirectTarget, Router.redirectWith. cbv zeta. intros Htarget Hcr.
  destruct (redirectValue record location) as [[s|re|]|e];
    cbn [mbind result_bind]; try done.
  { cbn in *. destruct s; [done|]. by destruct (Htarget _ eq_refl) as [_ ->]. }
  destruct (truthy (re_name re)) eqn:Hname.
  - destruct (Htarget _ eq_refl) as [Hsame ->].
    unfold targetUnaffected in Hsame. cbn [loc_name] in Hsame.
    destruct (re_name re) as [[|c s]|]; try done.
    change (default "" (Some (default "" (Some (String c s)))))
      with (default "" (Some (String c s))) in Hsame.
    by rewrite (Hsame eq_refl).
  - destruct (truthy (re_path re)); [|done].
    by destruct (Htarget _ eq_refl) as [_ ->].
Qed.

(** A route that [match] returns is the route of a record that neither
    redirects nor is an alias, or of no record. *)
Lemma _createRoute_returns (t : RouteMap) (fuel : nat) :
  ∀ (record : option RouteRecord) (location : Location)
    (redirectedFrom : option Location) (route : Route),
    _createRoute t fuel record location redirectedFrom = Ok route →
    plain (last (r_matched route)).
Proof.
  assert (∀ record location redirectedFrom,
            plain record →
            plain (last (r_matched (createRoute record location redirectedFrom))))
    as Hplain.
  { intros [r|] location redirectedFrom Hr r'; cbn; [|done].
    rewrite formatMatch_last. intros [= <-]. by apply Hr. }
  induction fuel as [|fuel IH]; intros record location redirectedFrom route.
  - destruct record as [r|]; simpl.
    + destruct (hasRedirect r) eqn:Hr; [done|].
      destruct (truthy (rec_matchAs r)) eqn:Ha; [done|].
      intros [= <-]. apply Hplain. by intros ? [= <-].
    + intros [= <-]. by apply Hplain.
  - assert (∀ raw cur rf route,
              matchWith t (_createRoute t fuel) raw cur rf = Ok route →
              plain (last (r_matched route))) as Hmatch.
    { intros raw cur rf route'. rewrite matchWith_findRecord.
      destruct (findRecord t raw cur) as [[rec loc]|]; simpl; [apply IH|done]. }
    destruct record as [r|]; simpl.
    + destruct (hasRedirect r) eqn:Hr.
      * destruct (redirectWith_cases t (matchWith t (_createRoute t fuel))
                    (_createRoute t fuel) r (default location redirectedFrom))
          as [[e ->]|[(raw & _ & ->)| ->]]; [done|apply Hmatch|apply IH].
      * destruct (truthy (rec_matchAs r)) eqn:Ha.
        -- unfold Router.aliasWith.
           destruct (Router.matchWith _ _ _ _ _ _ _ _) as [aliased|]; simpl;
             [apply IH|done].
        -- intros [= <-]. apply Hplain. by intros ? [= <-].
    + intros [= <-]. by apply Hplain.
Qed.

(** The lookup of [match] on two tables, for a location whose lookup does
    not meet what the second has more. *)
Lemma findRecord_tables (t t' : RouteMap) (raw : RawLocation)
    (currentRoute : option Route) :
  (∀ (path : string) (location : Location),
     (∀ p r, p ∈ pathList t' → p ∉ pathList t →
             pathMap t' !! p = Some r → exec (rec_regex r) path = None) →
     scanPathList t' (pathList t') path location
     = scanPathList t (pathList t) path location) →
  lookupUnaffected t t' raw currentRoute →
  findRecord t' raw currentRoute = findRecord t raw currentRoute.
Proof.
  unfold Router.lookupUnaffected, Router.findRecord. cbv zeta. intros Hscan.
  destruct (truthy (loc_name _)); [by intros ->|].
  destruct (loc_path _) as [[|c s]|]; try done.
  intros Hpath. by rewrite Hscan.
Qed.

(** [match] on two tables: the calls that keep away from what the second
    has more return what they returned, and raise what they raised. *)
Lemma match_tables (t t' : RouteMap)
    (stable : RawLocation → option Route → option Location → Prop) :
  (∀ (path : string) (location : Location),
     (∀ p r, p ∈ pathList t' → p ∉ pathList t →
             pathMap t' !! p = Some r → exec (rec_regex r) path = None) →
     scanPathList t' (pathList t') path location
     = scanPathList t (pathList t) path location) →
  awayFromAddition t t' stable →
  ∀ (fuel : nat) (raw : RawLocation) (currentRoute : option Route)
    (redirectedFrom : option Location),
    stable raw currentRoute redirectedFrom →
    match_ t' fuel raw currentRoute redirectedFrom
    = match_ t fuel raw currentRoute redirectedFrom.
Proof.
  intros Hscan Haway. unfold Router.match_.
  assert (∀ fuel location, _createRoute t' fuel None location None
                           = _createRoute t fuel None location None) as Hnone.
  { by intros [|fuel] location. }
  induction fuel as [|fuel IH]; intros raw cur rf Hstable;
    destruct (Haway raw cur rf Hstable) as [Hlookup Hnext];
    rewrite !matchWith_findRecord, (findRecord_tables t t' raw cur Hscan Hlookup);
    destruct (findRecord t raw cur) as [[[r|] loc]|e] eqn:Hfind;
    cbn [mbind result_bind]; try done; try apply Hnone;
    specialize (Hnext r loc eq_refl); simpl;
    destruct (hasRedirect r) eqn:Hr; try done.
  - apply redirectWith_tables; [|apply Hnone].
    intros target Htarget. destruct (Hnext target Htarget) as [Hsame Hgo].
    split; [done|]. by apply IH.
  - destruct (truthy (rec_matchAs r)) eqn:Ha; [|done].
    unfold Router.aliasWith.
    fold (aliasTarget (default "" (rec_matchAs r)) loc).
    rewrite (IH _ None None Hnext).
    destruct (Router.matchWith _ _ _ _ _ _ _ _) as [aliased|] eqn:Hm;
      cbn [mbind result_bind]; [|done].
    assert (plain (last (r_matched aliased))) as Hplain.
    { revert Hm. rewrite matchWith_findRecord.
      destruct (findRecord t _ None) as [[rec loc']|]; simpl; [|done].
      apply _createRoute_returns. }
    by rewrite !_createRoute_plain.
Qed.


End AdditionFacts.

(** ** Additions at work *)



(** * history/base.js: the loop of [resolveQueue] *)

Section ResolveQueueFacts.

Variable same : RouteRecord -> RouteRecord -> bool.

(** Where the loop of [resolveQueue] stops: at the first index where the
    chains differ, if there is one among the [n] indexes from [i] on. *)
Lemma firstDifference_stops (current next : list RouteRecord) (n i : nat) :
  (i ≤ firstDifference same current next n i ≤ i + n)%nat
  ∧ (∀ j, (i ≤ j < firstDifference same current next n i)%nat →
          differAt same current next j = false)
  ∧ ((firstDifference same current next n i < i + n)%nat →
     differAt same current next (firstDifference same current next n i) = true).
Proof.
  revert i. induction n as [|n IH]; intros i; simpl.
  - repeat split; intros; lia.
  - destruct (differAt same current next i) eqn:Hi.
    + repeat split; intros; (lia || done).
    + destruct (IH (i + 1)%nat) as (Hk & Hbelow & Hat).
      split; [lia|]. split.
      * intros j Hj. destruct (decide (j = i)) as [->|]; [done|].
        apply Hbelow. lia.
      * intros Hlt. apply Hat. lia.
Qed.

Lemma differAt_past (current next : list RouteRecord) (j : nat) :
  differAt same current next j = false →
  (j < length current)%nat ∨ (j < length next)%nat →
  ∃ x y, current !! j = Some x ∧ next !! j = Some y ∧ same x y = true.
Proof.
  unfold differAt. intros Hj Hlen.
  destruct (current !! j) as [x|] eqn:Hx, (next !! j) as [y|] eqn:Hy; try done.
  - exists x, y. by rewrite (negb_false_iff _) in Hj.
  - apply lookup_ge_None in Hx, Hy. lia.
Qed.

Lemma firstDifference_common (current next : list RouteRecord) :
  let i := firstDifference same current next
             (Nat.max (length current) (length next)) 0 in
  (i ≤ length current)%nat ∧ (i ≤ length next)%nat
  ∧ Forall2 (fun x y => same x y = true) (take i current) (take i next)
  ∧ match current !! i, next !! i with
    | Some x, Some y => same x y = false
    | _, _ => True
    end.
Proof.
  intros i.
  destruct (firstDifference_stops current next
              (Nat.max (length current) (length next)) 0)
    as (Hrange & Hbelow & Hat). fold i in Hrange, Hbelow, Hat.
  assert (∀ j, (j < i)%nat → ∃ x y, current !! j = Some x ∧ next !! j = Some y
                                   ∧ same x y = true) as Hsame.
  { intros j Hj. apply differAt_past; [apply Hbelow; lia|lia]. }
  assert ((i ≤ length current)%nat ∧ (i ≤ length next)%nat) as [Hc Hn].
  { destruct i as [|i]; [lia|].
    destruct (Hsame i) as (x & y & Hx & Hy & _); [lia|].
    apply lookup_lt_Some in Hx, Hy. lia. }
  split; [done|]. split; [done|]. split.
  - apply Forall2_same_length_lookup. split.
    + rewrite !length_take. lia.
    + intros j x y Hx Hy.
      apply lookup_take_Some in Hx as [Hx Hj], Hy as [Hy _].
      destruct (Hsame j Hj) as (x' & y' & Hx' & Hy' & Hxy). congruence.
  - destruct (current !! i) as [x|] eqn:Hx, (next !! i) as [y|] eqn:Hy; try done.
    assert (differAt same current next i = true) as Hd.
    { apply Hat. apply lookup_lt_Some in Hx. lia. }
    unfold differAt in Hd. rewrite Hx, Hy in Hd. by apply negb_true_iff.
Qed.

(** Two chains that start with the same records and go on differently,
    or end there: the loop stops after the common records. *)
Lemma firstDifference_prefix (common rest rest' : list RouteRecord) :
  (∀ x, x ∈ common → same x x = true) →
  match rest, rest' with
  | x :: _, y :: _ => same x y = false
  | _, _ => True
  end →
  firstDifference same (common ++ rest) (common ++ rest')
    (Nat.max (length (common ++ rest)) (length (common ++ rest'))) 0
  = length common.
Proof.
  intros Hrefl Hdiff.
  set (i := firstDifference same _ _ _ 0).
  destruct (firstDifference_stops (common ++ rest) (common ++ rest')
              (Nat.max (length (common ++ rest)) (length (common ++ rest'))) 0)
    as (Hrange & Hbelow & Hat). fold i in Hrange, Hbelow, Hat.
  rewrite !length_app in Hrange, Hat.
  assert (∀ j, (j < length common)%nat →
            differAt same (common ++ rest) (common ++ rest') j = false)
    as Hprefix.
  { intros j Hj. unfold differAt.
    destruct (lookup_lt_is_Some_2 common j Hj) as [x Hx].
    rewrite !(lookup_app_l_Some _ _ _ _ Hx).
    rewrite Hrefl; [done|]. by eapply list_elem_of_lookup_2. }
  assert (differAt same (common ++ rest) (common ++ rest') (length common)
          = true ∨ (rest = [] ∧ rest' = [])) as Hhere.
  { unfold differAt.
    rewrite !lookup_app_r, Nat.sub_diag by lia.
    destruct rest as [|x rest], rest' as [|y rest']; simpl; auto.
    left. by rewrite Hdiff. }
  destruct (decide (i < length common)%nat) as [Hlt|Hge].
  - assert ((i < 0 + Nat.max (length common + length rest)
                       (length common + length rest'))%nat) as Hi by lia.
    specialize (Hat Hi). by rewrite Hprefix in Hat.
  - destruct (decide (length common < i)%nat) as [Hgt|]; [|lia].
    destruct Hhere as [Hhere|[-> ->]]; [|simpl in Hrange; lia].
    rewrite Hbelow in Hhere; [done|lia].
Qed.

End ResolveQueueFacts.

(** * history/base.js: facts *)

(** ** The calls of [abort] and of the completion closure *)


Lemma abort_trace (t : Transition) (err : Value) (h : History) :
  trace (abort t err h) = trace h ++ abortCalls t err h.
Proof.
  unfold abort, onAbort, abortCalls.
  destruct (negb (isNavigationDuplicated err) && isError err);
    [destruct (errorCbs h) eqn:Hcbs|]; fields;
    destruct (truthyValue err && negb (ready h)); fields.
  all: rewrite ?Hcbs, ?app_nil_r, <- ?app_assoc; reflexivity.
Qed.

Lemma abort_sameCore (t : Transition) (err : Value) (h : History) :
  sameCore h (abort t err h).
Proof.
  unfold sameCore, abort, onAbort.
  destruct (negb (isNavigationDuplicated err) && isError err);
    [destruct (errorCbs h) eqn:Hcbs|]; fields;
    destruct (truthyValue err && negb (ready h)); fields; done.
Qed.

Lemma onComplete_trace (t : Transition) (h : History) :
  trace (onComplete t h) = trace h ++ completeCalls t h.
Proof.
  unfold onComplete, callOnComplete, completeCalls.
  destruct (t_onComplete t) as [[f|f|f]|]; fields;
    destruct (ready h) eqn:Hready; fields.
  all: rewrite <- ?app_assoc; reflexivity.
Qed.

Lemma onComplete_core (t : Transition) (h : History) :
  current (onComplete t h) = t_route t ∧ pending (onComplete t h) = pending h
  ∧ suspended (onComplete t h) = suspended h ∧ nextId (onComplete t h) = nextId h
  ∧ router (onComplete t h) = router h ∧ instances (onComplete t h) = instances h.
Proof.
  unfold onComplete, callOnComplete.
  destruct (t_onComplete t) as [[f|f|f]|]; fields;
    destruct (ready h) eqn:Hready; fields; done.
Qed.

(** [runQueue] hands the history, as it is, to the iterator for the first
    guard of the queue, or to the callback when there is none. *)
Lemma runQueue_guardsOf {S : Type} (queue : list (option NavigationGuard))
    (fn : NavigationGuard → list (option NavigationGuard) → S → S)
    (cb : S → S) (s : S) :
  (guardsOf queue = [] ∧ runQueue queue fn cb s = cb s)
  ∨ (∃ hook rest, guardsOf queue = hook :: guardsOf rest
                  ∧ runQueue queue fn cb s = fn hook rest s).
Proof.
  induction queue as [|[hook|] queue IH]; simpl.
  - by left.
  - right. by exists hook, queue.
  - exact IH.
Qed.

Lemma takeSuspended_Some (id : nat) (l l' : list Suspended) (s : Suspended) :
  takeSuspended id l = Some (s, l') →
  sid s = id ∧ ∃ l1 l2, l = l1 ++ s :: l2 ∧ l' = l1 ++ l2.
Proof.
  revert l'. induction l as [|x l IH]; intros l'; simpl; [done|].
  destruct (decide _) as [Hx|Hx].
  - intros [= <- <-]. split; [done|]. by exists [], l.
  - destruct (takeSuspended id l) as [[found rest]|]; simpl; [|done].
    intros [= <- <-]. destruct (IH rest eq_refl) as (Hs & l1 & l2 & -> & ->).
    split; [done|]. by exists (x :: l1), l2.
Qed.

Lemma takeSuspended_None (id : nat) (l : list Suspended) :
  takeSuspended id l = None → id ∉ (sid <$> l).
Proof.
  induction l as [|x l IH]; simpl; [intros _; apply not_elem_of_nil|].
  destruct (decide _) as [Hx|Hx]; [done|].
  destruct (takeSuspended id l) as [[found rest]|]; simpl; [done|].
  intros _. apply not_elem_of_cons. split; [done|]. by apply IH.
Qed.

Lemma commits_app (a : nat) (l1 l2 : list Event) :
  commits a (l1 ++ l2) = commits a l1 ++ commits a l2.
Proof. apply filter_app. Qed.

Lemma guardCalls_app (a : nat) (l1 l2 : list Event) :
  guardCalls a (l1 ++ l2) = guardCalls a l1 ++ guardCalls a l2.
Proof. apply omap_app. Qed.

Lemma commits_fmap_none {A : Type} (a : nat) (f : A → Event) (l : list A) :
  (∀ x, commitsTo a (f x) = false) → commits a (f <$> l) = [].
Proof.
  intros Hf. induction l as [|x l IH]; [done|]. simpl.
  unfold commits in *. rewrite filter_cons_False; [done|]. by rewrite Hf.
Qed.

Lemma guardCalls_fmap_none {A : Type} (a : nat) (f : A → Event) (l : list A) :
  (∀ x, guardCalls a [f x] = []) → guardCalls a (f <$> l) = [].
Proof.
  intros Hf. induction l as [|x l IH]; [done|].
  change (f <$> x :: l) with ([f x] ++ (f <$> l)).
  by rewrite guardCalls_app, Hf, IH.
Qed.

Lemma commits_abortCalls (a : nat) (t : Transition) (err : Value) (h : History) :
  commits a (abortCalls t err h) = [].
Proof.
  unfold abortCalls. rewrite !commits_app.
  rewrite (commits_fmap_none a (λ f, EvOnAbort f err)) by done.
  destruct (negb (isNavigationDuplicated err) && isError err);
    destruct (truthyValue err && negb (ready h));
    try destruct (errorCbs h) as [|x l];
    repeat match goal with
           | |- context [commits a (?f <$> ?l)] =>
               rewrite (commits_fmap_none a f l) by done
           end;
    reflexivity.
Qed.

Lemma guardCalls_abortCalls (a : nat) (t : Transition) (err : Value) (h : History) :
  guardCalls a (abortCalls t err h) = [].
Proof.
  unfold abortCalls. rewrite !guardCalls_app.
  rewrite (guardCalls_fmap_none a (λ f, EvOnAbort f err)) by done.
  destruct (negb (isNavigationDuplicated err) && isError err);
    destruct (truthyValue err && negb (ready h));
    try destruct (errorCbs h) as [|x l];
    repeat match goal with
           | |- context [guardCalls a (?f <$> ?l)] =>
               rewrite (guardCalls_fmap_none a f l) by done
           end;
    reflexivity.
Qed.

Lemma commits_completeCalls (a : nat) (t : Transition) (h : History) :
  oid (t_route t) ≠ a → commits a (completeCalls t h) = [].
Proof.
  intros Hne. unfold completeCalls. rewrite !commits_app.
  assert (bool_decide (oid (t_route t) = a) = false) as Hr
    by (by apply bool_decide_eq_false_2).
  rewrite (commits_fmap_none a (λ f, EvListener f (t_route t))) by (by intros).
  rewrite (commits_fmap_none a (λ f, EvAfterHook f (t_route t) (current h)))
    by (by intros).
  assert (commits a (if ready h then []
                     else (λ f, EvReadyCb f (Some (t_route t))) <$> readyCbs h) = [])
    as ->.
  { destruct (ready h); [done|]. by apply commits_fmap_none. }
  assert (commits a [EvEnsureURL false] = []) as -> by done.
  destruct (t_onComplete t) as [[f|[f|]|[f|]]|]; simpl; unfold commits;
    rewrite ?filter_cons_False, ?filter_nil by (simpl; rewrite ?Hr; done);
    reflexivity.
Qed.

Lemma guardCalls_completeCalls (a : nat) (t : Transition) (h : History) :
  guardCalls a (completeCalls t h) = [].
Proof.
  unfold completeCalls. rewrite !guardCalls_app.
  rewrite (guardCalls_fmap_none a (λ f, EvListener f (t_route t))) by done.
  rewrite (guardCalls_fmap_none a (λ f, EvAfterHook f (t_route t) (current h))) by done.
  assert (guardCalls a (if ready h then []
                        else (λ f, EvReadyCb f (Some (t_route t))) <$> readyCbs h) = [])
    as ->.
  { destruct (ready h); [done|]. by apply guardCalls_fmap_none. }
  by destruct (t_onComplete t) as [[f|[f|]|[f|]]|].
Qed.

(** ** The iterator and the callbacks of the queues *)

Lemma pendingIs_dec (a : nat) (h : History) :
  match pending h with
  | Some p => sameObject p {| oid := a; val := val p |} = true ↔ pendingIs a h
  | None => ¬ pendingIs a h
  end.
Proof.
  unfold pendingIs, sameObject. destruct (pending h) as [p|]; simpl.
  - rewrite bool_decide_eq_true. split; [by exists p|]. by intros (q & [= <-] & Hq).
  - by intros (q & Hq & _).
Qed.

Lemma iterator_cases (t : Transition) (stage : Stage) (cbs : list PostEnterCb)
    (hook : NavigationGuard) (rest : list (option NavigationGuard)) (h : History) :
  (pendingIs (oid (t_route t)) h
   ∧ iterator t stage cbs hook rest h
     = emit [EvGuard hook (t_route t) (t_current t)]
            (setSuspended (suspended h ++
                             [{| s_transition := t; s_stage := stage;
                                 s_hook := hook; s_rest := rest;
                                 s_postEnterCbs := cbs |}]) h))
  ∨ (¬ pendingIs (oid (t_route t)) h
     ∧ iterator t stage cbs hook rest h = abort t VUndefined h).
Proof.
  unfold iterator, pendingIs, sameObject. destruct (pending h) as [p|].
  - destruct (bool_decide (oid p = oid (t_route t))) eqn:Hp.
    + left. apply bool_decide_eq_true in Hp. split; [by exists p|done].
    + right. apply bool_decide_eq_false in Hp. split; [|done].
      by intros (q & [= <-] & Hq).
  - right. split; [|done]. by intros (q & Hq & _).
Qed.

Lemma secondQueueDone_cases (t : Transition) (cbs : list PostEnterCb) (h : History) :
  (pendingIs (oid (t_route t)) h
   ∧ secondQueueDone t cbs h
     = let h' := onComplete t (setPending None h) in
       if app (router h') then emit [EvNextTick (t_route t) cbs] h' else h')
  ∨ (¬ pendingIs (oid (t_route t)) h
     ∧ secondQueueDone t cbs h = abort t VUndefined h).
Proof.
  unfold secondQueueDone, pendingIs, sameObject. destruct (pending h) as [p|].
  - destruct (bool_decide (oid p = oid (t_route t))) eqn:Hp.
    + left. apply bool_decide_eq_true in Hp. split; [by exists p|done].
    + right. apply bool_decide_eq_false in Hp. split; [|done].
      by intros (q & [= <-] & Hq).
  - right. split; [|done]. by intros (q & Hq & _).
Qed.

(** ** What holds in every reachable history *)

Lemma wellFormed_sameCore (h h' : History) :
  sameCore h h' → wellFormed h → wellFormed h'.
Proof.
  unfold sameCore, wellFormed, pendingIs.
  intros (-> & -> & -> & -> & _ & _). done.
Qed.

Lemma active_sameCore (t : Transition) (h h' : History) :
  sameCore h h' → active t h → active t h'.
Proof.
  unfold sameCore, active, pendingIs.
  intros (-> & -> & -> & -> & _ & _). done.
Qed.

Lemma abort_wellFormed (t : Transition) (err : Value) (h : History) :
  wellFormed h → wellFormed (abort t err h).
Proof. apply wellFormed_sameCore, abort_sameCore. Qed.

Lemma iterator_wellFormed (t : Transition) (stage : Stage)
    (cbs : list PostEnterCb) (hook : NavigationGuard)
    (rest : list (option NavigationGuard)) (h : History) :
  wellFormed h → active t h → wellFormed (iterator t stage cbs hook rest h).
Proof.
  intros Hwf Hact.
  destruct (iterator_cases t stage cbs hook rest h) as [[Hp ->]|[_ ->]];
    [|by apply abort_wellFormed].
  destruct Hwf as (Hcur & Hold & Hdup & Hnot & Hfrom).
  destruct Hact as (Hlt & Hfresh & Hne & Hcurrent).
  unfold wellFormed, pendingIs in *. fields. repeat split.
  - done.
  - intros s [Hs| ->%list_elem_of_singleton]%elem_of_app; [by apply Hold|done].
  - rewrite fmap_app. apply NoDup_app. split; [done|]. split.
    + intros x Hx ->%list_elem_of_singleton. done.
    + apply NoDup_singleton.
  - rewrite fmap_app. intros [Hin|Hin%list_elem_of_singleton]%elem_of_app;
      [done|]. by apply Hne.
  - intros s [Hs| ->%list_elem_of_singleton]%elem_of_app; [by apply Hfrom|].
    intros _. by apply Hcurrent.
Qed.

Lemma secondQueueDone_wellFormed (t : Transition) (cbs : list PostEnterCb)
    (h : History) :
  wellFormed h → active t h → wellFormed (secondQueueDone t cbs h).
Proof.
  intros Hwf Hact.
  destruct (secondQueueDone_cases t cbs h) as [[Hp ->]|[_ ->]];
    [|by apply abort_wellFormed].
  destruct Hwf as (Hcur & Hold & Hdup & Hnot & Hfrom).
  destruct Hact as (Hlt & Hfresh & Hne & Hcurrent).
  cbv zeta.
  destruct (onComplete_core t (setPending None h))
    as (Hc & Hpe & Hs & Hn & _ & _). fields.
  assert (wellFormed (onComplete t (setPending None h))) as Hwf'.
  { unfold wellFormed, pendingIs. rewrite Hc, Hpe, Hs, Hn. repeat split; try done.
    intros s _ (p & [=] & _). }
  destruct (app _); [|done].
  revert Hwf'. apply wellFormed_sameCore. unfold sameCore. by fields.
Qed.

(** ** A navigation that cannot commit any more *)

Lemma staysSpent_trans (a : nat) (h h1 h2 : History) :
  staysSpent a h h1 → staysSpent a h1 h2 → staysSpent a h h2.
Proof. intros [_ H1] [H2 H3]. split; [done|]. by rewrite H3. Qed.

Lemma staysSpent_sameCore (a : nat) (h h' : History) (events : list Event) :
  sameCore h h' → trace h' = trace h ++ events → commits a events = [] →
  spent a h → staysSpent a h h'.
Proof.
  unfold sameCore, staysSpent, spent, pendingIs.
  intros (-> & -> & -> & -> & _ & _) -> Hev Hspent. split; [done|].
  by rewrite commits_app, Hev, app_nil_r.
Qed.

Lemma abort_staysSpent (a : nat) (t : Transition) (err : Value) (h : History) :
  spent a h → staysSpent a h (abort t err h).
Proof.
  apply (staysSpent_sameCore a h _ (abortCalls t err h));
    [apply abort_sameCore|apply abort_trace|apply commits_abortCalls].
Qed.

Lemma iterator_staysSpent (a : nat) (t : Transition) (stage : Stage)
    (cbs : list PostEnterCb) (hook : NavigationGuard)
    (rest : list (option NavigationGuard)) (h : History) :
  spent a h → (oid (t_route t) = a → ¬ pendingIs a h) →
  staysSpent a h (iterator t stage cbs hook rest h).
Proof.
  intros Hspent Ht.
  destruct (iterator_cases t stage cbs hook rest h) as [[Hp ->]|[_ ->]];
    [|by apply abort_staysSpent].
  destruct Hspent as (Hlt & Hcur & Hpend).
  unfold staysSpent, spent, pendingIs in *. fields. repeat split; try done.
  - intros Hpa. rewrite fmap_app. intros [Hin|Hin%list_elem_of_singleton]%elem_of_app.
    + by apply Hpend.
    + fields. by apply Ht.
  - by rewrite commits_app, app_nil_r.
Qed.

Lemma secondQueueDone_staysSpent (a : nat) (t : Transition)
    (cbs : list PostEnterCb) (h : History) :
  spent a h → (oid (t_route t) = a → ¬ pendingIs a h) →
  staysSpent a h (secondQueueDone t cbs h).
Proof.
  intros Hspent Ht.
  destruct (secondQueueDone_cases t cbs h) as [[Hp ->]|[_ ->]];
    [|by apply abort_staysSpent].
  assert (oid (t_route t) ≠ a) as Hne by (intros <-; by apply Ht).
  destruct Hspent as (Hlt & Hcur & Hpend). cbv zeta.
  destruct (onComplete_core t (setPending None h))
    as (Hc & Hpe & Hs & Hn & _ & _).
  pose proof (onComplete_trace t (setPending None h)) as Htr. fields.
  assert (staysSpent a h (onComplete t (setPending None h))) as Hstays.
  { unfold staysSpent, spent, pendingIs. rewrite Hc, Hpe, Hs, Hn, Htr.
    repeat split; try done.
    - by intros (p & [=] & _).
    - by rewrite commits_app, commits_completeCalls, app_nil_r. }
  destruct (app _); [|done].
  eapply staysSpent_trans; [exact Hstays|].
  apply (staysSpent_sameCore a _ _ [EvNextTick (t_route t) cbs]);
    [unfold sameCore; by fields|done| |apply Hstays].
  unfold commits. rewrite filter_cons_False; [done|].
  simpl. by rewrite bool_decide_eq_false_2.
Qed.

(** ** The order of the guard calls *)

Lemma neutral_refl (a : nat) (h : History) : neutral a h h.
Proof. split; [done|]. exists []. by rewrite app_nil_r. Qed.

Lemma neutral_trans (a : nat) (h h1 h2 : History) :
  neutral a h h1 → neutral a h1 h2 → neutral a h h2.
Proof.
  intros [Hg1 (l1 & Hs1 & Hl1)] [Hg2 (l2 & Hs2 & Hl2)].
  split; [by rewrite Hg2|]. exists (l1 ++ l2).
  split; [by rewrite Hs2, Hs1, app_assoc|]. by apply Forall_app.
Qed.

Lemma neutral_sameCore (a : nat) (h h' : History) (events : list Event) :
  sameCore h h' → trace h' = trace h ++ events → guardCalls a events = [] →
  neutral a h h'.
Proof.
  intros (_ & _ & Hs & _) Htr Hev. split.
  - by rewrite Htr, guardCalls_app, Hev, app_nil_r.
  - exists []. by rewrite app_nil_r.
Qed.

Lemma abort_neutral (a : nat) (t : Transition) (err : Value) (h : History) :
  neutral a h (abort t err h).
Proof.
  apply (neutral_sameCore a h _ (abortCalls t err h));
    [apply abort_sameCore|apply abort_trace|apply guardCalls_abortCalls].
Qed.

Lemma iterator_neutral (a : nat) (t : Transition) (stage : Stage)
    (cbs : list PostEnterCb) (hook : NavigationGuard)
    (rest : list (option NavigationGuard)) (h : History) :
  oid (t_route t) ≠ a → neutral a h (iterator t stage cbs hook rest h).
Proof.
  intros Hne.
  destruct (iterator_cases t stage cbs hook rest h) as [[Hp ->]|[_ ->]];
    [|by apply abort_neutral].
  unfold neutral. fields. split.
  - rewrite guardCalls_app. simpl. destruct (decide _); [done|]. by rewrite app_nil_r.
  - eexists. split; [done|]. by apply Forall_singleton.
Qed.

Lemma secondQueueDone_neutral (a : nat) (t : Transition)
    (cbs : list PostEnterCb) (h : History) :
  neutral a h (secondQueueDone t cbs h).
Proof.
  destruct (secondQueueDone_cases t cbs h) as [[Hp ->]|[_ ->]];
    [|by apply abort_neutral]. cbv zeta.
  destruct (onComplete_core t (setPending None h))
    as (Hc & Hpe & Hs & Hn & _ & _).
  pose proof (onComplete_trace t (setPending None h)) as Htr. fields.
  assert (neutral a h (onComplete t (setPending None h))) as Hneutral.
  { unfold neutral. rewrite Hs, Htr. split.
    - by rewrite guardCalls_app, guardCalls_completeCalls, app_nil_r.
    - exists []. by rewrite app_nil_r. }
  destruct (app _); [|done].
  eapply neutral_trans; [exact Hneutral|].
  apply (neutral_sameCore a _ _ [EvNextTick (t_route t) cbs]);
    [unfold sameCore; by fields|done..].
Qed.

Lemma ordered_neutral (a : nat) (before queue : list NavigationGuard)
    (h h' : History) :
  neutral a h h' → ordered a before queue h → ordered a before queue h'.
Proof.
  intros [Hg (added & Hs & Hadded)] (called & Hcalled & Hprefix & Hpos).
  exists called. rewrite Hg, Hs. repeat split; try done.
  intros s [Hin|Hin]%elem_of_app Ha; [by apply Hpos|].
  rewrite Forall_forall in Hadded. by destruct (Hadded s Hin).
Qed.

Lemma position_prefix (queue called : list NavigationGuard) (stage : Stage)
    (rest : list (option NavigationGuard)) :
  position queue called stage rest →
  called `prefix_of` queue ∨ queue `prefix_of` called.
Proof.
  destruct stage; simpl; [|by right]. intros <-. left. by apply prefix_app_r.
Qed.

(** The guard that the iterator calls for [a] is the next of its queue. *)
Lemma iterator_ordered (a : nat) (before queue called : list NavigationGuard)
    (t : Transition) (stage : Stage) (cbs : list PostEnterCb)
    (hook : NavigationGuard) (rest : list (option NavigationGuard)) (h : History) :
  oid (t_route t) = a → a ∉ (sid <$> suspended h) →
  guardCalls a (trace h) = before ++ called →
  (called `prefix_of` queue ∨ queue `prefix_of` called) →
  position queue (called ++ [hook]) stage rest →
  ordered a before queue (iterator t stage cbs hook rest h).
Proof.
  intros Ht Hfresh Hcalled Hprefix Hpos.
  assert (ordered a before queue h) as Hord.
  { exists called. repeat split; try done. intros s Hs Ha.
    destruct Hfresh. apply list_elem_of_fmap. by exists s. }
  destruct (iterator_cases t stage cbs hook rest h) as [[Hp ->]|[_ ->]];
    [|by eapply ordered_neutral; [apply abort_neutral|]].
  exists (called ++ [hook]). fields. repeat split.
  - rewrite guardCalls_app, Hcalled. simpl. rewrite decide_True by done.
    by rewrite app_assoc.
  - by eapply position_prefix.
  - intros s [Hs| ->%list_elem_of_singleton]%elem_of_app Ha; [|done].
    destruct Hfresh. apply list_elem_of_fmap. by exists s.
Qed.

Lemma runQueue_cases {S : Type} (P : S → Prop)
    (queue : list (option NavigationGuard))
    (fn : NavigationGuard → list (option NavigationGuard) → S → S)
    (cb : S → S) (s : S) :
  (∀ hook rest, P (fn hook rest s)) → P (cb s) → P (runQueue queue fn cb s).
Proof.
  intros Hfn Hcb.
  destruct (runQueue_guardsOf queue fn cb s) as [[_ ->]|(hook & rest & _ & ->)]; auto.
Qed.

Section HistoryFacts.

Variable router_match : RawLocation -> RouteObject -> result Route.
Variable sameRecord : RouteRecord -> RouteRecord -> bool.
Variable isSameRoute : RouteObject -> RouteObject -> bool.
Variable extractGuard : option Component -> string -> GuardOption.

Local Abbreviation firstQueueDone := (firstQueueDone extractGuard).
Local Abbreviation guardQueue := (guardQueue extractGuard).
Local Abbreviation confirmTransition :=
  (confirmTransition sameRecord isSameRoute extractGuard).
Local Abbreviation transitionTo :=
  (transitionTo router_match sameRecord isSameRoute extractGuard).
Local Abbreviation push := (push router_match sameRecord isSameRoute extractGuard).
Local Abbreviation replace :=
  (replace router_match sameRecord isSameRoute extractGuard).
Local Abbreviation next := (next router_match sameRecord isSameRoute extractGuard).
Local Abbreviation step := (step router_match sameRecord isSameRoute extractGuard).
Local Abbreviation run := (run router_match sameRecord isSameRoute extractGuard).
Local Abbreviation reachable :=
  (reachable router_match sameRecord isSameRoute extractGuard).

(** [transitionTo] confirms the route that [match] returned, or ends where
    [match] raised. *)
Lemma transitionTo_cases (location : RawLocation)
    (onComplete : option OnComplete) (onAbort : option Fn) (h : History) :
  (∃ route, router_match location (current h) = Ok route
            ∧ transitionTo location onComplete onAbort h
              = confirmTransition {| oid := nextId h; val := route |}
                  onComplete onAbort (setNextId (S (nextId h)) h))
  ∨ (∃ e, router_match location (current h) = Throw e
          ∧ transitionTo location onComplete onAbort h
            = emit [EvRaise e] (setNextId (S (nextId h)) h)).
Proof.
  unfold Router.transitionTo.
  destruct (router_match location (current h)) as [route|e]; eauto.
Qed.

Lemma firstQueueDone_wellFormed (t : Transition) (h : History) :
  wellFormed h → active t h → wellFormed (firstQueueDone t h).
Proof.
  intros Hwf Hact. unfold Router.firstQueueDone. apply runQueue_cases.
  - intros hook rest. by apply iterator_wellFormed.
  - by apply secondQueueDone_wellFormed.
Qed.

Lemma transitionTo_wellFormed (location : RawLocation)
    (onComplete : option OnComplete) (onAbort : option Fn) (h : History) :
  wellFormed h → wellFormed (transitionTo location onComplete onAbort h).
Proof.
  intros (Hcur & Hold & Hdup & Hnot & Hfrom).
  destruct (transitionTo_cases location onComplete onAbort h)
    as [(route & _ & ->)|(e & _ & ->)].
  2:{ unfold wellFormed, pendingIs. fields.
      repeat split; try done; [lia|]. intros s Hs. specialize (Hold s Hs). lia. }
  unfold Router.confirmTransition. fields.
  destruct (_ && _).
  - apply abort_wellFormed. unfold wellFormed, pendingIs. fields.
    repeat split; try done; [lia|]. intros s Hs. specialize (Hold s Hs). lia.
  - assert (∀ s, s ∈ suspended h → sid s ≠ nextId h) as Hfresh.
    { intros s Hs. specialize (Hold s Hs). lia. }
    apply runQueue_cases; [intros hook rest; apply iterator_wellFormed
                          |apply firstQueueDone_wellFormed].
    all: unfold wellFormed, active, pendingIs; fields; repeat split; try done;
      try lia.
    all: try (intros s Hs; specialize (Hold s Hs); lia).
    all: try (intros s Hs (p & [= <-] & Hp); simpl in Hp;
              specialize (Hfresh s Hs); congruence).
    all: intros (s & Heq & Hs)%list_elem_of_fmap; by apply (Hfresh s).
Qed.

Lemma next_wellFormed (s : Suspended) (to : Value) (h : History) :
  wellFormed h → active (s_transition s) h → wellFormed (next s to h).
Proof.
  intros Hwf Hact. unfold Router.next.
  destruct (isFalse to || isError to).
  { apply abort_wellFormed. revert Hwf. apply wellFormed_sameCore.
    unfold sameCore. by fields. }
  destruct (isRedirect to).
  { assert (wellFormed (abort (s_transition s) VUndefined h)) as Hwf'
      by (by apply abort_wellFormed).
    destruct to as [| | |l| |]; try destruct (loc_replace l);
      by apply transitionTo_wellFormed. }
  apply runQueue_cases.
  - intros hook rest. by apply iterator_wellFormed.
  - destruct (s_stage s);
      [by apply firstQueueDone_wellFormed|by apply secondQueueDone_wellFormed].
Qed.

Lemma setSuspended_wellFormed (s : Suspended) (l1 l2 : list Suspended) (h : History) :
  wellFormed h → suspended h = l1 ++ s :: l2 →
  wellFormed (setSuspended (l1 ++ l2) h)
  ∧ active (s_transition s) (setSuspended (l1 ++ l2) h).
Proof.
  intros (Hcur & Hold & Hdup & Hnot & Hfrom) Hl.
  unfold wellFormed, active, pendingIs in *. fields. rewrite Hl in *.
  rewrite fmap_app, fmap_cons in Hdup, Hnot.
  apply NoDup_app in Hdup as (Hd1 & Hd12 & Hd2).
  apply NoDup_cons in Hd2 as [Hs2 Hd2].
  rewrite fmap_app. repeat split.
  - done.
  - intros x [Hx|Hx]%elem_of_app; apply Hold; rewrite elem_of_app, elem_of_cons; auto.
  - apply NoDup_app. repeat split; try done.
    intros x Hx1 Hx2. apply (Hd12 x Hx1). by right.
  - rewrite elem_of_app in *. rewrite elem_of_cons in Hnot. tauto.
  - intros x [Hx|Hx]%elem_of_app; apply Hfrom; rewrite elem_of_app, elem_of_cons; auto.
  - apply (Hold s). rewrite elem_of_app, elem_of_cons; auto.
  - rewrite elem_of_app. intros [Hx|Hx]; [|done].
    apply (Hd12 _ Hx). by left.
  - intros Heq. apply Hnot. rewrite elem_of_app, elem_of_cons. right. left.
    symmetry. exact Heq.
  - apply (Hfrom s). rewrite elem_of_app, elem_of_cons; auto.
Qed.

Lemma step_wellFormed (h : History) (i : Input) :
  wellFormed h → wellFormed (step h i).
Proof.
  intros Hwf.
  destruct i as [location c a|location c a|location c a|f|f e|e|fn|fn|fn
                |fn|fn|fn|inst|id to|id e]; simpl;
    try (by apply transitionTo_wellFormed);
    try (unfold wellFormed, pendingIs in *; fields; exact Hwf).
  - unfold onReady. destruct (ready h);
      unfold wellFormed, pendingIs in *; fields; exact Hwf.
  - destruct (takeSuspended id (suspended h)) as [[s l]|] eqn:Htake; [|done].
    apply takeSuspended_Some in Htake as (_ & l1 & l2 & Hl & ->).
    destruct (setSuspended_wellFormed s l1 l2 h Hwf Hl). by apply next_wellFormed.
  - destruct (takeSuspended id (suspended h)) as [[s l]|] eqn:Htake; [|done].
    apply takeSuspended_Some in Htake as (_ & l1 & l2 & Hl & ->).
    destruct (setSuspended_wellFormed s l1 l2 h Hwf Hl).
    by apply abort_wellFormed.
Qed.

Lemma run_wellFormed (h : History) (inputs : list Input) :
  wellFormed h → wellFormed (run h inputs).
Proof.
  revert h. induction inputs as [|i inputs IH]; intros h Hwf; [done|].
  simpl. apply IH. by apply step_wellFormed.
Qed.

Lemma reachable_wellFormed (h : History) : reachable h → wellFormed h.
Proof.
  intros (router & START & inputs & ->). apply run_wellFormed.
  unfold wellFormed, pendingIs. simpl. repeat split; try done; try lia.
  - intros s Hs. by apply elem_of_nil in Hs.
  - apply NoDup_nil_2.
  - apply not_elem_of_nil.
  - intros s Hs. by apply elem_of_nil in Hs.
Qed.


Lemma firstQueueDone_staysSpent (a : nat) (t : Transition) (h : History) :
  spent a h → (oid (t_route t) = a → ¬ pendingIs a h) →
  staysSpent a h (firstQueueDone t h).
Proof.
  intros Hspent Ht. unfold Router.firstQueueDone. apply runQueue_cases.
  - intros hook rest. by apply iterator_staysSpent.
  - by apply secondQueueDone_staysSpent.
Qed.

Lemma transitionTo_staysSpent (a : nat) (location : RawLocation)
    (onComplete : option OnComplete) (onAbort : option Fn) (h : History) :
  spent a h → staysSpent a h (transitionTo location onComplete onAbort h).
Proof.
  intros (Hlt & Hcur & Hpend).
  destruct (transitionTo_cases location onComplete onAbort h)
    as [(route & _ & ->)|(e & _ & ->)].
  2:{ unfold staysSpent, spent, pendingIs in *. fields.
      repeat split; try done; [lia|]. by rewrite commits_app, app_nil_r. }
  unfold Router.confirmTransition. fields.
  destruct (_ && _).
  - eapply staysSpent_trans; [|apply abort_staysSpent].
    + unfold staysSpent, spent, pendingIs in *. fields.
      repeat split; try done; [lia|]. by rewrite commits_app, app_nil_r.
    + unfold spent, pendingIs in *. fields. repeat split; try done. lia.
  - assert (spent a (setPending
                       (Some {| oid := nextId h; val := route |})
                       (setNextId (S (nextId h)) h))) as Hspent.
    { unfold spent, pendingIs. fields. repeat split; try done; [lia|].
      intros (p & [= <-] & Hp). simpl in Hp. lia. }
    assert (staysSpent a h (setPending
                       (Some {| oid := nextId h; val := route |})
                       (setNextId (S (nextId h)) h))) as Hstays.
    { split; [done|]. by fields. }
    eapply staysSpent_trans; [exact Hstays|].
    apply runQueue_cases;
      [intros hook rest; apply iterator_staysSpent
      |apply firstQueueDone_staysSpent]; try done.
    all: fields; lia.
Qed.

Lemma next_staysSpent (a : nat) (s : Suspended) (to : Value) (h : History) :
  spent a h → (sid s = a → ¬ pendingIs a h) → staysSpent a h (next s to h).
Proof.
  intros Hspent Hs. unfold Router.next.
  destruct (isFalse to || isError to).
  { eapply staysSpent_trans; [|apply abort_staysSpent].
    - apply (staysSpent_sameCore a _ _ [EvEnsureURL true]);
        [unfold sameCore; by fields|done..].
    - destruct Hspent as (? & ? & ?). unfold spent, pendingIs in *. by fields. }
  destruct (isRedirect to).
  { pose proof (abort_staysSpent a (s_transition s) VUndefined h Hspent) as Hab.
    destruct to as [| | |l| |]; try destruct (loc_replace l);
      (eapply staysSpent_trans; [exact Hab|]);
      apply transitionTo_staysSpent, Hab. }
  apply runQueue_cases.
  - intros hook rest. by apply iterator_staysSpent.
  - destruct (s_stage s);
      [by apply firstQueueDone_staysSpent|by apply secondQueueDone_staysSpent].
Qed.

Lemma step_staysSpent (a : nat) (h : History) (i : Input) :
  spent a h → staysSpent a h (step h i).
Proof.
  intros Hspent.
  assert (∀ l1 s l2, suspended h = l1 ++ s :: l2 →
            spent a (setSuspended (l1 ++ l2) h)
            ∧ staysSpent a h (setSuspended (l1 ++ l2) h)
            ∧ (sid s = a → ¬ pendingIs a (setSuspended (l1 ++ l2) h))) as Htake.
  { intros l1 s l2 Hl. destruct Hspent as (Hlt & Hcur & Hpend).
    unfold staysSpent, spent, pendingIs in *. fields. rewrite Hl in Hpend.
    rewrite fmap_app, fmap_cons in Hpend. rewrite fmap_app.
    assert (∀ x, x ∈ (sid <$> l1) ++ (sid <$> l2)
                 → x ∈ (sid <$> l1) ++ sid s :: (sid <$> l2)) as Hsub.
    { intros x. rewrite !elem_of_app, elem_of_cons. tauto. }
    repeat split; try done.
    - intros Hp Hin. by apply (Hpend Hp), Hsub.
    - intros Hp Hin. by apply (Hpend Hp), Hsub.
    - intros Hs Hp. apply (Hpend Hp). rewrite elem_of_app, elem_of_cons. auto. }
  destruct i as [location c' a'|location c' a'|location c' a'|f|f e|e|fn|fn|fn
                |fn|fn|fn|inst|id to|id e]; simpl;
    try (by apply transitionTo_staysSpent);
    try (destruct Hspent as (? & ? & ?);
         unfold staysSpent, spent, pendingIs in *; by fields).
  - unfold onReady. destruct (ready h).
    + apply (staysSpent_sameCore a _ _ [EvReadyCb f None]);
        [unfold sameCore; by fields|done..].
    + destruct Hspent as (? & ? & ?).
      unfold staysSpent, spent, pendingIs in *; by fields.
  - destruct (takeSuspended id (suspended h)) as [[s l]|] eqn:Hs;
      [|split; [done|done]].
    apply takeSuspended_Some in Hs as (_ & l1 & l2 & Hl & ->).
    destruct (Htake l1 s l2 Hl) as (Hsp & Hst & Hpre).
    eapply staysSpent_trans; [exact Hst|]. by apply next_staysSpent.
  - destruct (takeSuspended id (suspended h)) as [[s l]|] eqn:Hs;
      [|split; [done|done]].
    apply takeSuspended_Some in Hs as (_ & l1 & l2 & Hl & ->).
    destruct (Htake l1 s l2 Hl) as (Hsp & Hst & Hpre).
    eapply staysSpent_trans; [exact Hst|]. by apply abort_staysSpent.
Qed.

Lemma run_staysSpent (a : nat) (h : History) (inputs : list Input) :
  spent a h → staysSpent a h (run h inputs).
Proof.
  revert h. induction inputs as [|i inputs IH]; intros h Hspent; [by split|].
  simpl. pose proof (step_staysSpent a h i Hspent) as Hstep.
  eapply staysSpent_trans; [exact Hstep|]. apply IH, Hstep.
Qed.


Lemma firstQueueDone_neutral (a : nat) (t : Transition) (h : History) :
  oid (t_route t) ≠ a → neutral a h (firstQueueDone t h).
Proof.
  intros Hne. unfold Router.firstQueueDone. apply runQueue_cases.
  - intros hook rest. by apply iterator_neutral.
  - apply secondQueueDone_neutral.
Qed.

Lemma transitionTo_neutral (a : nat) (location : RawLocation)
    (onComplete : option OnComplete) (onAbort : option Fn) (h : History) :
  a ≠ nextId h → neutral a h (transitionTo location onComplete onAbort h).
Proof.
  intros Hne.
  assert (∀ events h', suspended h' = suspended h →
            trace h' = trace h ++ events → guardCalls a events = [] →
            neutral a h h') as Hquiet.
  { intros events h' Hs Htr Hev. split.
    - by rewrite Htr, guardCalls_app, Hev, app_nil_r.
    - exists []. by rewrite app_nil_r. }
  destruct (transitionTo_cases location onComplete onAbort h)
    as [(route & _ & ->)|(e & _ & ->)];
    [|by apply (Hquiet [EvRaise e])].
  unfold Router.confirmTransition. fields.
  destruct (_ && _).
  - eapply neutral_trans; [|apply abort_neutral].
    by apply (Hquiet [EvEnsureURL false]).
  - eapply neutral_trans.
    + apply (Hquiet [] (setPending
                       (Some {| oid := nextId h; val := route |})
                       (setNextId (S (nextId h)) h))); [done| |done].
      fields. by rewrite app_nil_r.
    + apply runQueue_cases;
        [intros hook rest; apply iterator_neutral
        |apply firstQueueDone_neutral]; fields; congruence.
Qed.

Lemma next_neutral (a : nat) (s : Suspended) (to : Value) (h : History) :
  sid s ≠ a → a ≠ nextId h → neutral a h (next s to h).
Proof.
  intros Hs Hne. unfold Router.next.
  destruct (isFalse to || isError to).
  { eapply neutral_trans; [|apply abort_neutral].
    apply (neutral_sameCore a _ _ [EvEnsureURL true]);
      [unfold sameCore; by fields|done..]. }
  destruct (isRedirect to).
  { pose proof (abort_neutral a (s_transition s) VUndefined h) as Hab.
    pose proof (abort_sameCore (s_transition s) VUndefined h)
      as (_ & _ & _ & Hn & _).
    destruct to as [| | |l| |]; try destruct (loc_replace l);
      (eapply neutral_trans; [exact Hab|]);
      apply transitionTo_neutral; by rewrite Hn. }
  apply runQueue_cases.
  - intros hook rest. by apply iterator_neutral.
  - destruct (s_stage s);
      [by apply firstQueueDone_neutral|apply secondQueueDone_neutral].
Qed.

(** When the first queue of [a] is through, its second queue runs. *)
Lemma firstQueueDone_ordered (a : nat) (before queue called : list NavigationGuard)
    (t : Transition) (h : History) :
  oid (t_route t) = a → a ∉ (sid <$> suspended h) →
  guardCalls a (trace h) = before ++ called →
  queue `prefix_of` called →
  ordered a before queue (firstQueueDone t h).
Proof.
  intros Ht Hfresh Hcalled Hprefix. unfold Router.firstQueueDone.
  apply runQueue_cases.
  - intros hook rest. eapply iterator_ordered; try done; [by right|].
    simpl. by apply prefix_app_r.
  - eapply ordered_neutral; [apply secondQueueDone_neutral|].
    exists called. repeat split; try done; [by right|]. intros s Hs Ha.
    destruct Hfresh. apply list_elem_of_fmap. by exists s.
Qed.

(** A guard of [a] that lets the navigation go on hands over to the next
    guard of the queue it stands in. *)
Lemma continue_ordered (a : nat) (before queue called : list NavigationGuard)
    (t : Transition) (stage : Stage) (cbs : list PostEnterCb)
    (rest : list (option NavigationGuard)) (h : History) :
  oid (t_route t) = a → a ∉ (sid <$> suspended h) →
  guardCalls a (trace h) = before ++ called →
  position queue called stage rest →
  ordered a before queue
    (runQueue rest (iterator t stage cbs)
       (match stage with
        | FirstQueue => firstQueueDone t
        | SecondQueue => secondQueueDone t cbs
        end) h).
Proof.
  intros Ht Hfresh Hcalled Hpos.
  pose proof (position_prefix _ _ _ _ Hpos) as Hprefix.
  destruct (runQueue_guardsOf rest (iterator t stage cbs)
              (match stage with
               | FirstQueue => firstQueueDone t
               | SecondQueue => secondQueueDone t cbs
               end) h) as [[Hrest ->]|(hook & rest' & Hrest & ->)].
  - destruct stage; simpl in Hpos.
    + rewrite Hrest, app_nil_r in Hpos. subst called.
      by eapply firstQueueDone_ordered.
    + eapply ordered_neutral; [apply secondQueueDone_neutral|].
      exists called. repeat split; try done. intros s Hs Ha.
      destruct Hfresh. apply list_elem_of_fmap. by exists s.
  - eapply iterator_ordered; try done.
    destruct stage; simpl in *.
    + by rewrite <- Hpos, Hrest, <- app_assoc.
    + by apply prefix_app_r.
Qed.

Lemma step_ordered (a : nat) (before queue : list NavigationGuard)
    (h : History) (i : Input) :
  wellFormed h → a < nextId h →
  ordered a before queue h → ordered a before queue (step h i).
Proof.
  intros Hwf Hlt Hord.
  assert (a ≠ nextId h) as Hne by lia.
  assert (∀ h', suspended h' = suspended h → trace h' = trace h →
                ordered a before queue h') as Hsame.
  { intros h' Hs Htr. destruct Hord as (called & ? & ? & ?).
    exists called. by rewrite Hs, Htr. }
  destruct i as [location c' a'|location c' a'|location c' a'|f|f e|e|fn|fn|fn
                |fn|fn|fn|inst|id to|id e]; simpl;
    try (by eapply ordered_neutral; [apply transitionTo_neutral|]);
    try (by apply Hsame).
  - unfold onReady. destruct (ready h); [|by apply Hsame].
    eapply ordered_neutral; [|exact Hord].
    apply (neutral_sameCore a _ _ [EvReadyCb f None]);
      [unfold sameCore; by fields|done..].
  - destruct (takeSuspended id (suspended h)) as [[s l]|] eqn:Hs; [|done].
    apply takeSuspended_Some in Hs as (Hid & l1 & l2 & Hl & ->).
    destruct (setSuspended_wellFormed s l1 l2 h Hwf Hl)
      as [Hwf' (_ & Hfresh & _)].
    destruct Hord as (called & Hcalled & Hprefix & Hpos).
    assert (ordered a before queue (setSuspended (l1 ++ l2) h)) as Hord'.
    { exists called. fields. repeat split; try done.
      intros x Hx. apply Hpos. rewrite Hl. rewrite elem_of_app in *.
      rewrite elem_of_cons. tauto. }
    destruct (decide (sid s = a)) as [Ha|Ha].
    + assert (position queue called (s_stage s) (s_rest s)) as Hstands.
      { apply Hpos; [|done]. rewrite Hl, elem_of_app, elem_of_cons. auto. }
      fields. unfold sid in Ha. rewrite Ha in Hfresh. unfold Router.next.
      destruct (isFalse to || isError to).
      { eapply ordered_neutral; [|exact Hord'].
        eapply neutral_trans; [|apply abort_neutral].
        apply (neutral_sameCore a _ _ [EvEnsureURL true]);
          [unfold sameCore; by fields|done..]. }
      destruct (isRedirect to).
      { eapply ordered_neutral; [|exact Hord'].
        pose proof (abort_neutral a (s_transition s) VUndefined
                      (setSuspended (l1 ++ l2) h)) as Hab.
        pose proof (abort_sameCore (s_transition s) VUndefined
                      (setSuspended (l1 ++ l2) h)) as (_ & _ & _ & Hn & _).
        destruct to as [| | |l| |]; try destruct (loc_replace l);
          (eapply neutral_trans; [exact Hab|]);
          apply transitionTo_neutral; by rewrite Hn. }
      by eapply continue_ordered.
    + eapply ordered_neutral; [|exact Hord']. by apply next_neutral.
  - destruct (takeSuspended id (suspended h)) as [[s l]|] eqn:Hs; [|done].
    apply takeSuspended_Some in Hs as (Hid & l1 & l2 & Hl & ->).
    destruct Hord as (called & Hcalled & Hprefix & Hpos).
    eapply ordered_neutral; [apply abort_neutral|].
    exists called. fields. repeat split; try done.
    intros x Hx. apply Hpos. rewrite Hl. rewrite elem_of_app in *.
    rewrite elem_of_cons. tauto.
Qed.

(** Route objects are numbered upwards. *)
Lemma iterator_nextId (t : Transition) (stage : Stage) (cbs : list PostEnterCb)
    (hook : NavigationGuard) (rest : list (option NavigationGuard)) (h : History) :
  nextId (iterator t stage cbs hook rest h) = nextId h.
Proof.
  destruct (iterator_cases t stage cbs hook rest h) as [[_ ->]|[_ ->]]; [done|].
  by destruct (abort_sameCore t VUndefined h) as (_ & _ & _ & ? & _).
Qed.

Lemma secondQueueDone_nextId (t : Transition) (cbs : list PostEnterCb) (h : History) :
  nextId (secondQueueDone t cbs h) = nextId h.
Proof.
  destruct (secondQueueDone_cases t cbs h) as [[_ ->]|[_ ->]].
  - cbv zeta. destruct (onComplete_core t (setPending None h))
      as (_ & _ & _ & Hn & _ & _). destruct (app _); fields; by rewrite Hn.
  - by destruct (abort_sameCore t VUndefined h) as (_ & _ & _ & ? & _).
Qed.

Lemma firstQueueDone_nextId (t : Transition) (h : History) :
  nextId (firstQueueDone t h) = nextId h.
Proof.
  unfold Router.firstQueueDone. apply runQueue_cases.
  - intros hook rest. apply iterator_nextId.
  - apply secondQueueDone_nextId.
Qed.

Lemma abort_nextId (t : Transition) (err : Value) (h : History) :
  nextId (abort t err h) = nextId h.
Proof. by destruct (abort_sameCore t err h) as (_ & _ & _ & ? & _). Qed.

Lemma transitionTo_nextId (location : RawLocation)
    (onComplete : option OnComplete) (onAbort : option Fn) (h : History) :
  nextId (transitionTo location onComplete onAbort h) = S (nextId h).
Proof.
  destruct (transitionTo_cases location onComplete onAbort h)
    as [(route & _ & ->)|(e & _ & ->)]; [|done].
  unfold Router.confirmTransition. fields.
  destruct (_ && _).
  - by rewrite abort_nextId.
  - apply runQueue_cases;
      [intros hook rest; by rewrite iterator_nextId
      |by rewrite firstQueueDone_nextId].
Qed.

Lemma step_nextId (h : History) (i : Input) : (nextId h ≤ nextId (step h i))%nat.
Proof.
  pose proof abort_nextId as Habort.
  destruct i as [location c' a'|location c' a'|location c' a'|f|f e|e|fn|fn|fn
                |fn|fn|fn|inst|id to|id e]; simpl;
    try (unfold Router.push, Router.replace; rewrite transitionTo_nextId; lia);
    try done.
  - unfold onReady. by destruct (ready h).
  - destruct (takeSuspended id (suspended h)) as [[s l]|]; [|done].
    unfold Router.next. destruct (isFalse to || isError to); [by rewrite Habort|].
    destruct (isRedirect to).
    + destruct to as [| | |l'| |]; try destruct (loc_replace l');
        unfold Router.push, Router.replace; rewrite transitionTo_nextId, Habort;
        fields; lia.
    + apply runQueue_cases.
      * intros hook rest. by rewrite iterator_nextId.
      * destruct (s_stage s);
          [by rewrite firstQueueDone_nextId|by rewrite secondQueueDone_nextId].
  - destruct (takeSuspended id (suspended h)) as [[s l]|]; [|done].
    unfold guardThrew. by rewrite Habort.
Qed.

Lemma run_ordered (a : nat) (before queue : list NavigationGuard)
    (h : History) (inputs : list Input) :
  wellFormed h → (a < nextId h)%nat →
  ordered a before queue h → ordered a before queue (run h inputs).
Proof.
  revert h. induction inputs as [|i inputs IH]; intros h Hwf Hlt Hord; [done|].
  simpl. apply IH.
  - by apply step_wellFormed.
  - pose proof (step_nextId h i). lia.
  - by apply step_ordered.
Qed.

End HistoryFacts.

(** ** Navigations that have not committed *)

Lemma uncommitted_report (h h' : History) (events : list Event) :
  suspended h' = suspended h → (nextId h ≤ nextId h')%nat →
  trace h' = trace h ++ events → (∀ a, commits a events = []) →
  uncommitted h → uncommitted h'.
Proof.
  intros Hs Hn Htr Hev Hun a Ha. rewrite Htr, commits_app, Hev, app_nil_r.
  apply Hun. rewrite <- Hs. destruct Ha; [left; lia|by right].
Qed.

Lemma abort_uncommitted (t : Transition) (err : Value) (h : History) :
  uncommitted h → uncommitted (abort t err h).
Proof.
  destruct (abort_sameCore t err h) as (_ & _ & Hs & Hn & _).
  apply (uncommitted_report h _ (abortCalls t err h));
    [done|lia|apply abort_trace|intros; apply commits_abortCalls].
Qed.

Lemma iterator_uncommitted (t : Transition) (stage : Stage)
    (cbs : list PostEnterCb) (hook : NavigationGuard)
    (rest : list (option NavigationGuard)) (h : History) :
  uncommitted h → commits (oid (t_route t)) (trace h) = [] →
  uncommitted (iterator t stage cbs hook rest h).
Proof.
  intros Hun Ht.
  destruct (iterator_cases t stage cbs hook rest h) as [[_ ->]|[_ ->]];
    [|by apply abort_uncommitted].
  intros a Ha. fields. rewrite commits_app.
  assert (commits a [EvGuard hook (t_route t) (t_current t)] = []) as ->
    by reflexivity.
  rewrite app_nil_r. rewrite fmap_app, elem_of_app in Ha.
  destruct Ha as [Ha|[Ha|Ha]]; [apply Hun; by left|apply Hun; by right|].
  apply list_elem_of_singleton in Ha. fields. by subst a.
Qed.

Lemma secondQueueDone_uncommitted (t : Transition) (cbs : list PostEnterCb)
    (h : History) :
  uncommitted h → (oid (t_route t) < nextId h)%nat →
  oid (t_route t) ∉ (sid <$> suspended h) →
  uncommitted (secondQueueDone t cbs h).
Proof.
  intros Hun Hlt Hnot.
  destruct (secondQueueDone_cases t cbs h) as [[_ ->]|[_ ->]];
    [|by apply abort_uncommitted]. cbv zeta.
  destruct (onComplete_core t (setPending None h))
    as (_ & _ & Hs & Hn & _ & _).
  pose proof (onComplete_trace t (setPending None h)) as Htr. fields.
  assert (uncommitted (onComplete t (setPending None h))) as Hdone.
  { intros a Ha. rewrite Hs, Hn in Ha. rewrite Htr, commits_app.
    rewrite commits_completeCalls, app_nil_r; [by apply Hun|].
    destruct Ha as [Ha|Ha]; [lia|]. by intros <-. }
  destruct (app _); [|done].
  intros a Ha. fields. rewrite commits_app, (Hdone a) by exact Ha.
  rewrite Hs, Hn in Ha. unfold commits. rewrite filter_cons_False; [done|].
  simpl. rewrite bool_decide_eq_false_2; [done|].
  destruct Ha as [Ha|Ha]; [lia|]. by intros <-.
Qed.

Section EngineTheorems.

Variable router_match : RawLocation -> RouteObject -> result Route.
Variable sameRecord : RouteRecord -> RouteRecord -> bool.
Variable isSameRoute : RouteObject -> RouteObject -> bool.
Variable extractGuard : option Component -> string -> GuardOption.

Local Abbreviation firstQueueDone := (firstQueueDone extractGuard).
Local Abbreviation transitionTo :=
  (transitionTo router_match sameRecord isSameRoute extractGuard).
Local Abbreviation next := (next router_match sameRecord isSameRoute extractGuard).
Local Abbreviation step := (step router_match sameRecord isSameRoute extractGuard).
Local Abbreviation run := (run router_match sameRecord isSameRoute extractGuard).
Local Abbreviation reachable :=
  (reachable router_match sameRecord isSameRoute extractGuard).

Lemma firstQueueDone_uncommitted (t : Transition) (h : History) :
  uncommitted h → commits (oid (t_route t)) (trace h) = [] →
  (oid (t_route t) < nextId h)%nat →
  oid (t_route t) ∉ (sid <$> suspended h) →
  uncommitted (firstQueueDone t h).
Proof.
  intros Hun Ht Hlt Hnot. unfold Router.firstQueueDone. apply runQueue_cases.
  - intros hook rest. by apply iterator_uncommitted.
  - by apply secondQueueDone_uncommitted.
Qed.

Lemma transitionTo_uncommitted (location : RawLocation)
    (onComplete : option OnComplete) (onAbort : option Fn) (h : History) :
  uncommitted h → (∀ s, s ∈ suspended h → (sid s < nextId h)%nat) →
  uncommitted (transitionTo location onComplete onAbort h).
Proof.
  intros Hun Hold.
  destruct (transitionTo_cases router_match sameRecord isSameRoute extractGuard
              location onComplete onAbort h)
    as [(route & _ & ->)|(e & _ & ->)].
  2:{ apply (uncommitted_report h _ [EvRaise e]); fields;
        [done|lia|done|done|done]. }
  unfold Router.confirmTransition. fields.
  destruct (_ && _).
  - apply abort_uncommitted.
    apply (uncommitted_report h _ [EvEnsureURL false]); fields;
      [done|lia|done|done|done].
  - assert (uncommitted
              (setPending
                 (Some {| oid := nextId h; val := route |})
                 (setNextId (S (nextId h)) h))) as Hun'.
    { apply (uncommitted_report h _ []); fields;
        [done|lia|by rewrite app_nil_r|done|done]. }
    assert (nextId h ∉ (sid <$> suspended h)) as Hfresh.
    { intros (s & Heq & Hs)%list_elem_of_fmap. specialize (Hold s Hs). lia. }
    apply runQueue_cases;
      [intros hook rest; apply iterator_uncommitted
      |apply firstQueueDone_uncommitted]; fields;
      try done; try lia; apply Hun; by left.
Qed.

Lemma next_uncommitted (s : Suspended) (to : Value) (h : History) :
  uncommitted h → commits (sid s) (trace h) = [] →
  (sid s < nextId h)%nat → sid s ∉ (sid <$> suspended h) →
  (∀ s', s' ∈ suspended h → (sid s' < nextId h)%nat) →
  uncommitted (next s to h).
Proof.
  intros Hun Hs Hlt Hnot Hold. unfold Router.next.
  destruct (isFalse to || isError to).
  { apply abort_uncommitted.
    apply (uncommitted_report h _ [EvEnsureURL true]); fields;
      [done|lia|done|done|done]. }
  destruct (isRedirect to).
  { pose proof (abort_uncommitted (s_transition s) VUndefined h Hun) as Hab.
    pose proof (abort_sameCore (s_transition s) VUndefined h)
      as (_ & _ & Hsu & Hn & _).
    destruct to as [| | |l| |]; try destruct (loc_replace l);
      (apply transitionTo_uncommitted; [exact Hab|by rewrite Hsu, Hn]). }
  apply runQueue_cases.
  - intros hook rest. by apply iterator_uncommitted.
  - destruct (s_stage s);
      [by apply firstQueueDone_uncommitted|by apply secondQueueDone_uncommitted].
Qed.

Lemma step_uncommitted (h : History) (i : Input) :
  wellFormed h → uncommitted h → uncommitted (step h i).
Proof.
  intros Hwf Hun.
  assert (∀ s l, takeSuspended (sid s) (suspended h) = Some (s, l) →
            uncommitted (setSuspended l h)
            ∧ commits (sid s) (trace h) = []
            ∧ (sid s < nextId h)%nat ∧ (sid s ∉ (sid <$> l))
            ∧ ∀ s', s' ∈ l → (sid s' < nextId h)%nat) as Htake.
  { intros s l (_ & l1 & l2 & Hl & ->)%takeSuspended_Some.
    destruct (setSuspended_wellFormed s l1 l2 h Hwf Hl)
      as ((_ & Hold & _) & Hlt & Hnot & _).
    fields. repeat split; try done.
    - intros a Ha. fields. apply Hun. destruct Ha as [Ha|Ha]; [by left|right].
      rewrite Hl. revert Ha. rewrite !fmap_app, fmap_cons, !elem_of_app,
        elem_of_cons. tauto.
    - apply Hun. right. rewrite Hl, fmap_app, fmap_cons, elem_of_app,
        elem_of_cons. auto. }
  destruct i as [location c' a'|location c' a'|location c' a'|f|f e|e|fn|fn|fn
                |fn|fn|fn|inst|id to|id e]; simpl;
    try (by apply transitionTo_uncommitted; [|apply Hwf]);
    try (intros a Ha; fields; by apply Hun).
  - unfold onReady. destruct (ready h).
    + by apply (uncommitted_report h _ [EvReadyCb f None]).
    + intros a Ha; fields; by apply Hun.
  - destruct (takeSuspended id (suspended h)) as [[s l]|] eqn:Hs; [|done].
    assert (sid s = id) as <- by (by apply takeSuspended_Some in Hs as [? _]).
    destruct (Htake s l Hs) as (Hun' & Hc & Hlt & Hnot & Hold).
    by apply next_uncommitted.
  - destruct (takeSuspended id (suspended h)) as [[s l]|] eqn:Hs; [|done].
    assert (sid s = id) as <- by (by apply takeSuspended_Some in Hs as [? _]).
    destruct (Htake s l Hs) as (Hun' & _). by apply abort_uncommitted.
Qed.

Lemma run_uncommitted (h : History) (inputs : list Input) :
  wellFormed h → uncommitted h → uncommitted (run h inputs).
Proof.
  revert h. induction inputs as [|i inputs IH]; intros h Hwf Hun; [done|].
  simpl. apply IH; [by apply step_wellFormed|by apply step_uncommitted].
Qed.

Lemma reachable_uncommitted (h : History) : reachable h → uncommitted h.
Proof.
  intros Hreach. pose proof Hreach as (router & START & inputs & ->).
  apply run_uncommitted; [|by intros a _].
  apply (reachable_wellFormed router_match sameRecord isSameRoute extractGuard).
  by exists router, START, [].
Qed.

(** The leave guards of a chain of records come last record first, the
    update hooks first record first. *)
Lemma flatMapComponents_app {A : Type} (rs1 rs2 : list RouteRecord)
    (instances : RouteRecord → string → option Instance)
    (fn : option Component → option Instance → RouteRecord → string → A) :
  flatMapComponents (rs1 ++ rs2) instances fn
  = flatMapComponents rs1 instances fn ++ flatMapComponents rs2 instances fn.
Proof. unfold flatMapComponents. by rewrite fmap_app, concat_app. Qed.

Lemma extractLeaveGuards_app (instances : RouteRecord → string → option Instance)
    (rs1 rs2 : list RouteRecord) :
  extractLeaveGuards extractGuard instances (rs1 ++ rs2)
  = extractLeaveGuards extractGuard instances rs2
    ++ extractLeaveGuards extractGuard instances rs1.
Proof.
  unfold extractLeaveGuards, extractGuards, flatten.
  by rewrite flatMapComponents_app, rev_app_distr, concat_app.
Qed.

Lemma extractUpdateHooks_app (instances : RouteRecord → string → option Instance)
    (rs1 rs2 : list RouteRecord) :
  extractUpdateHooks extractGuard instances (rs1 ++ rs2)
  = extractUpdateHooks extractGuard instances rs1
    ++ extractUpdateHooks extractGuard instances rs2.
Proof.
  unfold extractUpdateHooks, extractGuards, flatten.
  by rewrite flatMapComponents_app, concat_app.
Qed.

(** The guards that [extractGuards] binds for one view are the guards of
    the view, bound to its instance. *)
Lemma bound_viewGuards (instances : RouteRecord → string → option Instance)
    (name : string) (m : RouteRecord) (view : string * option Component) :
  guardsOf (match extractGuard view.2 name with
            | NoGuard => [None]
            | OneGuard guard => [bindGuard guard (instances m view.1) m view.1]
            | GuardArray guards =>
                (fun guard => bindGuard guard (instances m view.1) m view.1)
                  <$> guards
            end)
  = viewGuards extractGuard instances name m view.
Proof.
  unfold viewGuards, guardsOf, bindGuard.
  destruct (instances m view.1) as [i|], (extractGuard view.2 name)
    as [|guard|guards]; try done.
  - cbn [guardList]. induction guards as [|g guards IH]; [done|].
    rewrite !fmap_cons. cbn [omap list_omap id]. by rewrite IH.
  - induction guards as [|g guards IH]; [done|].
    rewrite fmap_cons. cbn [omap list_omap id]. exact IH.
Qed.

(** Stage (a) of the queue, as the specification words it. *)
Lemma extractLeaveGuards_reverse
    (instances : RouteRecord → string → option Instance)
    (records : list RouteRecord) :
  guardsOf (extractLeaveGuards extractGuard instances records)
  = leaveGuardsInReverse extractGuard instances records.
Proof.
  induction records as [|m records IH]; [done|].
  rewrite (extractLeaveGuards_app instances [m] records : 
             extractLeaveGuards extractGuard instances (m :: records) = _).
  unfold guardsOf in *. rewrite omap_app, IH.
  cbn [leaveGuardsInReverse]. f_equal.
  unfold extractLeaveGuards, extractGuards, flatten, flatMapComponents.
  cbn [fmap list_fmap concat]. rewrite app_nil_r.
  induction (rec_components m) as [|view views IHv]; [done|].
  rewrite fmap_cons, reverse_cons, bind_app. cbn [rev].
  rewrite concat_app, omap_app, IHv. f_equal.
  cbn [concat mbind list_bind]. rewrite !app_nil_r.
  apply (bound_viewGuards instances "beforeRouteLeave" m view).
Qed.

(** Stage (c) of the queue, as the specification words it. *)
Lemma extractUpdateHooks_forward
    (instances : RouteRecord → string → option Instance)
    (records : list RouteRecord) :
  guardsOf (extractUpdateHooks extractGuard instances records)
  = updateHooksInOrder extractGuard instances records.
Proof.
  induction records as [|m records IH]; [done|].
  rewrite (extractUpdateHooks_app instances [m] records : 
             extractUpdateHooks extractGuard instances (m :: records) = _).
  unfold guardsOf in *. rewrite omap_app, IH.
  cbn [updateHooksInOrder]. f_equal.
  unfold extractUpdateHooks, extractGuards, flatten, flatMapComponents.
  cbn [fmap list_fmap concat]. rewrite app_nil_r.
  induction (rec_components m) as [|view views IHv]; [done|].
  rewrite fmap_cons. cbn [concat mbind list_bind].
  rewrite omap_app, IHv. f_equal.
  apply (bound_viewGuards instances "beforeRouteUpdate" m view).
Qed.

(** The first queue of a navigation between two chains that share their
    first records: the five stages, as the specification words them. *)
Lemma guardQueue_stages (h : History) (common rest rest' : list RouteRecord) :
  (∀ x, x ∈ common → sameRecord x x = true) →
  match rest, rest' with
  | x :: _, y :: _ => sameRecord x y = false
  | _, _ => True
  end →
  guardsOf (guardQueue extractGuard h
              (resolveQueue sameRecord (common ++ rest) (common ++ rest')))
  = leaveGuardsInReverse extractGuard (instances h) rest
    ++ (HookFn <$> beforeHooks (router h))
    ++ updateHooksInOrder extractGuard (instances h) common
    ++ omap (fun m => HookFn <$> rec_beforeEnter m) rest'
    ++ [ResolveAsyncComponents rest'].
Proof.
  intros Hrefl Hdiff.
  unfold Router.guardQueue, resolveQueue. cbv zeta.
  cbn [updated activated deactivated].
  rewrite (firstDifference_prefix sameRecord common rest rest' Hrefl Hdiff).
  rewrite !take_app_length, !drop_app_length.
  unfold guardsOf. rewrite !omap_app.
  fold (guardsOf (extractLeaveGuards extractGuard (instances h) rest)).
  fold (guardsOf (extractUpdateHooks extractGuard (instances h) common)).
  rewrite extractLeaveGuards_reverse, extractUpdateHooks_forward.
  assert (∀ l : list Fn, omap id (Some ∘ HookFn <$> l) = HookFn <$> l) as ->.
  { induction l as [|f l IH]; [done|].
    rewrite !fmap_cons. cbn [omap list_omap id compose]. by rewrite IH. }
  assert (∀ l : list RouteRecord,
            omap id ((fun m => HookFn <$> rec_beforeEnter m) <$> l)
            = omap (fun m => HookFn <$> rec_beforeEnter m) l) as ->; [|done].
  induction l as [|m l IH]; [done|].
  rewrite fmap_cons. cbn [omap list_omap id]. by rewrite IH.
Qed.

(** What [transitionTo] does with what [match] gave. *)
Lemma transitionTo_returned (location : RawLocation) (route : Route)
    (onComplete : option OnComplete) (onAbort : option Fn) (h : History) :
  router_match location (current h) = Ok route →
  transitionTo location onComplete onAbort h
  = confirmTransition sameRecord isSameRoute extractGuard (candidate route h)
      onComplete onAbort (setNextId (S (nextId h)) h).
Proof. intros Hmatch. unfold Router.transitionTo. by rewrite Hmatch. Qed.

Lemma transitionTo_raised (location : RawLocation) (e : Exception)
    (onComplete : option OnComplete) (onAbort : option Fn) (h : History) :
  router_match location (current h) = Throw e →
  transitionTo location onComplete onAbort h
  = emit [EvRaise e] (setNextId (S (nextId h)) h).
Proof. intros Hmatch. unfold Router.transitionTo. by rewrite Hmatch. Qed.

(** A navigation that is not a duplicate becomes the pending one, and the
    navigations that had a guard in flight cannot commit any more. *)
Lemma transitionTo_pending (location : RawLocation) (route : Route)
    (onComplete : option OnComplete) (onAbort : option Fn) (h : History) :
  router_match location (current h) = Ok route →
  isSameRoute (candidate route h) (current h)
  && bool_decide (length (r_matched (val (candidate route h)))
                  = length (r_matched (val (current h)))) = false →
  pendingIs (nextId h) (transitionTo location onComplete onAbort h).
Proof.
  intros Hmatch Hdup. rewrite (transitionTo_returned _ _ _ _ _ Hmatch).
  unfold Router.confirmTransition.
  unfold candidate in *. fields. rewrite Hdup. unfold Router.guardQueue.
  match goal with
  | |- pendingIs _ (runQueue ?q ?fn ?cb ?s) =>
      destruct (runQueue_guardsOf q fn cb s) as [[Hq _]|(hook & rest & _ & ->)]
  end.
  - exfalso. unfold guardsOf in Hq. rewrite !omap_app in Hq.
    by repeat apply app_eq_nil in Hq as [_ Hq].
  - match goal with
    | |- pendingIs _ (iterator ?t ?st ?cbs hook rest ?s) =>
        destruct (iterator_cases t st cbs hook rest s) as [[_ ->]|[Hp _]]
    end.
    + unfold pendingIs. fields. by eexists.
    + exfalso. apply Hp. unfold pendingIs. fields. by eexists.
Qed.

Lemma transitionTo_supersedes (a : nat) (location : RawLocation) (route : Route)
    (onComplete : option OnComplete) (onAbort : option Fn) (h : History) :
  router_match location (current h) = Ok route →
  isSameRoute (candidate route h) (current h)
  && bool_decide (length (r_matched (val (candidate route h)))
                  = length (r_matched (val (current h)))) = false →
  (a < nextId h)%nat → oid (current h) ≠ a →
  staysSpent a h (transitionTo location onComplete onAbort h).
Proof.
  intros Hmatch Hdup Hlt Hcur. rewrite (transitionTo_returned _ _ _ _ _ Hmatch).
  unfold Router.confirmTransition.
  unfold candidate in *. fields. rewrite Hdup.
  assert (staysSpent a h
            (setPending
               (Some {| oid := nextId h; val := route |})
               (setNextId (S (nextId h)) h))) as Hst.
  { unfold staysSpent, spent, pendingIs. fields. repeat split; try done; [lia|].
    intros (p & [= <-] & Hp). simpl in Hp. lia. }
  eapply staysSpent_trans; [exact Hst|].
  apply runQueue_cases;
    [intros hook rest; apply iterator_staysSpent
    |apply firstQueueDone_staysSpent]; try apply Hst;
    fields; intros Heq; lia.
Qed.

(** C8.  A navigation whose candidate route, made of the route that [match]
    returned, is the same as the current one,
    with as many matched records, aborts at once: the URL is asked to be
    replaced, not pushed; the duplicate-navigation error goes to the
    caller's abort callback and, while the history is not ready, to the
    ready-error callbacks, never to the error observers; no guard is called,
    and the current route, the pending route and the guards in flight stay
    as they were. *)
Theorem duplicate_navigation_aborts (location : RawLocation) (route : Route)
    (onComplete : option OnComplete) (onAbort : option Fn) (h : History) :
  router_match location (current h) = Ok route →
  isSameRoute (candidate route h) (current h) = true →
  length (r_matched (val (candidate route h)))
  = length (r_matched (val (current h))) →
  let err := VError (NavigationDuplicated (candidate route h)) in
  let h' := transitionTo location onComplete onAbort h in
  trace h' = trace h ++ [EvEnsureURL false]
             ++ ((fun f => EvOnAbort f err) <$> option_list onAbort)
             ++ (if ready h then []
                 else (fun f => EvReadyErrorCb f err) <$> readyErrorCbs h)
  ∧ current h' = current h ∧ pending h' = pending h
  ∧ suspended h' = suspended h.
Proof.
  intros Hmatch Hsame Hlen. cbv zeta.
  rewrite (transitionTo_returned _ _ _ _ _ Hmatch).
  unfold Router.confirmTransition.
  unfold candidate in *. fields. rewrite Hsame, bool_decide_eq_true_2 by done.
  cbn [andb].
  match goal with
  | |- context [abort ?t ?e ?s] =>
      destruct (abort_sameCore t e s) as (Hc & Hp & Hs & _);
      pose proof (abort_trace t e s) as Htr
  end.
  fields. split; [|by rewrite Hc, Hp, Hs].
  rewrite Htr. unfold abortCalls. fields. cbn [isNavigationDuplicated isError
    truthyValue negb andb app]. rewrite <- app_assoc. by destruct (ready h).
Qed.

(** C9.  When a guard of either queue answers with false or with an error
    value, the navigation is aborted: the URL is asked to be restored, the
    abort callback is called with the answer, an error value that is not a
    duplicate-navigation error is handed to every error observer, and the
    call leaves the current route as it was, which is the route from before
    the navigation started if the navigation is still the pending one.  The
    navigation never commits, before or after: no call tells of a commit to
    its target, and its target never is the current route. *)
Theorem guard_abort_keeps_current (h : History) (s : Suspended)
    (l : list Suspended) (to : Value) :
  reachable h →
  takeSuspended (sid s) (suspended h) = Some (s, l) →
  isFalse to || isError to = true →
  let t := s_transition s in
  let h' := step h (GuardNext (sid s) to) in
  trace h' = trace h ++ EvEnsureURL true :: abortCalls t to h
  ∧ (∀ f, t_onAbort t = Some f → EvOnAbort f to ∈ trace h')
  ∧ (isError to = true → isNavigationDuplicated to = false →
     ∀ f, f ∈ errorCbs h → EvErrorCb f to ∈ trace h')
  ∧ current h' = current h
  ∧ (pendingIs (sid s) h → current h' = t_current t)
  ∧ ∀ inputs, commits (sid s) (trace (run h' inputs)) = []
              ∧ oid (current (run h' inputs)) ≠ sid s.
Proof.
  intros Hreach Htake Hto. cbv zeta.
  pose proof (reachable_wellFormed _ _ _ _ h Hreach) as Hwf.
  pose proof (reachable_uncommitted h Hreach) as Hun.
  pose proof Htake as (_ & l1 & l2 & Hl & ->)%takeSuspended_Some.
  destruct (setSuspended_wellFormed s l1 l2 h Hwf Hl)
    as (Hwf' & Hlt & Hnot & Hne & _).
  assert (s ∈ suspended h) as Hin.
  { rewrite Hl, elem_of_app, elem_of_cons. auto. }
  cbn [Router.step]. rewrite Htake. unfold Router.next. rewrite Hto.
  match goal with
  | |- context [abort ?t ?e ?s] =>
      destruct (abort_sameCore t e s) as (Hc & Hp & Hs & Hn & _);
      pose proof (abort_trace t e s) as Htr;
      set (h' := abort t e s) in *
  end.
  fields.
  assert (abortCalls (s_transition s) to
            (ensureURL true (setSuspended (l1 ++ l2) h))
          = abortCalls (s_transition s) to h) as Hcalls by reflexivity.
  rewrite Hcalls, <- app_assoc in Htr. cbn [app] in Htr.
  split; [exact Htr|]. split; [|split; [|split; [|split]]].
  - intros f Hf. rewrite Htr. apply elem_of_app. right.
    apply elem_of_cons. right. unfold abortCalls.
    rewrite Hf, !elem_of_app. right. left.
    apply list_elem_of_here.
  - intros Herr Hdup f Hf. rewrite Htr. apply elem_of_app. right.
    apply elem_of_cons. right. unfold abortCalls.
    rewrite Herr, Hdup, !elem_of_app. left. cbn [negb andb].
    destruct (errorCbs h) as [|x cbs] eqn:Hcbs; [by apply elem_of_nil in Hf|].
    rewrite <- Hcbs. apply list_elem_of_fmap. exists f.
    split; [done|by rewrite Hcbs].
  - exact Hc.
  - intros Hpend. rewrite Hc. symmetry.
    destruct Hwf as (_ & _ & _ & _ & Hfrom). by apply Hfrom.
  - intros inputs.
    assert (spent (sid s) h') as Hspent.
    { unfold spent, pendingIs. rewrite Hc, Hp, Hs, Hn. fields.
      repeat split; try done. }
    destruct (run_staysSpent router_match sameRecord isSameRoute extractGuard
                (sid s) h' inputs Hspent) as ((_ & Hcur & _) & Heq).
    split; [|exact Hcur].
    rewrite Heq, Htr, commits_app.
    change (EvEnsureURL true :: abortCalls (s_transition s) to h)
      with ([EvEnsureURL true] ++ abortCalls (s_transition s) to h).
    rewrite commits_app, commits_abortCalls.
    rewrite (Hun (sid s)); [done|]. right. apply list_elem_of_fmap. by exists s.
Qed.

(** C1.  A navigation A has a guard in flight and a navigation B is started.
    When [match] returns a route for B and B is not a duplicate of the
    current route, B becomes the pending navigation, and A never commits,
    whatever happens next: no call tells of a commit to its target, and its
    target never is the current route.  This is so because every step of a
    guard queue, and the callback at its end, aborts when the navigation is
    not the pending one.  When [match] raises for B, the exception leaves
    [transitionTo] before anything is written: the current route, the
    pending navigation and the guards in flight stay as they were. *)
Theorem superseded_navigation_cannot_commit (h : History) (a : nat)
    (location : RawLocation) (onComplete : option OnComplete)
    (onAbort : option Fn) :
  reachable h →
  a ∈ (sid <$> suspended h) →
  let h' := transitionTo location onComplete onAbort h in
  (∀ route,
     router_match location (current h) = Ok route →
     isSameRoute (candidate route h) (current h)
     && bool_decide (length (r_matched (val (candidate route h)))
                     = length (r_matched (val (current h)))) = false →
     pendingIs (nextId h) h'
     ∧ ∀ inputs, commits a (trace (run h' inputs)) = []
                 ∧ oid (current (run h' inputs)) ≠ a)
  ∧ (∀ e,
       router_match location (current h) = Throw e →
       trace h' = trace h ++ [EvRaise e]
       ∧ current h' = current h ∧ pending h' = pending h
       ∧ suspended h' = suspended h)
  ∧ (∀ t stage cbs hook rest h2,
       ¬ pendingIs (oid (t_route t)) h2 →
       iterator t stage cbs hook rest h2 = abort t VUndefined h2)
  ∧ (∀ t cbs h2,
       ¬ pendingIs (oid (t_route t)) h2 →
       secondQueueDone t cbs h2 = abort t VUndefined h2).
Proof.
  intros Hreach Ha. cbv zeta.
  pose proof (reachable_wellFormed _ _ _ _ h Hreach)
    as (_ & Hold & _ & Hnot & _).
  pose proof (reachable_uncommitted h Hreach) as Hun.
  split; [|split; [|split]].
  - intros route Hmatch Hdup.
    split; [by apply (transitionTo_pending location route)|].
    intros inputs.
    assert ((a < nextId h)%nat) as Hlt.
    { apply list_elem_of_fmap in Ha as (s & -> & Hs). by apply Hold. }
    assert (oid (current h) ≠ a) as Hcur.
    { intros Heq. apply Hnot. by rewrite Heq. }
    pose proof (transitionTo_supersedes a location route onComplete onAbort h
                  Hmatch Hdup Hlt Hcur) as (Hspent & Heq).
    destruct (run_staysSpent router_match sameRecord isSameRoute extractGuard
                a _ inputs Hspent) as ((_ & Hcur' & _) & Heq').
    split; [|exact Hcur']. rewrite Heq', Heq. apply Hun. by right.
  - intros e Hmatch. rewrite (transitionTo_raised _ _ _ _ _ Hmatch).
    by fields.
  - intros t stage cbs hook rest h2 Hp.
    by destruct (iterator_cases t stage cbs hook rest h2) as [[? _]|[_ ->]].
  - intros t cbs h2 Hp.
    by destruct (secondQueueDone_cases t cbs h2) as [[? _]|[_ ->]].
Qed.


End EngineTheorems.

(** ** The history at work on the table of [viewRoutes] *)

Lemma duplicate_navigation_aborts_witness :
  let h' := sampleStep atHome
              (CallTransitionTo (RawString "/home") (Some 21) (Some 22)) in
  trace h' = trace atHome
             ++ [EvEnsureURL false;
                 EvOnAbort 22 (VError (NavigationDuplicated
                                         (candidate
                                            (sampleRoute (RawString "/home") atHome)
                                            atHome)))]
  ∧ current h' = current atHome.
Proof.
  destruct (duplicate_navigation_aborts sampleRouterMatch sampleSameRecord
              sampleIsSameRoute sampleExtractGuard (RawString "/home")
              (sampleRoute (RawString "/home") atHome)
              (Some (CompleteFn 21)) (Some 22) atHome)
    as (Htrace & Hcurrent & _).
  - vm_compute. reflexivity.
  - vm_compute. reflexivity.
  - vm_compute. reflexivity.
  - split; [exact Htrace|exact Hcurrent].
Defined.

(** The before hook of the navigation to [/a] answers false. *)
Lemma guard_abort_keeps_current_witness :
  let h' := sampleStep leavingHome (GuardNext 2 (VBool false)) in
  EvOnAbort 12 (VBool false) ∈ trace h'
  ∧ current h' = current atHome
  ∧ commits 2 (trace (sampleRun h' [GuardNext 2 VUndefined])) = [].
Proof.
  destruct (guard_abort_keeps_current sampleRouterMatch sampleSameRecord
              sampleIsSameRoute sampleExtractGuard leavingHome waiting []
              (VBool false))
    as (_ & Habort & _ & _ & Hcurrent & Hnever).
  - exists sampleRouter, sampleSTART,
      [CallTransitionTo (RawString "/home") None None;
       GuardNext 1 VUndefined; GuardNext 1 VUndefined;
       CallTransitionTo (RawString "/a") (Some 11) (Some 12)].
    vm_compute. reflexivity.
  - vm_compute. reflexivity.
  - reflexivity.
  - split; [by apply Habort|]. split.
    + apply Hcurrent. exists (t_route toA). split; vm_compute; reflexivity.
    + apply (Hnever [GuardNext 2 VUndefined]).
Defined.

(** A navigation to [/b] is started while the navigation to [/a] waits in the
    before hook; the hook of the first one answers, and the second one goes
    on. *)
Lemma superseded_navigation_cannot_commit_witness :
  let h' := sampleStep leavingHome
              (CallTransitionTo (RawString "/b") (Some 21) (Some 22)) in
  let hf := sampleRun h' [GuardNext 2 VUndefined; GuardNext 3 VUndefined;
                          GuardNext 3 VUndefined] in
  pendingIs 3 h' ∧ commits 2 (trace hf) = [] ∧ oid (current hf) ≠ 2.
Proof.
  destruct (superseded_navigation_cannot_commit sampleRouterMatch
              sampleSameRecord sampleIsSameRoute sampleExtractGuard
              leavingHome 2 (RawString "/b") (Some (CompleteFn 21)) (Some 22))
    as (Hreturned & _).
  - exists sampleRouter, sampleSTART,
      [CallTransitionTo (RawString "/home") None None;
       GuardNext 1 VUndefined; GuardNext 1 VUndefined;
       CallTransitionTo (RawString "/a") (Some 11) (Some 12)].
    vm_compute. reflexivity.
  - vm_compute. apply list_elem_of_here.
  - destruct (Hreturned (sampleRoute (RawString "/b") leavingHome))
      as (Hpending & Hnever).
    + vm_compute. reflexivity.
    + vm_compute. reflexivity.
    + split; [exact Hpending|].
      apply (Hnever [GuardNext 2 VUndefined; GuardNext 3 VUndefined;
                     GuardNext 3 VUndefined]).
Defined.


(** Where C1 fails as the specification words it: the second navigation is a
    duplicate of the current route.  The navigation to [/a], route object 2,
    waits in the before hook when the navigation to [/home], route object 3,
    is started; the second one aborts as a duplicate, the first one stays
    pending, and when its guards have answered it commits and its completion
    callback is called. *)
Lemma duplicate_does_not_supersede :
  let h' := sampleStep leavingHome
              (CallTransitionTo (RawString "/home") (Some 21) (Some 22)) in
  let hf := sampleRun h' [GuardNext 2 VUndefined; GuardNext 2 VUndefined;
                          GuardNext 2 VUndefined] in
  2 ∈ (sid <$> suspended leavingHome)
  ∧ nextId leavingHome = 3
  ∧ oid (current hf) = 2
  ∧ EvOnComplete 11 (t_route toA) ∈ trace hf
  ∧ commits 3 (trace hf) = [].
Proof.
  cbv zeta. split; [vm_compute; apply list_elem_of_here|].
  split; [reflexivity|]. split; [reflexivity|].
  split; [|vm_compute; reflexivity].
  vm_compute. repeat (apply list_elem_of_here || apply list_elem_of_further).
Qed.

(** Where C9 fails as the specification words it: another navigation
    commits while the guard is in flight.  The navigation to [/a], route
    object 2, waits in the before hook; the navigation to [/b], route
    object 3, is started and commits; then the hook of the first one answers
    false.  The abort callback of the first navigation is called, and the
    current route is [/b], not the route from before the first navigation
    started. *)
Lemma abort_after_other_commit :
  let h' := sampleRun leavingHome
              [CallTransitionTo (RawString "/b") (Some 21) (Some 22);
               GuardNext 3 VUndefined; GuardNext 3 VUndefined] in
  let hf := sampleStep h' (GuardNext 2 (VBool false)) in
  takeSuspended 2 (suspended h') = Some (waiting, [])
  ∧ t_current toA = current atHome
  ∧ trace hf = trace h' ++ [EvEnsureURL true; EvOnAbort 12 (VBool false)]
  ∧ r_path (val (current hf)) = "/b"
  ∧ r_path (val (current atHome)) = "/home"
  ∧ current hf ≠ current atHome.
Proof.
  cbv zeta. repeat split; try (vm_compute; reflexivity).
  intros Heq. apply (f_equal oid) in Heq. vm_compute in Heq. discriminate.
Qed.

(** A navigation whose match raises does not supersede either.  The
    navigation to [/a], route object 2, waits in the before hook when a
    navigation to [/user/%] is started; decoding the segment raises, the
    exception leaves [transitionTo], the first navigation stays pending, and
    when its guards have answered it commits. *)
Lemma raising_match_does_not_supersede :
  let h' := sampleStep leavingHome
              (CallTransitionTo (RawString "/user/%") (Some 21) (Some 22)) in
  let hf := sampleRun h' [GuardNext 2 VUndefined; GuardNext 2 VUndefined;
                          GuardNext 2 VUndefined] in
  2 ∈ (sid <$> suspended leavingHome)
  ∧ sampleRouterMatch (RawString "/user/%") (current leavingHome)
    = Throw URIError
  ∧ trace h' = trace leavingHome ++ [EvRaise URIError]
  ∧ pending h' = pending leavingHome
  ∧ oid (current hf) = 2
  ∧ EvOnComplete 11 (t_route toA) ∈ trace hf.
Proof.
  cbv zeta. split; [vm_compute; apply list_elem_of_here|].
  split; [vm_compute; reflexivity|]. split; [vm_compute; reflexivity|].
  split; [reflexivity|]. split; [reflexivity|].
  vm_compute. repeat (apply list_elem_of_here || apply list_elem_of_further).
Qed.

(** * history/base.js: the records that a navigation touches *)

Section ResolveQueueFacts.

Variable same : RouteRecord -> RouteRecord -> bool.

(** X1.  [resolveQueue] splits both chains at one index: the updated records
    followed by the activated ones are the chain of the target, in order;
    the records of the current chain before the deactivated ones are as
    many as the updated ones and pairwise the same as them; and when records
    are left on both sides, the first deactivated one and the first
    activated one differ. *)
Theorem resolveQueue_splits (current next : list RouteRecord) :
  let q := resolveQueue same current next in
  updated q ++ activated q = next
  ∧ (∃ kept, kept ++ deactivated q = current
             ∧ Forall2 (fun x y => same x y = true) kept (updated q))
  ∧ match deactivated q, activated q with
    | x :: _, y :: _ => same x y = false
    | _, _ => True
    end.
Proof.
  intros q. subst q. unfold resolveQueue. cbv zeta. cbn [updated activated deactivated].
  destruct (firstDifference_common same current next) as (Hc & Hn & Hsame & Hat).
  set (i := firstDifference same current next _ 0) in *.
  split; [apply take_drop|]. split.
  - exists (take i current). split; [apply take_drop|done].
  - destruct (drop i current) as [|x c] eqn:Hx, (drop i next) as [|y n] eqn:Hy;
      try done.
    assert (current !! i = Some x) as Hx'.
    { rewrite <- (Nat.add_0_r i), <- lookup_drop, Hx. done. }
    assert (next !! i = Some y) as Hy'.
    { rewrite <- (Nat.add_0_r i), <- lookup_drop, Hy. done. }
    by rewrite Hx', Hy' in Hat.
Qed.

(** X2.  When the two chains start with the same records and go on
    differently (or one of them, or both, end there), the common records are
    updated, the rest of the target is activated and the rest of the current
    chain is deactivated.  So a navigation between two routes of the same
    chain activates and deactivates nothing. *)
Theorem resolveQueue_common_prefix (common rest rest' : list RouteRecord) :
  (∀ x, x ∈ common → same x x = true) →
  match rest, rest' with
  | x :: _, y :: _ => same x y = false
  | _, _ => True
  end →
  resolveQueue same (common ++ rest) (common ++ rest')
  = {| updated := common; activated := rest'; deactivated := rest |}.
Proof.
  intros Hrefl Hdiff. unfold resolveQueue. cbv zeta.
  rewrite (firstDifference_prefix same common rest rest' Hrefl Hdiff).
  by rewrite !take_app_length, !drop_app_length.
Qed.

End ResolveQueueFacts.

(** From [/home] to [/home]: the record is updated, none is touched else.
    From [/shop/list/item] to [/shop/detail]: the shop is updated, the list
    and the item are deactivated, the detail view is activated. *)
Lemma resolveQueue_common_prefix_witness :
  resolveQueue sampleSameRecord (r_matched (val (current atHome)))
    (r_matched (val (current atHome)))
  = {| updated := r_matched (val (current atHome)); activated := [];
       deactivated := [] |}
  ∧ resolveQueue sampleSameRecord
      [shopRecord "/shop"; shopRecord "/shop/list"; shopRecord "/shop/list/item"]
      [shopRecord "/shop"; shopRecord "/shop/detail"]
    = {| updated := [shopRecord "/shop"];
         activated := [shopRecord "/shop/detail"];
         deactivated := [shopRecord "/shop/list"; shopRecord "/shop/list/item"] |}.
Proof.
  split.
  - pose proof (resolveQueue_common_prefix sampleSameRecord
                  (r_matched (val (current atHome))) [] []) as H.
    rewrite !app_nil_r in H. apply H; [|exact I].
    intros x _. unfold sampleSameRecord. by apply bool_decide_eq_true_2.
  - apply (resolveQueue_common_prefix sampleSameRecord [shopRecord "/shop"]
             [shopRecord "/shop/list"; shopRecord "/shop/list/item"]
             [shopRecord "/shop/detail"]).
    + intros x _. unfold sampleSameRecord. by apply bool_decide_eq_true_2.
    + vm_compute. reflexivity.
Defined.

(** * history/base.js: a navigation from its start to its end *)

Lemma emit_nil (h : History) : emit [] h = h.
Proof. destruct h. unfold emit. cbn. by rewrite app_nil_r. Qed.

Lemma emit_emit (l l' : list Event) (h : History) :
  emit l (emit l' h) = emit (l' ++ l) h.
Proof. destruct h. unfold emit. cbn. by rewrite app_assoc. Qed.

Lemma setSuspended_back (l : list Suspended) (events : list Event) (h : History) :
  setSuspended (suspended h) (emit events (setSuspended l h)) = emit events h.
Proof. by destruct h. Qed.

Lemma takeSuspended_last (a : nat) (l : list Suspended) (s : Suspended) :
  a ∉ (sid <$> l) → sid s = a → takeSuspended a (l ++ [s]) = Some (s, l).
Proof.
  intros Hnot Hs. induction l as [|x l IH]; simpl.
  - unfold sid in Hs. by rewrite decide_True.
  - apply not_elem_of_cons in Hnot as [Hx Hnot].
    rewrite decide_False by (intros Heq; by apply Hx).
    by rewrite IH.
Qed.

(** ** Once the history is ready *)

Lemma readyCalls_app (l1 l2 : list Event) :
  readyCalls (l1 ++ l2) = readyCalls l1 ++ readyCalls l2.
Proof. apply filter_app. Qed.

Lemma readyCalls_fmap_none {A : Type} (f : A → Event) (l : list A) :
  (∀ x, readyCall (f x) = false) → readyCalls (f <$> l) = [].
Proof.
  intros Hf. induction l as [|x l IH]; [done|]. simpl.
  unfold readyCalls in *. rewrite filter_cons_False; [done|]. by rewrite Hf.
Qed.

Lemma abort_ready (t : Transition) (err : Value) (h : History) :
  ready h = true →
  ready (abort t err h) = true
  ∧ readyCalls (trace (abort t err h)) = readyCalls (trace h).
Proof.
  intros Hready. split.
  - unfold abort, onAbort.
    destruct (negb (isNavigationDuplicated err) && isError err);
      [destruct (errorCbs h)|]; fields;
      destruct (truthyValue err && negb (ready h)); fields; done.
  - rewrite abort_trace, readyCalls_app. unfold abortCalls.
    rewrite Hready, andb_false_r, app_nil_r, readyCalls_app.
    rewrite (readyCalls_fmap_none (λ f, EvOnAbort f err)) by done.
    destruct (negb (isNavigationDuplicated err) && isError err);
      [destruct (errorCbs h) as [|x cbs]|]; rewrite ?app_nil_r; try done.
    rewrite (readyCalls_fmap_none (λ f, EvErrorCb f err) (x :: cbs)) by done.
    by rewrite app_nil_r.
Qed.

Lemma onComplete_ready (t : Transition) (h : History) :
  ready h = true →
  ready (onComplete t h) = true
  ∧ readyCalls (trace (onComplete t h)) = readyCalls (trace h).
Proof.
  intros Hready. split.
  - unfold onComplete. cbv zeta. set (x := ensureURL false _).
    destruct (ready x) eqn:Hr; [exact Hr|reflexivity].
  - rewrite onComplete_trace, readyCalls_app. unfold completeCalls.
    rewrite Hready, app_nil_r, !readyCalls_app.
    rewrite (readyCalls_fmap_none (λ f, EvListener f (t_route t))) by done.
    rewrite (readyCalls_fmap_none (λ f, EvAfterHook f (t_route t) (current h)))
      by done.
    destruct (t_onComplete t) as [[f|[f|]|[f|]]|]; by rewrite ?app_nil_r.
Qed.

Lemma iterator_ready (t : Transition) (stage : Stage) (cbs : list PostEnterCb)
    (hook : NavigationGuard) (rest : list (option NavigationGuard)) (h : History) :
  ready h = true →
  ready (iterator t stage cbs hook rest h) = true
  ∧ readyCalls (trace (iterator t stage cbs hook rest h)) = readyCalls (trace h).
Proof.
  intros Hready.
  destruct (iterator_cases t stage cbs hook rest h) as [[_ ->]|[_ ->]];
    [|by apply abort_ready].
  fields. split; [done|]. by rewrite readyCalls_app, app_nil_r.
Qed.

Lemma secondQueueDone_ready (t : Transition) (cbs : list PostEnterCb) (h : History) :
  ready h = true →
  ready (secondQueueDone t cbs h) = true
  ∧ readyCalls (trace (secondQueueDone t cbs h)) = readyCalls (trace h).
Proof.
  intros Hready.
  destruct (secondQueueDone_cases t cbs h) as [[_ ->]|[_ ->]];
    [|by apply abort_ready]. cbv zeta.
  destruct (onComplete_ready t (setPending None h) Hready) as [Hr Htr].
  destruct (app _); [|done]. fields. split; [done|].
  by rewrite readyCalls_app, app_nil_r.
Qed.

(** The calls made so far stay as they are. *)
Lemma abort_grows (t : Transition) (err : Value) (h : History) :
  trace h `prefix_of` trace (abort t err h).
Proof. rewrite abort_trace. by apply prefix_app_r. Qed.

Lemma iterator_grows (t : Transition) (stage : Stage) (cbs : list PostEnterCb)
    (hook : NavigationGuard) (rest : list (option NavigationGuard)) (h : History) :
  trace h `prefix_of` trace (iterator t stage cbs hook rest h).
Proof.
  destruct (iterator_cases t stage cbs hook rest h) as [[_ ->]|[_ ->]];
    [|apply abort_grows].
  fields. by apply prefix_app_r.
Qed.

Lemma secondQueueDone_grows (t : Transition) (cbs : list PostEnterCb) (h : History) :
  trace h `prefix_of` trace (secondQueueDone t cbs h).
Proof.
  destruct (secondQueueDone_cases t cbs h) as [[_ ->]|[_ ->]];
    [|apply abort_grows]. cbv zeta.
  pose proof (onComplete_trace t (setPending None h)) as Htr. fields.
  destruct (app _); fields; rewrite Htr.
  - rewrite <- app_assoc. by apply prefix_app_r.
  - by apply prefix_app_r.
Qed.

Section NavigationRuns.

Variable router_match : RawLocation -> RouteObject -> result Route.
Variable sameRecord : RouteRecord -> RouteRecord -> bool.
Variable isSameRoute : RouteObject -> RouteObject -> bool.
Variable extractGuard : option Component -> string -> GuardOption.

Local Abbreviation firstQueueDone := (firstQueueDone extractGuard).
Local Abbreviation guardQueue := (guardQueue extractGuard).
Local Abbreviation transitionTo :=
  (transitionTo router_match sameRecord isSameRoute extractGuard).
Local Abbreviation push := (push router_match sameRecord isSameRoute extractGuard).
Local Abbreviation replace :=
  (replace router_match sameRecord isSameRoute extractGuard).
Local Abbreviation next := (next router_match sameRecord isSameRoute extractGuard).
Local Abbreviation step := (step router_match sameRecord isSameRoute extractGuard).
Local Abbreviation run := (run router_match sameRecord isSameRoute extractGuard).
Local Abbreviation reachable :=
  (reachable router_match sameRecord isSameRoute extractGuard).

Lemma run_app (h : History) (l1 l2 : list Input) :
  run h (l1 ++ l2) = run (run h l1) l2.
Proof. apply fold_left_app. Qed.

(** When every guard of what is left of a queue answers by calling [next]
    without a value, the guards are called one after the other and the
    callback of the queue runs. *)
Lemma answers_proceed (t : Transition) (stage : Stage) (cbs : list PostEnterCb)
    (rest : list (option NavigationGuard)) (h : History) :
  pendingIs (oid (t_route t)) h →
  oid (t_route t) ∉ (sid <$> suspended h) →
  run (runQueue rest (iterator t stage cbs)
         (match stage with
          | FirstQueue => firstQueueDone t
          | SecondQueue => secondQueueDone t cbs
          end) h)
      (replicate (length (guardsOf rest)) (GuardNext (oid (t_route t)) VUndefined))
  = (match stage with
     | FirstQueue => firstQueueDone t
     | SecondQueue => secondQueueDone t cbs
     end)
      (emit ((fun g => EvGuard g (t_route t) (t_current t)) <$> guardsOf rest) h).
Proof.
  revert h. induction rest as [|[g|] rest IH]; intros h Hpending Hfresh.
  - simpl. by rewrite emit_nil.
  - assert (guardsOf (Some g :: rest) = g :: guardsOf rest) as -> by reflexivity.
    cbn [runQueue length replicate].
    rewrite fmap_cons.
    destruct (iterator_cases t stage cbs g rest h) as [[_ ->]|[Hnot _]];
      [|done].
    change (run ?s (?i :: ?l)) with (run (step s i) l).
    cbn [Router.step]. fields.
    rewrite takeSuspended_last by done.
    rewrite setSuspended_back. unfold Router.next.
    cbn [isFalse isError isRedirect orb]. fields.
    replace (match g with
             | RouteEnterGuard _ record key => cbs
             | _ => cbs
             end) with cbs by (by destruct g).
    rewrite IH.
    + rewrite emit_emit. reflexivity.
    + destruct Hpending as (p & Hp & Hoid). by exists p.
    + done.
  - assert (guardsOf (None :: rest) = guardsOf rest) as -> by reflexivity.
    cbn [runQueue]. by apply IH.
Qed.

(** X3.  A navigation for which [match] returned a route, that is not a
    duplicate and whose guards all answer
    by calling [next] without a value commits: the guards of the first
    queue and then the enter guards and the resolve hooks are called, each
    once, with the target and the route it leaves; then the target becomes
    the current route, no navigation is pending, the listener, the after
    hooks, the completion callback and the ready callbacks are called as
    the completion closure says, and the history is ready. *)
Theorem proceeding_navigation_commits (h : History) (location : RawLocation)
    (target : Route) (completed : option OnComplete) (aborted : option Fn) :
  reachable h →
  router_match location (current h) = Ok target →
  isSameRoute (candidate target h) (current h)
  && bool_decide (length (r_matched (val (candidate target h)))
                  = length (r_matched (val (current h)))) = false →
  let route := candidate target h in
  let q := resolveQueue sameRecord (r_matched (val (current h)))
             (r_matched (val route)) in
  let t := {| t_route := route; t_current := current h;
              t_onComplete := completed; t_onAbort := aborted;
              t_activated := activated q |} in
  let first := guardsOf (guardQueue h q) in
  let second :=
    guardsOf (extractEnterGuards extractGuard (instances h) (activated q)
              ++ (Some ∘ HookFn <$> resolveHooks (router h))) in
  let hf := run (transitionTo location completed aborted h)
              (replicate (length first + length second)
                 (GuardNext (nextId h) VUndefined)) in
  current hf = route ∧ pending hf = None ∧ suspended hf = suspended h
  ∧ ready hf = true
  ∧ trace hf
    = trace h
      ++ ((fun g => EvGuard g route (current h)) <$> (first ++ second))
      ++ completeCalls t h
      ++ (if app (router h) then [EvNextTick route []] else []).
Proof.
  intros Hreach Hmatch Hdup. cbv zeta.
  pose proof (reachable_wellFormed _ _ _ _ h Hreach) as (_ & Hold & _).
  unfold Router.transitionTo. rewrite Hmatch. unfold Router.confirmTransition.
  unfold candidate in *. fields. rewrite Hdup.
  set (route := {| oid := nextId h; val := target |}).
  set (q := resolveQueue sameRecord (r_matched (val (current h)))
              (r_matched target)).
  set (t := {| t_route := route; t_current := current h;
               t_onComplete := completed; t_onAbort := aborted;
               t_activated := activated q |}).
  set (h1 := setPending (Some route) (setNextId (S (nextId h)) h)).
  assert (nextId h ∉ (sid <$> suspended h)) as Hfresh.
  { intros (s & Heq & Hs)%list_elem_of_fmap. specialize (Hold s Hs). lia. }
  rewrite replicate_add, run_app.
  change (guardQueue (setNextId (S (nextId h)) h) q) with (guardQueue h q).
  pose proof (answers_proceed t FirstQueue [] (guardQueue h q) h1) as Hfirst.
  cbn [t_route t oid route] in Hfirst. rewrite Hfirst; clear Hfirst;
    [|by exists route|done].
  unfold Router.firstQueueDone.
  set (h2 := emit _ h1).
  change (instances h2) with (instances h).
  change (router h2) with (router h).
  change (t_activated t) with (activated q).
  pose proof (answers_proceed t SecondQueue []
                (extractEnterGuards extractGuard (instances h) (activated q)
                 ++ (Some ∘ HookFn <$> resolveHooks (router h))) h2) as Hsecond.
  cbn [t_route t oid route] in Hsecond.
  rewrite Hsecond; clear Hsecond; [|by exists route|done].
  set (h3 := emit _ h2).
  destruct (secondQueueDone_cases t [] h3) as [[_ ->]|[Hnot _]];
    [|exfalso; apply Hnot; by exists route].
  cbv zeta.
  destruct (onComplete_core t (setPending None h3))
    as (Hc & Hp & Hs & _).
  pose proof (onComplete_trace t (setPending None h3)) as Htr.
  assert (ready (onComplete t (setPending None h3)) = true) as Hready.
  { unfold Router.onComplete. cbv zeta. set (x := ensureURL false _).
    destruct (ready x) eqn:Hr; [exact Hr|reflexivity]. }
  assert (app (router (onComplete t (setPending None h3))) = app (router h))
    as Happ.
  { by destruct (onComplete_core t (setPending None h3))
      as (_ & _ & _ & _ & -> & _). }
  assert (completeCalls t (setPending None h3) = completeCalls t h) as Hcalls
    by reflexivity.
  rewrite Hcalls in Htr.
  assert (trace (setPending None h3)
          = trace h ++ ((fun g => EvGuard g route (current h))
                          <$> (guardsOf (guardQueue h q)
                               ++ guardsOf
                                    (extractEnterGuards extractGuard (instances h)
                                       (activated q)
                                     ++ (Some ∘ HookFn <$> resolveHooks (router h))))))
    as Hguards.
  { subst h3 h2 h1. fields. by rewrite fmap_app, <- app_assoc. }
  rewrite Hguards in Htr.
  rewrite Happ. destruct (app (router h)); fields.
  - rewrite Hc, Hp, Hs, Hready, Htr. repeat split; try done.
    by rewrite <- !app_assoc.
  - rewrite Hc, Hp, Hs, Hready, Htr. repeat split; try done.
    by rewrite app_nil_r, <- !app_assoc.
Qed.

Lemma firstQueueDone_ready (t : Transition) (h : History) :
  ready h = true →
  ready (firstQueueDone t h) = true
  ∧ readyCalls (trace (firstQueueDone t h)) = readyCalls (trace h).
Proof.
  intros Hready. unfold Router.firstQueueDone. apply runQueue_cases.
  - intros hook rest. by apply iterator_ready.
  - by apply secondQueueDone_ready.
Qed.

Lemma transitionTo_ready (location : RawLocation)
    (completed : option OnComplete) (aborted : option Fn) (h : History) :
  ready h = true →
  ready (transitionTo location completed aborted h) = true
  ∧ readyCalls (trace (transitionTo location completed aborted h))
    = readyCalls (trace h).
Proof.
  intros Hready.
  destruct (transitionTo_cases router_match sameRecord isSameRoute extractGuard
              location completed aborted h)
    as [(route & _ & ->)|(e & _ & ->)].
  2:{ fields. split; [done|]. by rewrite readyCalls_app, app_nil_r. }
  unfold Router.confirmTransition. fields.
  destruct (_ && _).
  - match goal with
    | |- context [abort ?t ?e ?s] =>
        destruct (abort_ready t e s) as [Hr Htr]; [done|]
    end.
    split; [done|]. rewrite Htr. fields. by rewrite readyCalls_app, app_nil_r.
  - set (h1 := setPending _ _).
    change (readyCalls (trace h)) with (readyCalls (trace h1)).
    apply runQueue_cases;
      [intros hook rest; by apply iterator_ready|by apply firstQueueDone_ready].
Qed.

Lemma next_ready (s : Suspended) (to : Value) (h : History) :
  ready h = true →
  ready (next s to h) = true
  ∧ readyCalls (trace (next s to h)) = readyCalls (trace h).
Proof.
  intros Hready. unfold Router.next.
  destruct (isFalse to || isError to).
  { match goal with
    | |- context [abort ?t ?e ?s] =>
        destruct (abort_ready t e s) as [Hr Htr]; [done|]
    end.
    split; [done|]. rewrite Htr. fields. by rewrite readyCalls_app, app_nil_r. }
  destruct (isRedirect to).
  { destruct (abort_ready (s_transition s) VUndefined h Hready) as [Hr Htr].
    destruct to as [| | |l| |]; try destruct (loc_replace l);
      unfold Router.push, Router.replace;
      match goal with
      | |- context [Router.transitionTo _ _ _ _ ?loc ?c ?a ?s] =>
          destruct (transitionTo_ready loc c a s Hr) as [Hr' Htr']
      end; by rewrite Hr', Htr'. }
  apply runQueue_cases.
  - intros hook rest. by apply iterator_ready.
  - destruct (s_stage s);
      [by apply firstQueueDone_ready|by apply secondQueueDone_ready].
Qed.

Lemma step_ready (h : History) (i : Input) :
  ready h = true →
  ready (step h i) = true ∧ readyCalls (trace (step h i)) = readyCalls (trace h).
Proof.
  intros Hready.
  destruct i as [location c' a'|location c' a'|location c' a'|f|f e|e|fn|fn|fn
                |fn|fn|fn|inst|id to|id e]; simpl;
    try (unfold Router.push, Router.replace; by apply transitionTo_ready);
    try done.
  - unfold onReady. rewrite Hready. fields. split; [done|].
    by rewrite readyCalls_app, app_nil_r.
  - destruct (takeSuspended id (suspended h)) as [[s l]|]; [|done].
    change (readyCalls (trace h)) with (readyCalls (trace (setSuspended l h))).
    by apply next_ready.
  - destruct (takeSuspended id (suspended h)) as [[s l]|]; [|done].
    unfold guardThrew.
    change (readyCalls (trace h)) with (readyCalls (trace (setSuspended l h))).
    by apply abort_ready.
Qed.

Lemma transitionTo_grows (location : RawLocation)
    (completed : option OnComplete) (aborted : option Fn) (h : History) :
  trace h `prefix_of` trace (transitionTo location completed aborted h).
Proof.
  destruct (transitionTo_cases router_match sameRecord isSameRoute extractGuard
              location completed aborted h)
    as [(route & _ & ->)|(e & _ & ->)].
  2:{ fields. by apply prefix_app_r. }
  unfold Router.confirmTransition. fields.
  destruct (_ && _).
  - etransitivity; [|apply abort_grows]. fields. by apply prefix_app_r.
  - set (h1 := setPending _ _). change (trace h) with (trace h1).
    apply runQueue_cases; [intros hook rest; apply iterator_grows|].
    unfold Router.firstQueueDone. apply runQueue_cases;
      [intros hook rest; apply iterator_grows|apply secondQueueDone_grows].
Qed.

(** X4.  Once the history is ready it stays ready, whatever happens next,
    and the callbacks that waited for it are not called again: no ready
    callback is called with a route and no ready-error callback is called.
    A callback that [onReady] registers from then on is called at once, and
    is not kept. *)
Theorem ready_callbacks_fire_once (h : History) (inputs : list Input) :
  ready h = true →
  ready (run h inputs) = true
  ∧ readyCalls (trace (run h inputs)) = readyCalls (trace h)
  ∧ ∀ f errorCb,
      trace (step h (CallOnReady f errorCb)) = trace h ++ [EvReadyCb f None]
      ∧ readyCbs (step h (CallOnReady f errorCb)) = readyCbs h
      ∧ readyErrorCbs (step h (CallOnReady f errorCb)) = readyErrorCbs h.
Proof.
  intros Hready. split; [|split].
  - revert h Hready. induction inputs as [|i inputs IH]; intros h Hready; [done|].
    simpl. apply IH. by apply step_ready.
  - revert h Hready. induction inputs as [|i inputs IH]; intros h Hready; [done|].
    simpl. destruct (step_ready h i Hready) as [Hr Htr].
    change (fold_left step inputs (step h i)) with (run (step h i) inputs).
    by rewrite IH, Htr.
  - intros f errorCb. cbn [Router.step]. unfold onReady. by rewrite Hready.
Qed.

(** X5.  A guard that throws aborts its navigation with what it threw: the
    abort callback is called with it, an error goes to the error observers
    (or is reported as uncaught when there is none), and the URL is not
    asked for.  The current and the pending route stay as they were, and
    the navigation never commits. *)
Theorem throwing_guard_aborts (h : History) (s : Suspended)
    (l : list Suspended) (e : Value) :
  reachable h →
  takeSuspended (sid s) (suspended h) = Some (s, l) →
  let t := s_transition s in
  let h' := step h (GuardThrow (sid s) e) in
  trace h' = trace h ++ abortCalls t e h
  ∧ current h' = current h ∧ pending h' = pending h ∧ suspended h' = l
  ∧ ∀ inputs, commits (sid s) (trace (run h' inputs)) = []
              ∧ oid (current (run h' inputs)) ≠ sid s.
Proof.
  intros Hreach Htake. cbv zeta.
  pose proof (reachable_wellFormed _ _ _ _ h Hreach) as Hwf.
  pose proof (reachable_uncommitted _ _ _ _ h Hreach) as Hun.
  pose proof Htake as (_ & l1 & l2 & Hl & ->)%takeSuspended_Some.
  destruct (setSuspended_wellFormed s l1 l2 h Hwf Hl)
    as (Hwf' & Hlt & Hnot & Hne & _).
  cbn [Router.step]. rewrite Htake. unfold guardThrew.
  match goal with
  | |- context [abort ?t ?e ?s] =>
      destruct (abort_sameCore t e s) as (Hc & Hp & Hs & Hn & _);
      pose proof (abort_trace t e s) as Htr;
      set (h' := abort t e s) in *
  end.
  fields.
  assert (abortCalls (s_transition s) e (setSuspended (l1 ++ l2) h)
          = abortCalls (s_transition s) e h) as Hcalls by reflexivity.
  rewrite Hcalls in Htr.
  repeat split; try done.
  - assert (spent (sid s) h') as Hspent.
    { unfold spent, pendingIs. rewrite Hc, Hp, Hs, Hn. fields.
      repeat split; try done. }
    destruct (run_staysSpent router_match sameRecord isSameRoute extractGuard
                (sid s) h' inputs Hspent) as (_ & Heq).
    rewrite Heq, Htr, commits_app, commits_abortCalls, app_nil_r.
    apply Hun. right. apply list_elem_of_fmap. exists s. split; [done|].
    rewrite Hl, elem_of_app, elem_of_cons. auto.
  - assert (spent (sid s) h') as Hspent.
    { unfold spent, pendingIs. rewrite Hc, Hp, Hs, Hn. fields.
      repeat split; try done. }
    by destruct (run_staysSpent router_match sameRecord isSameRoute extractGuard
                   (sid s) h' inputs Hspent) as ((_ & Hcur & _) & _).
Qed.


End NavigationRuns.

(** ** Navigations on the table of [viewRoutes], from start to end *)

(** From [/home] to [/a]: the before hook, the [beforeEnter] guard of [/a]
    and the resolution of components answer, and [/a] is the current
    route. *)
Lemma proceeding_navigation_commits_witness :
  let hf := sampleRun atHome
              [CallTransitionTo (RawString "/a") (Some 11) (Some 12);
               GuardNext 2 VUndefined; GuardNext 2 VUndefined;
               GuardNext 2 VUndefined] in
  r_path (val (current hf)) = "/a" ∧ pending hf = None
  ∧ commits 2 (trace hf) = [EvOnComplete 11 (t_route toA)].
Proof.
  destruct (proceeding_navigation_commits sampleRouterMatch sampleSameRecord
              sampleIsSameRoute sampleExtractGuard atHome (RawString "/a")
              (sampleRoute (RawString "/a") atHome)
              (Some (CompleteFn 11)) (Some 12))
    as (Hcurrent & Hpending & _ & _ & Htrace).
  - exists sampleRouter, sampleSTART,
      [CallTransitionTo (RawString "/home") None None;
       GuardNext 1 VUndefined; GuardNext 1 VUndefined].
    vm_compute. reflexivity.
  - vm_compute. reflexivity.
  - vm_compute. reflexivity.
  - split; [|split].
    + etransitivity; [exact (f_equal (fun r => r_path (val r)) Hcurrent)|].
      vm_compute. reflexivity.
    + exact Hpending.
    + etransitivity; [exact (f_equal (commits 2) Htrace)|].
      vm_compute. reflexivity.
Defined.

(** At [/home] the history is ready: a navigation that a guard ends by
    throwing calls no callback that waited for the history to be ready. *)
Lemma ready_callbacks_fire_once_witness :
  let hf := sampleRun atHome
              [CallOnReady 31 (Some 32);
               CallTransitionTo (RawString "/a") None None;
               GuardThrow 2 (VError (OtherError 1))] in
  ready hf = true ∧ readyCalls (trace hf) = readyCalls (trace atHome).
Proof.
  destruct (ready_callbacks_fire_once sampleRouterMatch sampleSameRecord
              sampleIsSameRoute sampleExtractGuard atHome
              [CallOnReady 31 (Some 32);
               CallTransitionTo (RawString "/a") None None;
               GuardThrow 2 (VError (OtherError 1))])
    as (Hready & Hcalls & _).
  - vm_compute. reflexivity.
  - split; [exact Hready|exact Hcalls].
Defined.

(** The before hook of the navigation to [/a] throws an error: no error
    observer is registered, so the error is reported as uncaught, and the
    abort callback is called. *)
Lemma throwing_guard_aborts_witness :
  let h' := sampleStep leavingHome (GuardThrow 2 (VError (OtherError 1))) in
  trace h' = trace leavingHome
             ++ [EvUncaughtError (VError (OtherError 1));
                 EvOnAbort 12 (VError (OtherError 1))]
  ∧ current h' = current atHome.
Proof.
  destruct (throwing_guard_aborts sampleRouterMatch sampleSameRecord
              sampleIsSameRoute sampleExtractGuard leavingHome waiting []
              (VError (OtherError 1)))
    as (Htrace & Hcurrent & _).
  - exists sampleRouter, sampleSTART,
      [CallTransitionTo (RawString "/home") None None;
       GuardNext 1 VUndefined; GuardNext 1 VUndefined;
       CallTransitionTo (RawString "/a") (Some 11) (Some 12)].
    vm_compute. reflexivity.
  - vm_compute. reflexivity.
  - split; [|etransitivity; [exact Hcurrent|vm_compute; reflexivity]].
    etransitivity; [exact Htrace|]. vm_compute. reflexivity.
Defined.


(** * create-route-map.js: what a table looks like *)

Lemma stripTrailingSlash_snoc (s : string) : stripTrailingSlash (s +:+ "/") = s.
Proof.
  induction s as [|c s IH]; [done|].
  destruct s as [|d s]; [done|].
  transitivity (String c (stripTrailingSlash (String d s +:+ "/")));
    [reflexivity|by rewrite IH].
Qed.

Lemma registerPath_maps (st : RouteMap) (record : RouteRecord) :
  is_Some (pathMap (registerPath st record) !! rec_path record).
Proof.
  unfold registerPath. destruct (pathMap st !! rec_path record) eqn:E.
  - rewrite E. eauto.
  - cbn [pathMap]. rewrite lookup_insert_eq. eauto.
Qed.

Section TableFacts.

Variable production : bool.
Variable cleanPath : string -> string.
Variable Regexp : string -> PathToRegexpOptions -> RouteRegExp.

Local Abbreviation addRouteRecord := (addRouteRecord production cleanPath Regexp).
Local Abbreviation createRouteMap := (createRouteMap production cleanPath Regexp).
Local Abbreviation matcherTable := (matcherTable production cleanPath Regexp).
Local Abbreviation addRoutes := (addRoutes production cleanPath Regexp).
Local Abbreviation newRecord := (newRecord cleanPath Regexp).
Local Abbreviation normalizePath := (normalizePath cleanPath).
Local Abbreviation registerChildren :=
  (registerChildren production cleanPath Regexp).

(** The body of [addRouteRecord], step by step: the children, the path of
    the route, its aliases (each with the children once more), its name. *)
Lemma addRouteRecord_unfold (st : RouteMap) (route : RouteConfig)
    (parent : option RouteRecord) (matchAs : option string) :
  addRouteRecord st route parent matchAs
  = let record := newRecord route parent matchAs in
    let st1 :=
      registerPath (registerChildren st (cfg_children route) record matchAs)
                   record in
    let st2 :=
      match cfg_alias route with
      | Some a =>
          fold_left
            (fun st alias =>
               if negb production && bool_decide (alias = cfg_path route)
               then st
               else
                 let aliasMatchAs := Some (or_else (Some (rec_path record)) "/") in
                 let aliasRecord :=
                   newRecord (aliasRoute alias route) parent aliasMatchAs in
                 registerPath
                   (registerChildren st (cfg_children route) aliasRecord
                      aliasMatchAs)
                   aliasRecord)
            (aliasList a) st1
      | None => st1
      end in
    registerName st2 (cfg_name route) record.
Proof. by destruct route. Qed.

(** As [addRouteRecord_steps], for what holds across the registration of a
    record under its own name. *)
Lemma addRouteRecord_named_steps (R : RouteMap → RouteMap → Prop) :
  (∀ st, R st st) → (∀ a b c, R a b → R b c → R a c) →
  (∀ st record, R st (registerPath st record)) →
  (∀ st record, R st (registerName st (rec_name record) record)) →
  ∀ route st parent matchAs, R st (addRouteRecord st route parent matchAs).
Proof.
  intros Hrefl Htrans Hpath Hname.
  fix IH 1. intros route st parent matchAs.
  rewrite addRouteRecord_unfold. cbv zeta.
  assert (∀ st record mAs,
            R st (registerChildren st (cfg_children route) record mAs))
    as Hchildren.
  { intros st' record mAs. unfold Router.registerChildren.
    destruct route as [path name component components redirect alias children
                       beforeEnter meta props caseSensitive options].
    cbn [cfg_children].
    destruct children as [cs|]; [|done].
    revert st'. induction cs as [|c cs IHcs]; intros st'; simpl; [done|].
    eapply Htrans; [apply IH|apply IHcs]. }
  eapply Htrans; [|apply (Hname _ (newRecord route parent matchAs))].
  eapply Htrans; [eapply Htrans; [apply Hchildren|apply Hpath]|].
  destruct (cfg_alias route) as [a|]; [|done].
  apply fold_left_steps; [done..|]. intros st' al _.
  destruct (_ && _); [done|]. cbv zeta.
  eapply Htrans; [apply Hchildren|apply Hpath].
Qed.

Lemma tidy_registerPath (st : RouteMap) (record : RouteRecord) :
  tidy st → tidy (registerPath st record).
Proof.
  intros (Hnodup & Hlisted & Hnamed). unfold registerPath.
  destruct (pathMap st !! rec_path record) eqn:E; [done|].
  split; [|split]; cbn [pathList pathMap nameMap]; [| |done].
  - apply NoDup_app. split; [done|]. split; [|apply NoDup_singleton].
    intros p Hp ->%list_elem_of_singleton.
    apply Hlisted in Hp. rewrite E in Hp. by destruct Hp.
  - intros p. rewrite elem_of_app, list_elem_of_singleton, Hlisted.
    destruct (decide (rec_path record = p)) as [<-|Hne].
    + rewrite lookup_insert_eq. split; [eauto|auto].
    + rewrite lookup_insert_ne by done. split; [|auto].
      intros [Hp| ->]; [done|by destruct Hne].
Qed.

Lemma tidy_registerName (st : RouteMap) (record : RouteRecord) :
  tidy st → tidy (registerName st (rec_name record) record).
Proof.
  intros (Hnodup & Hlisted & Hnamed). unfold registerName.
  destruct (rec_name record) as [[|c s]|] eqn:Hname; try done.
  destruct (nameMap st !! String c s) eqn:E; [done|].
  split; [done|]. split; [done|]. cbn [nameMap].
  intros n r. destruct (decide (String c s = n)) as [<-|Hne].
  - rewrite lookup_insert_eq. by intros [= <-].
  - rewrite lookup_insert_ne by done. apply Hnamed.
Qed.

Lemma addRouteRecord_tidy (st : RouteMap) (route : RouteConfig)
    (parent : option RouteRecord) (matchAs : option string) :
  tidy st → tidy (addRouteRecord st route parent matchAs).
Proof.
  revert route st parent matchAs.
  apply (addRouteRecord_named_steps (λ a b, tidy a → tidy b));
    [done | by auto | apply tidy_registerPath | apply tidy_registerName].
Qed.

Lemma createRouteMap_tidy (routes : list RouteConfig) (old : RouteMap) :
  tidy old → tidy (createRouteMap routes old).
Proof.
  intros Hold.
  assert (tidy (fold_left (λ st route, addRouteRecord st route None None)
                          routes old)) as (Hnodup & Hlisted & Hnamed).
  { revert Hold. generalize old. induction routes as [|r routes IH]; [done|].
    intros st Hst. simpl. apply IH. by apply addRouteRecord_tidy. }
  split; [|split; [|exact Hnamed]].
  - pose proof (createRouteMap_pathList production cleanPath Regexp routes old)
      as Hlist. cbv zeta in Hlist. rewrite Hlist. apply NoDup_app.
    split; [by apply NoDup_filter|]. split; [|by apply NoDup_filter].
    intros p [Hne _]%list_elem_of_filter [Heq _]%list_elem_of_filter. done.
  - intros p. etransitivity; [|apply Hlisted].
    pose proof (createRouteMap_pathList production cleanPath Regexp routes old)
      as Hlist. cbv zeta in Hlist. rewrite Hlist.
    apply (elem_of_partition cleanPath Regexp).
Qed.

(** X7.  In the table of a matcher, whatever was registered and added, the
    path list has no path twice and lists exactly the paths that the path
    map has; a record is mapped under its own path, and a named record
    under its own name, which is not empty. *)
Theorem table_list_and_maps_agree (routes : list RouteConfig)
    (added : list (list RouteConfig)) :
  let table := matcherTable routes added in
  NoDup (pathList table)
  ∧ (∀ p, p ∈ pathList table ↔ is_Some (pathMap table !! p))
  ∧ length (pathList table) = size (pathMap table)
  ∧ (∀ p r, pathMap table !! p = Some r → rec_path r = p)
  ∧ (∀ n r, nameMap table !! n = Some r → rec_name r = Some n ∧ n ≠ "").
Proof.
  cbv zeta.
  assert (tidy (matcherTable routes added)) as (Hnodup & Hlisted & Hnamed).
  { induction added as [|more added IH] using rev_ind.
    - apply createRouteMap_tidy. split; [apply NoDup_nil_2|]. split; [|done].
      intros p. cbn. rewrite lookup_empty. split.
      + by intros ?%elem_of_nil.
      + by intros [? ?].
    - rewrite matcherTable_snoc. by apply createRouteMap_tidy. }
  destruct (matcherTable_invariant production cleanPath Regexp routes added)
    as [[_ Hkey] _].
  split; [done|]. split; [done|]. split; [|done].
  rewrite <- (size_dom (D := gset string)).
  rewrite <- (size_list_to_set (C := gset string)) by done.
  f_equal. apply set_eq. intros p.
  rewrite elem_of_list_to_set, elem_of_dom. apply Hlisted.
Qed.

Lemma registerChildren_extends (st : RouteMap)
    (children : option (list RouteConfig)) (record : RouteRecord)
    (matchAs : option string) :
  extends st (registerChildren st children record matchAs).
Proof.
  unfold Router.registerChildren. destruct children as [cs|];
    [|apply extends_refl].
  apply fold_left_steps; [apply extends_refl|apply extends_trans|].
  intros st' child _. apply addRouteRecord_extends.
Qed.

(** A registration leaves the path of its record mapped. *)
Lemma addRouteRecord_maps_path (st : RouteMap) (route : RouteConfig)
    (parent : option RouteRecord) (matchAs : option string) :
  is_Some (pathMap (addRouteRecord st route parent matchAs)
             !! rec_path (newRecord route parent matchAs)).
Proof.
  pose proof (addRouteRecord_unfold st route parent matchAs) as Hunfold.
  cbv zeta in Hunfold.
  set (record := newRecord route parent matchAs) in *.
  set (st1 := registerPath _ record) in Hunfold.
  assert (is_Some (pathMap st1 !! rec_path record)) as [r Hr].
  { apply registerPath_maps. }
  assert (extends st1 (addRouteRecord st route parent matchAs))
    as (_ & Hmap & _).
  { rewrite Hunfold.
    eapply extends_trans; [|apply extends_registerName].
    destruct (cfg_alias route) as [a|]; [|apply extends_refl].
    apply fold_left_steps; [apply extends_refl|apply extends_trans|].
    intros st' al _. destruct (_ && _); [apply extends_refl|]. cbv zeta.
    eapply extends_trans;
      [apply registerChildren_extends|apply extends_registerPath]. }
  exists r. by eapply lookup_weaken.
Qed.

Lemma addRouteRecord_listed (st : RouteMap) (route : RouteConfig)
    (parent : option RouteRecord) (matchAs : option string) :
  (∀ p, is_Some (pathMap st !! p) → p ∈ pathList st) →
  ∀ p, is_Some (pathMap (addRouteRecord st route parent matchAs) !! p) →
       p ∈ pathList (addRouteRecord st route parent matchAs).
Proof.
  revert route st parent matchAs.
  apply (addRouteRecord_steps production cleanPath Regexp
           (λ a b, (∀ p, is_Some (pathMap a !! p) → p ∈ pathList a)
                   → ∀ p, is_Some (pathMap b !! p) → p ∈ pathList b));
    [done|by auto| |].
  - intros st' rec' Hst' p. unfold registerPath.
    destruct (pathMap st' !! rec_path rec') eqn:E; [by apply Hst'|].
    cbn [pathMap pathList]. rewrite elem_of_app, list_elem_of_singleton.
    destruct (decide (rec_path rec' = p)) as [<-|Hne]; [by right|].
    rewrite lookup_insert_ne by done. left. by apply Hst'.
  - intros st' name rec' Hst'. unfold registerName.
    destruct name as [[|c' s']|]; try done.
    by destruct (nameMap st' !! String c' s').
Qed.

Lemma registerChildren_listed (st : RouteMap) (children : list RouteConfig)
    (record : RouteRecord) (matchAs : option string) :
  (∀ p, is_Some (pathMap st !! p) → p ∈ pathList st) →
  ∀ p, is_Some (pathMap (registerChildren st (Some children) record matchAs) !! p) →
       p ∈ pathList (registerChildren st (Some children) record matchAs).
Proof.
  unfold Router.registerChildren. revert st.
  induction children as [|c cs IH]; intros st Hst; [done|].
  simpl. apply IH. by apply addRouteRecord_listed.
Qed.

Lemma registerChildren_maps_child (st : RouteMap) (children : list RouteConfig)
    (record : RouteRecord) (matchAs : option string) (child : RouteConfig) :
  child ∈ children →
  is_Some (pathMap (registerChildren st (Some children) record matchAs)
             !! rec_path (newRecord child (Some record)
                            (childMatchAs cleanPath matchAs child))).
Proof.
  unfold Router.registerChildren. revert st.
  induction children as [|c cs IH]; intros st Hchild;
    [by apply elem_of_nil in Hchild|].
  simpl. apply elem_of_cons in Hchild as [->|Hchild]; [|by apply IH].
  destruct (addRouteRecord_maps_path st c (Some record)
              (childMatchAs cleanPath matchAs c)) as [r Hr].
  set (st' := addRouteRecord st c _ _) in *.
  assert (extends st' (fold_left (λ st child,
                         addRouteRecord st child (Some record)
                           (childMatchAs cleanPath matchAs child)) cs st'))
    as (_ & Hmap & _).
  { apply fold_left_steps; [apply extends_refl|apply extends_trans|].
    intros st'' child _. apply addRouteRecord_extends. }
  exists r. by eapply lookup_weaken.
Qed.

(** X8.  [addRouteRecord] registers the children of a route before the
    route itself: once the children are registered their paths are mapped
    and listed, and when the path of the route is still free then, it is
    listed right after them, before what the aliases of the route add.  So
    the scan of the path list tries the nested routes before their parent. *)
Theorem children_listed_before_parent (st : RouteMap) (route : RouteConfig)
    (parent : option RouteRecord) (matchAs : option string)
    (children : list RouteConfig) :
  cfg_children route = Some children →
  (∀ p, is_Some (pathMap st !! p) → p ∈ pathList st) →
  let record := newRecord route parent matchAs in
  let st1 := registerChildren st (Some children) record matchAs in
  pathMap st1 !! rec_path record = None →
  (∀ child, child ∈ children →
     rec_path (newRecord child (Some record) (childMatchAs cleanPath matchAs child))
     ∈ pathList st1)
  ∧ ∃ later, pathList (addRouteRecord st route parent matchAs)
             = pathList st1 ++ rec_path record :: later.
Proof.
  intros Hchildren Hlisted record st1 Hfree. split.
  - intros child Hchild. apply registerChildren_listed; [done|].
    by apply registerChildren_maps_child.
  - pose proof (addRouteRecord_unfold st route parent matchAs) as Hunfold.
    cbv zeta in Hunfold. rewrite Hchildren in Hunfold. fold record in Hunfold.
    fold st1 in Hunfold.
    set (st2 := registerPath st1 record) in *.
    assert (pathList st2 = pathList st1 ++ [rec_path record]) as Hst2.
    { subst st2. unfold registerPath. by rewrite Hfree. }
    assert (extends st2 (addRouteRecord st route parent matchAs))
      as ((later & Hlater & _) & _).
    { rewrite Hunfold.
      eapply extends_trans; [|apply extends_registerName].
      destruct (cfg_alias route) as [a|]; [|apply extends_refl].
      apply fold_left_steps; [apply extends_refl|apply extends_trans|].
      intros st' al _. destruct (_ && _); [apply extends_refl|]. cbv zeta.
      eapply extends_trans;
        [apply registerChildren_extends|apply extends_registerPath]. }
    exists later. rewrite Hlater, Hst2, <- app_assoc. done.
Qed.

(** X9.  Unless the route is strict, one slash at the end of its path is
    dropped before the path is registered: a route at [path/] has the path
    of a route at [path], and registered after it, it is dropped as a
    duplicate.  A strict route keeps the slash. *)
Theorem trailing_slash_is_dropped (st : RouteMap) (path : string)
    (parent : option RouteRecord) :
  stripTrailingSlash path = path →
  normalizePath (path +:+ "/") parent None = normalizePath path parent None
  ∧ normalizePath (path +:+ "/") parent (Some false)
    = normalizePath path parent (Some false)
  ∧ normalizePath (path +:+ "/") None (Some true) = path +:+ "/"
  ∧ let st' := addRouteRecord st (routeAt path) parent None in
    addRouteRecord st' (routeAt (path +:+ "/")) parent None = st'.
Proof.
  intros Hpath.
  assert (∀ strict, default false strict = false →
            normalizePath (path +:+ "/") parent strict
            = normalizePath path parent strict) as Hsame.
  { intros strict Hstrict. unfold Router.normalizePath.
    by rewrite Hstrict, stripTrailingSlash_snoc, Hpath. }
  split; [by apply Hsame|]. split; [by apply Hsame|]. split.
  - unfold Router.normalizePath. cbn [default from_option id].
    by destruct (startsWithSlash _).
  - cbv zeta. rewrite !addRouteRecord_unfold. cbv zeta.
    cbn [routeAt cfg_children cfg_alias cfg_name Router.registerChildren registerName].
    assert (rec_path (newRecord (routeAt (path +:+ "/")) parent None)
            = rec_path (newRecord (routeAt path) parent None)) as Hrec.
    { unfold Router.newRecord. cbn [routeAt cfg_path cfg_pathToRegexpOptions
        rec_path default from_option id noOptions opt_strict].
      by apply Hsame. }
    unfold registerPath at 1. rewrite Hrec.
    set (record := newRecord (routeAt path) parent None).
    assert (is_Some (pathMap (registerPath st record) !! rec_path record))
      as [r Hr].
    { apply registerPath_maps. }
    by rewrite Hr.
Qed.

(** X10.  The path map and the name map are filled apart: a route without
    children and aliases whose path is taken, but whose name is new, is
    left out of the path list and the path map, and yet its name leads to
    its own record. *)
Theorem name_registered_though_path_taken (st : RouteMap) (route : RouteConfig)
    (parent : option RouteRecord) (matchAs : option string) (name : string) :
  cfg_children route = None → cfg_alias route = None →
  cfg_name route = Some name → name ≠ "" →
  let record := newRecord route parent matchAs in
  is_Some (pathMap st !! rec_path record) → nameMap st !! name = None →
  let st' := addRouteRecord st route parent matchAs in
  pathList st' = pathList st ∧ pathMap st' = pathMap st
  ∧ nameMap st' = <[name := record]> (nameMap st).
Proof.
  intros Hchildren Halias Hname Hne record [existing Hpath] Hfree st'.
  subst st'. rewrite addRouteRecord_unfold. cbv zeta.
  rewrite Hchildren, Halias, Hname. cbn [Router.registerChildren].
  fold record. unfold registerPath. rewrite Hpath. unfold registerName.
  destruct name as [|c s]; [done|]. by rewrite Hfree.
Qed.

End TableFacts.

(** ** Tables at work *)

(** A route at [/shop] with two nested routes: their paths come first. *)
Lemma children_listed_before_parent_witness :
  ∃ later,
    pathList (addRouteRecord true sampleCleanPath sampleRegexp emptyRouteMap
                nestedRoute None None)
    = ["/shop/list"; "/shop/detail"; "/shop"] ++ later.
Proof.
  destruct (children_listed_before_parent true sampleCleanPath sampleRegexp
              emptyRouteMap nestedRoute None None
              [routeAt "list"; routeAt "detail"])
    as (_ & later & Hlist).
  - reflexivity.
  - intros p [r Hr]. cbn [emptyRouteMap pathMap] in Hr.
    by rewrite lookup_empty in Hr.
  - vm_compute. reflexivity.
  - exists later. rewrite Hlist. vm_compute. reflexivity.
Defined.

(** [/a/] after [/a]. *)
Lemma trailing_slash_is_dropped_witness :
  let st := addRouteRecord true sampleCleanPath sampleRegexp emptyRouteMap
              (routeAt "/a") None None in
  addRouteRecord true sampleCleanPath sampleRegexp st (routeAt "/a/") None None
  = st
  ∧ pathList st = ["/a"].
Proof.
  destruct (trailing_slash_is_dropped true sampleCleanPath sampleRegexp
              emptyRouteMap "/a" None) as (_ & _ & _ & Hdropped).
  - reflexivity.
  - split; [exact Hdropped|reflexivity].
Defined.

(** A second route at [/a], named differently. *)
Lemma name_registered_though_path_taken_witness :
  let st := sampleTable firstRoutes in
  let st' := addRouteRecord true sampleCleanPath sampleRegexp st
               (named "second" (routeAt "/a")) None None in
  pathList st' = ["/a"]
  ∧ (rec_name <$> pathMap st' !! "/a") = Some (Some "first")
  ∧ (rec_name <$> nameMap st' !! "second") = Some (Some "second").
Proof.
  destruct (name_registered_though_path_taken true sampleCleanPath sampleRegexp
              (sampleTable firstRoutes) (named "second" (routeAt "/a"))
              None None "second")
    as (Hlist & Hpaths & Hnames).
  - reflexivity.
  - reflexivity.
  - reflexivity.
  - discriminate.
  - vm_compute. eauto.
  - vm_compute. reflexivity.
  - cbv zeta. rewrite Hlist, Hpaths, Hnames. split; [vm_compute; reflexivity|].
    split; [vm_compute; reflexivity|]. by rewrite lookup_insert_eq.
Defined.

(** * create-matcher.js: aliases, captures and the development build *)

Section MatcherMore.

Variable production : bool.
Variable assertRaises : bool.
Variable normalizeLocation : RawLocation -> option Route -> bool -> Location.
Variable fillParams : string -> option Params -> string.
Variable resolvePath : string -> string -> bool -> string.
Variable decodeURIComponent : string -> option string.
Variable stringifyQuery : Query -> string.
Variable callRedirect : Fn -> Route -> result RedirectValue.
Variable table : RouteMap.

Local Abbreviation createRoute := (createRoute stringifyQuery).
Local Abbreviation getFullPath := (getFullPath stringifyQuery).
Local Abbreviation scanPathList := (scanPathList decodeURIComponent table).
Local Abbreviation fillGroups := (fillGroups decodeURIComponent).
Local Abbreviation matchRoute := (matchRoute decodeURIComponent).
Local Abbreviation matchWith :=
  (matchWith normalizeLocation fillParams decodeURIComponent table).
Local Abbreviation redirectWith :=
  (redirectWith production assertRaises fillParams resolvePath stringifyQuery
                callRedirect table).
Local Abbreviation aliasWith := (aliasWith fillParams).
Local Abbreviation _createRoute :=
  (_createRoute production assertRaises normalizeLocation fillParams resolvePath
                decodeURIComponent stringifyQuery callRedirect table).
Local Abbreviation match_ :=
  (match_ production assertRaises normalizeLocation fillParams resolvePath
          decodeURIComponent stringifyQuery callRedirect table).
Local Abbreviation findRecord :=
  (findRecord normalizeLocation fillParams decodeURIComponent table).
Local Abbreviation redirectTarget :=
  (redirectTarget fillParams resolvePath stringifyQuery callRedirect).

(** X11.  A location that the record of an alias matches resolves to the
    record that the alias stands for: the Route has the matched chain of
    that record and the params of its match, keeps the path of the location
    as it was requested, and reports no redirect, whatever led to the
    alias. *)
Theorem alias_resolves_to_target (raw : RawLocation) (current : option Route)
    (redirectedFrom : option Location) (fuel : nat)
    (record target : RouteRecord) (found found' : Location) (matchAs : string) :
  findRecord raw current = Ok (Some record, found) →
  hasRedirect record = false →
  rec_matchAs record = Some matchAs → matchAs ≠ "" →
  findRecord (RawObject {| loc_normalized := true; loc_name := None;
                           loc_path := Some (fillParams matchAs (loc_params found));
                           loc_hash := None; loc_query := None;
                           loc_params := None; loc_replace := false |})
             None
  = Ok (Some target, found') →
  hasRedirect target = false → truthy (rec_matchAs target) = false →
  let route :=
    createRoute (Some target)
      (setParams found (Some (default ∅ (loc_params found')))) None in
  match_ (S fuel) raw current redirectedFrom = Ok route
  ∧ r_matched route = formatMatch target
  ∧ r_path route = or_else (loc_path found) "/"
  ∧ r_params route = default ∅ (loc_params found')
  ∧ r_redirectedFrom route = None.
Proof.
  intros Hfound Hredirect HmatchAs Hne Haliased Htarget Hplain route.
  split; [|done].
  unfold Router.match_. rewrite matchWith_findRecord, Hfound.
  cbn [mbind result_bind]. cbn [Router._createRoute].
  rewrite Hredirect, HmatchAs.
  assert (truthy (Some matchAs) = true) as -> by (by destruct matchAs).
  unfold Router.aliasWith. cbn [default from_option id].
  rewrite matchWith_findRecord, Haliased. cbn [mbind result_bind].
  rewrite (_createRoute_plain _ _ _ _ _ _ _ _ _ fuel (Some target));
    [|by intros r [= <-]].
  cbn [mbind result_bind]. cbv zeta.
  cbn [Router.createRoute r_matched r_params from_option].
  rewrite formatMatch_last.
  rewrite (_createRoute_plain _ _ _ _ _ _ _ _ _ fuel (Some target));
    [done|by intros r [= <-]].
Qed.

(** The captures of a match: each group is decoded, and stored when the
    pattern has a key at its place. *)
Lemma fillGroups_decodes (groups : list (option string)) (keys : list Key)
    (params : Params) :
  (Exists (fun g => ∃ s, g = Some s ∧ decodeURIComponent s = None) groups →
   fillGroups groups keys params = Throw URIError)
  ∧ (Forall (fun g => ∀ s, g = Some s → is_Some (decodeURIComponent s)) groups →
     fillGroups groups keys params
     = Ok (fold_left (fun (ps : Params) '(g, key) =>
                        <[paramKey (key_name key) := g ≫= decodeURIComponent]> ps)
                     (zip groups keys) params)).
Proof.
  revert keys params. induction groups as [|g groups IH]; intros keys params.
  - split; [by intros ?%Exists_nil|done].
  - split.
    + intros Hbad. cbn [Router.fillGroups].
      destruct g as [s|].
      * destruct (decodeURIComponent s) as [d|] eqn:Hd; [|done].
        cbn [mbind result_bind].
        apply Exists_cons in Hbad as [(s' & [= <-] & Hs')|Hbad]; [congruence|].
        destruct keys as [|key keys]; by apply IH.
      * cbn [mbind result_bind].
        apply Exists_cons in Hbad as [(s' & [=] & _)|Hbad].
        destruct keys as [|key keys]; by apply IH.
    + intros Hgood. apply Forall_cons in Hgood as [Hg Hgood].
      cbn [Router.fillGroups].
      destruct g as [s|].
      * destruct (Hg s eq_refl) as [d Hd]. rewrite Hd.
        cbn [mbind result_bind].
        destruct keys as [|key keys].
        -- rewrite (proj2 (IH [] params) Hgood). by destruct groups.
        -- rewrite (proj2 (IH keys _) Hgood). cbn. by rewrite Hd.
      * cbn [mbind result_bind].
        destruct keys as [|key keys].
        -- rewrite (proj2 (IH [] params) Hgood). by destruct groups.
        -- by rewrite (proj2 (IH keys _) Hgood).
Qed.


(** X13.  A redirect by name to a route that is not registered: in a
    development build whose [assert] raises, [match] raises the assertion
    error to its caller, with the message that quotes the name; in a
    production build, or with an [assert] that only reports, [match] goes on
    and matches the target. *)
Theorem redirect_to_missing_name (raw : RawLocation) (current : option Route)
    (redirectedFrom : option Location) (fuel : nat) (record : RouteRecord)
    (found target : Location) :
  findRecord raw current = Ok (Some record, found) →
  hasRedirect record = true →
  redirectTarget record (default found redirectedFrom)
  = Some (RawObject target) →
  truthy (loc_name target) = true →
  nameMap table !! default "" (loc_name target) = None →
  (production = false → assertRaises = true →
   match_ (S fuel) raw current redirectedFrom
   = Throw (AssertionError
              ("redirect failed: named route " +:+ dquote
               +:+ default "" (loc_name target) +:+ dquote +:+ " not found.")))
  ∧ (production = true ∨ assertRaises = false →
     match_ (S fuel) raw current redirectedFrom
     = match_ fuel (RawObject target) None (Some (default found redirectedFrom))).
Proof.
  intros Hfound Hredirect Htarget Hname Hmissing.
  assert (match_ (S fuel) raw current redirectedFrom
          = redirectWith (match_ fuel) (_createRoute fuel) record
              (default found redirectedFrom)) as Hstep.
  { unfold Router.match_ at 1. rewrite matchWith_findRecord, Hfound.
    cbn [mbind result_bind]. cbn [Router._createRoute]. by rewrite Hredirect. }
  rewrite Hstep. split.
  - intros Hdev Hraises. revert Htarget.
    unfold Router.redirectTarget, Router.redirectWith. cbv zeta.
    destruct (Router.redirectValue stringifyQuery callRedirect record
                (default found redirectedFrom)) as [[s|re|]|e];
      cbn [mbind result_bind]; try done.
    { cbn. destruct s; [done|]. intros [= <-]. done. }
    destruct (truthy (re_name re)) eqn:Hre.
    + intros [= <-]. cbn [loc_name default from_option id] in Hmissing.
      cbn [loc_name default from_option id].
      rewrite Hdev, Hmissing. unfold assert. rewrite Hraises.
      by rewrite bool_decide_eq_false_2 by (by intros [? ?]).
    + destruct (truthy (re_path re)); [|done]. by intros [= <-].
  - intros Hquiet.
    apply (redirectWith_target production assertRaises fillParams resolvePath
             stringifyQuery callRedirect table); [done|].
    destruct Hquiet; auto.
Qed.

End MatcherMore.

(** ** Aliases and the development build at work *)

(** [/d] is an alias of [/c]: the Route is that of [/c], at the path [/d]. *)
Lemma alias_resolves_to_target_witness :
  ∃ route : Route,
    sampleMatch aliasRoutes 1 (RawString "/d") None = Ok route
    ∧ rec_path <$> r_matched route = ["/c"]
    ∧ r_path route = "/d".
Proof.
  destruct (alias_resolves_to_target true false sampleNormalizeLocation
              sampleFillParams sampleResolvePath sampleDecode
              sampleStringifyQuery sampleCallRedirect (sampleTable aliasRoutes)
              (RawString "/d") None None 0 (aliasRecord "/d") (aliasRecord "/c")
              (locationAt "/d") (locationAt "/c") "/c")
    as (Hmatch & Hmatched & Hpath & _).
  - vm_compute. reflexivity.
  - reflexivity.
  - vm_compute. reflexivity.
  - discriminate.
  - vm_compute. reflexivity.
  - reflexivity.
  - reflexivity.
  - eexists. split; [exact Hmatch|]. split.
    + rewrite Hmatched. vm_compute. reflexivity.
    + rewrite Hpath. reflexivity.
Defined.


(** [/old] redirects to the name [ghost], which is not registered. *)
Lemma redirect_to_missing_name_witness :
  match_ false true sampleNormalizeLocation sampleFillParams sampleResolvePath
         sampleDecode sampleStringifyQuery sampleCallRedirect
         (sampleTable ghostRoutes) 1 (RawString "/old") None None
  = Throw (AssertionError
             ("redirect failed: named route " +:+ dquote +:+ "ghost" +:+ dquote
              +:+ " not found."))
  ∧ ∃ route, sampleMatch ghostRoutes 1 (RawString "/old") None = Ok route
             ∧ r_matched route = [].
Proof.
  split.
  - edestruct (redirect_to_missing_name false true sampleNormalizeLocation
                 sampleFillParams sampleResolvePath sampleDecode
                 sampleStringifyQuery sampleCallRedirect
                 (sampleTable ghostRoutes) (RawString "/old") None None 0
                 ghostRecord (locationAt "/old")) as [Hdev _].
    + vm_compute. reflexivity.
    + reflexivity.
    + vm_compute. reflexivity.
    + reflexivity.
    + vm_compute. reflexivity.
    + by apply Hdev.
  - edestruct (redirect_to_missing_name true false sampleNormalizeLocation
                 sampleFillParams sampleResolvePath sampleDecode
                 sampleStringifyQuery sampleCallRedirect
                 (sampleTable ghostRoutes) (RawString "/old") None None 0
                 ghostRecord (locationAt "/old")) as [_ Hprod].
    + vm_compute. reflexivity.
    + reflexivity.
    + vm_compute. reflexivity.
    + reflexivity.
    + vm_compute. reflexivity.
    + eexists. unfold sampleMatch. rewrite Hprod by (by left).
      split; vm_compute; reflexivity.
Defined.

(** * index.js: the applications of a router and its mode *)

(** The applications left are the list without the first entry of the
    destroyed one, as for a hook that is taken off its list. *)
Lemma appDestroyed_first (a : Instance) (l1 l2 : list Instance)
    (main : option Instance) :
  a ∉ l1 ->
  liveApps (appDestroyed a {| mainApp := main; liveApps := l1 ++ a :: l2 |})
  = l1 ++ l2.
Proof. intros Hl1. exact (unregister_first [] l1 l2 a Hl1). Qed.

Lemma appDestroyed_absent (a : Instance) (st : Apps) :
  a ∉ liveApps st -> liveApps (appDestroyed a st) = liveApps st.
Proof. intros Hl. exact (unregister_absent [] (liveApps st) a Hl). Qed.

Lemma appDestroyed_main (a : Instance) (st : Apps) :
  mainApp (appDestroyed a st)
  = if decide (mainApp st = Some a) then head (liveApps (appDestroyed a st))
    else mainApp st.
Proof. reflexivity. Qed.

Lemma initApp_kept (a : Instance) (st : Apps) :
  appsKept st -> appsKept (initApp a st).1.
Proof.
  unfold appsKept, initApp. destruct (mainApp st) as [m|]; cbn.
  - intros Hm. apply elem_of_app. by left.
  - intros ->. apply list_elem_of_here.
Qed.

Lemma appDestroyed_kept (a : Instance) (st : Apps) :
  appsKept st -> appsKept (appDestroyed a st).
Proof.
  unfold appsKept. rewrite appDestroyed_main.
  destruct (decide (mainApp st = Some a)) as [Hm|Hm].
  - intros _. destruct (liveApps (appDestroyed a st)) as [|x apps]; cbn;
      [done|apply list_elem_of_here].
  - destruct (decide (a ∈ liveApps st)) as [Ha|Ha].
    + apply list_elem_of_split_l in Ha as (l1 & l2 & Hl & Hl1).
      destruct st as [main apps]. cbn [mainApp liveApps] in *. subst apps.
      rewrite appDestroyed_first by done.
      destruct main as [m|]; [|by destruct l1].
      intros Hin. apply elem_of_app in Hin as [Hin|Hin].
      * apply elem_of_app. by left.
      * apply elem_of_cons in Hin as [->|Hin]; [done|].
        apply elem_of_app. by right.
    + by rewrite appDestroyed_absent.
Qed.

Lemma appStep_kept (st : Apps) (e : AppEvent) :
  appsKept st -> appsKept (appStep st e).
Proof.
  destruct e; [apply initApp_kept|apply appDestroyed_kept].
Qed.

Lemma apps_kept (events : list AppEvent) (st : Apps) :
  appsKept st -> appsKept (fold_left appStep events st).
Proof.
  revert st. induction events as [|e events IH]; intros st Hst; [done|].
  cbn [fold_left]. by apply IH, appStep_kept.
Qed.

(** X14. Whatever applications are initialised with a router and destroyed,
    in whatever order: the router has a main application exactly when it
    has applications left, the main application is one of them, and an
    [init] sets up the history exactly when no application is left. *)
Theorem main_app_is_a_live_app (events : list AppEvent) (a : Instance) :
  let st := fold_left appStep events noApps in
  (mainApp st = None <-> liveApps st = []) /\
  (forall m, mainApp st = Some m -> m ∈ liveApps st) /\
  ((initApp a st).2 = true <-> liveApps st = []).
Proof.
  intros st.
  assert (appsKept st) as Hk by (by apply apps_kept).
  unfold appsKept in Hk. unfold initApp.
  destruct (mainApp st) as [m|]; cbn [snd].
  - split_and!.
    + split; [done|]. intros Hnil. rewrite Hnil in Hk.
      by apply not_elem_of_nil in Hk.
    + by intros ? [= <-].
    + split; [done|]. intros Hnil. rewrite Hnil in Hk.
      by apply not_elem_of_nil in Hk.
  - split_and!; [done|done|done].
Qed.

(** X15. When an application is destroyed, its first entry leaves the
    list and the other applications stay, in their order; if it was the
    main application, the first application left takes over. *)
Theorem destroyed_app_hands_over (a : Instance) (l1 l2 : list Instance)
    (main : option Instance) :
  a ∉ l1 ->
  let st := appDestroyed a {| mainApp := main; liveApps := l1 ++ a :: l2 |} in
  liveApps st = l1 ++ l2 /\
  (main = Some a -> mainApp st = head (l1 ++ l2)) /\
  (main <> Some a -> mainApp st = main).
Proof.
  intros Hl1 st. subst st. rewrite appDestroyed_main.
  rewrite appDestroyed_first by done. cbn [mainApp].
  split_and!; [done| |].
  - intros ->. by rewrite decide_True.
  - intros Hm. by rewrite decide_False.
Qed.

Lemma destroyed_app_hands_over_witness :
  (1 ∉ [2]) /\
  liveApps (appDestroyed 1 {| mainApp := Some 1; liveApps := [2] ++ 1 :: [3] |})
    = [2] ++ [3] /\
  mainApp (appDestroyed 1 {| mainApp := Some 1; liveApps := [2] ++ 1 :: [3] |})
    = Some 2.
Proof.
  assert (1 ∉ [2]) as H by (intros [=]%list_elem_of_singleton).
  destruct (destroyed_app_hands_over 1 [2] [3] (Some 1) H) as (Hl & Hm & _).
  split; [exact H|]. split; [exact Hl|]. exact (Hm eq_refl).
Defined.

(** X16. The history that the constructor builds: outside a browser it is
    the abstract one, whatever mode is asked for; in a browser a router gets
    no history exactly when the mode asked for is none of the three, and
    then the constructor returns without a history in a production build
    and calls [assert(false, `invalid mode: ${mode}`)] in any other build,
    which raises when [assert] does; the HTML5 history is built only if it
    was asked for and the browser has [pushState] or the fallback was turned
    off; and the [fallback] flag is set only when [history] was asked for
    without [pushState], in which case the HTML5 history is not built. *)
Theorem history_of_mode (production assertRaises : bool) (mode : option string)
    (fallback : option bool) (supportsPushState inBrowser : bool) :
  let chosen := selectMode mode fallback supportsPushState inBrowser in
  let built := historyFor production assertRaises chosen.1 in
  let unknown := ~ (truthy mode = false \/ mode = Some "history"
                    \/ mode = Some "hash" \/ mode = Some "abstract") in
  (inBrowser = false -> built = Ok (Some AbstractHistory)) /\
  (inBrowser = true ->
     ((forall kind, built <> Ok (Some kind)) <-> unknown) /\
     (unknown ->
      built = if production || negb assertRaises then Ok None
              else Throw (AssertionError ("invalid mode: " +:+ default "" mode)))) /\
  (built = Ok (Some HTML5History) <->
     inBrowser = true /\ mode = Some "history" /\
     (supportsPushState = true \/ fallback = Some false)) /\
  (chosen.2 = true <->
     mode = Some "history" /\ supportsPushState = false /\
     fallback <> Some false) /\
  (chosen.2 = true -> built <> Ok (Some HTML5History)).
Proof.
  intros chosen built unknown. subst chosen built unknown.
  assert (forall b : result (option HistoryKind),
            (forall kind, b <> Ok (Some kind))
            <-> match b with Ok (Some _) => False | _ => True end) as Hno.
  { intros [[k|]|e]; split; try done. intros H. by apply (H k). }
  rewrite Hno. clear Hno.
  destruct (decide (mode = Some "history")) as [->|Hhistory].
  { destruct inBrowser, supportsPushState, fallback as [[|]|];
      vm_compute; intuition congruence. }
  destruct (decide (mode = Some "hash")) as [->|Hhash].
  { destruct inBrowser, supportsPushState, fallback as [[|]|];
      vm_compute; intuition congruence. }
  destruct (decide (mode = Some "abstract")) as [->|Habstract].
  { destruct inBrowser, supportsPushState, fallback as [[|]|];
      vm_compute; intuition congruence. }
  destruct mode as [[|c s]|].
  1, 3: destruct inBrowser, supportsPushState, fallback as [[|]|];
      vm_compute; intuition congruence.
  unfold selectMode, historyFor. cbn [or_else truthy default]. cbn zeta.
  rewrite (bool_decide_eq_false_2 (String c s = "history")) by congruence.
  cbn [andb fst snd].
  destruct inBrowser.
  - rewrite !decide_False by congruence.
    assert (match (if production then None
                   else assert assertRaises false ("invalid mode: " +:+ String c s))
            with
            | Some e => Throw e
            | None => Ok None
            end
            = if production || negb assertRaises then Ok None
              else Throw (AssertionError ("invalid mode: " +:+ String c s)))
      as ->.
    { by destruct production, assertRaises. }
    change (id (String c s)) with (String c s).
    destruct (production || negb assertRaises);
      (split_and!;
       [done| |split; [done|by intros (_ & ? & _)]
       |split; [done|by intros (? & _)]|done]);
      (intros _; split; [|done]; split;
       [intros _ [?|[?|[?|?]]]; done|done]).
  - cbn. split_and!; try done.
    + split; [done|]. by intros (? & _).
    + split; [done|]. by intros (? & _).
Qed.

(** With [history] asked for in a browser without [pushState], the hash
    history is built and the fallback flag is set; with [memory] asked for,
    a build that is not for production and whose [assert] raises raises
    [invalid mode: memory], and a production build has no history. *)
Lemma history_of_mode_witness :
  historyFor false true (selectMode (Some "history") None false true).1
  = Ok (Some HashHistory)
  /\ (selectMode (Some "history") None false true).2 = true
  /\ historyFor false true (selectMode (Some "memory") None true true).1
     = Throw (AssertionError "invalid mode: memory")
  /\ historyFor true true (selectMode (Some "memory") None true true).1
     = Ok None.
Proof.
  destruct (history_of_mode false true (Some "history") None false true)
    as (_ & _ & _ & Hfb & _).
  destruct (history_of_mode false true (Some "memory") None true true)
    as (_ & Hdev & _).
  destruct (history_of_mode true true (Some "memory") None true true)
    as (_ & Hprod & _).
  assert (~ (truthy (Some "memory") = false \/ Some "memory" = Some "history"
             \/ Some "memory" = Some "hash" \/ Some "memory" = Some "abstract"))
    as Hunknown.
  { intros [H|[H|[H|H]]]; discriminate H. }
  split; [reflexivity|]. split; [apply Hfb; split_and!; done|].
  split; [exact (proj2 (Hdev eq_refl) Hunknown)
         |exact (proj2 (Hprod eq_refl) Hunknown)].
Defined.

(** * history/hash.js and history/html5.js: the URL *)

Lemma append_nil (s : string) : "" +:+ s = s.
Proof. reflexivity. Qed.

Lemma append_cons (c : ascii) (s t : string) :
  String c s +:+ t = String c (s +:+ t).
Proof. reflexivity. Qed.

Lemma append_assoc (s t u : string) : (s +:+ t) +:+ u = s +:+ t +:+ u.
Proof.
  induction s as [|c s IH]; [done|]. by rewrite !append_cons, IH.
Qed.

Lemma length_append (s t : string) :
  String.length (s +:+ t) = String.length s + String.length t.
Proof.
  induction s as [|c s IH]; [done|]. rewrite append_cons. cbn. by rewrite IH.
Qed.

Lemma prefix_append (s t : string) : String.prefix s (s +:+ t) = true.
Proof.
  induction s as [|c s IH]; [by destruct t|]. rewrite append_cons. cbn.
  by destruct (ascii_dec c c).
Qed.

Lemma indexOfChar_app (c : ascii) (s t : string) :
  indexOfChar c s = None ->
  indexOfChar c (s +:+ String c t) = Some (String.length s).
Proof.
  induction s as [|d s IH]; rewrite ?append_nil, ?append_cons;
    cbn [indexOfChar String.length].
  - intros _. by rewrite decide_True.
  - destruct (decide (d = c)); [done|].
    destruct (indexOfChar c s); [done|]. intros _. by rewrite IH.
Qed.

Lemma sliceTo_app (s t : string) : sliceTo (String.length s) (s +:+ t) = s.
Proof.
  induction s as [|d s IH]; [by destruct t|].
  rewrite append_cons. cbn. by rewrite IH.
Qed.

Lemma sliceFrom_app (s t : string) : sliceFrom (String.length s) (s +:+ t) = t.
Proof. induction s as [|d s IH]; [by destruct t|]. done. Qed.

Lemma sliceTo_found (c : ascii) (s : string) (i : nat) :
  indexOfChar c s = Some i ->
  indexOfChar c (sliceTo i s) = None /\
  exists t, s = sliceTo i s +:+ String c t /\ String.length (sliceTo i s) = i.
Proof.
  revert i. induction s as [|d s IH]; intros i; cbn [indexOfChar]; [done|].
  destruct (decide (d = c)) as [->|Hd].
  - intros [= <-]. split; [done|]. by exists s.
  - destruct (indexOfChar c s) as [j|]; [|done]. intros [= <-].
    destruct (IH j eq_refl) as (Hnone & t & Ht & Hlen).
    cbn [sliceTo indexOfChar]. rewrite decide_False by done. rewrite Hnone.
    split; [done|]. exists t. rewrite append_cons. cbn.
    by rewrite <- Ht, Hlen.
Qed.

Lemma sliceTo_absent (c : ascii) (n : nat) (s : string) :
  indexOfChar c s = None -> indexOfChar c (sliceTo n s) = None.
Proof.
  revert n. induction s as [|d s IH]; intros [|n]; cbn [indexOfChar sliceTo];
    try done.
  destruct (decide (d = c)); [done|].
  destruct (indexOfChar c s); [done|]. intros _. by rewrite IH.
Qed.

(** The part of the address that [getUrl] keeps. *)
Lemma getUrl_base (href path : string) :
  exists base, getUrl href path = base +:+ String "#" path /\
    indexOfChar "#" base = None /\
    (forall path', getUrl href path' = base +:+ String "#" path').
Proof.
  unfold getUrl. destruct (indexOfChar "#" href) as [i|] eqn:Hi.
  - apply sliceTo_found in Hi as (Hnone & _). by exists (sliceTo i href).
  - by exists href.
Qed.

Lemma getHash_of (decodeURI : string -> option string) (base path : string) :
  (forall s, indexOfChar "%" s = None -> decodeURI s = Some s) ->
  indexOfChar "#" base = None ->
  indexOfChar "%" path = None ->
  getHash decodeURI (base +:+ String "#" path) = Ok path.
Proof.
  intros Hdecode Hbase Hpath. unfold getHash.
  rewrite (indexOfChar_app _ _ _ Hbase).
  replace (String.length base + 1) with (String.length (base +:+ "#"))
    by apply length_append.
  replace (base +:+ String "#" path) with ((base +:+ "#") +:+ path)
    by apply append_assoc.
  rewrite sliceFrom_app.
  assert (forall c i, indexOfChar c path = Some i ->
            decodeURI (sliceTo i path) = Some (sliceTo i path) /\
            sliceTo i path +:+ sliceFrom i path = path) as Hcut.
  { intros c i Hi. split; [by apply Hdecode, sliceTo_absent|].
    clear. revert i. induction path as [|d s IH]; intros [|i]; try done.
    cbn [sliceTo sliceFrom]. by rewrite append_cons, IH. }
  destruct (indexOfChar "?" path) as [i|] eqn:Hsearch.
  - destruct (Hcut _ _ Hsearch) as [-> ->]. done.
  - destruct (indexOfChar "#" path) as [i|] eqn:Hhash.
    + destruct (Hcut _ _ Hhash) as [-> ->]. done.
    + by rewrite Hdecode.
Qed.

(** X17. Reading the hash of the address that [getUrl] builds for a path
    gives the path back, when the path holds no [%] (which [decodeURI]
    leaves alone); [ensureURL] then has nothing to write for a route of
    that path. *)
Theorem getHash_reads_getUrl (decodeURI : string -> option string)
    (href path : string) :
  (forall s, indexOfChar "%" s = None -> decodeURI s = Some s) ->
  indexOfChar "%" path = None ->
  getHash decodeURI (getUrl href path) = Ok path /\
  (forall supportsPushState push,
     hashEnsureURL decodeURI supportsPushState (getUrl href path) path push
     = Ok None).
Proof.
  intros Hdecode Hpath.
  destruct (getUrl_base href path) as (base & Hurl & Hbase & _).
  assert (getHash decodeURI (getUrl href path) = Ok path) as Hread.
  { rewrite Hurl. by apply getHash_of. }
  split; [done|]. intros sps push. unfold hashEnsureURL. rewrite Hread.
  cbn. by rewrite decide_True.
Qed.

(** X18. The address that [getUrl] builds keeps what stands before the
    first [#] and nothing of the old hash: building on an address that
    [getUrl] built is building on the first address. *)
Theorem getUrl_replaces_the_hash (href path path' : string) :
  getUrl (getUrl href path) path' = getUrl href path' /\
  (exists base, indexOfChar "#" base = None /\
     String.prefix base href = true /\
     getUrl href path' = base +:+ "#" +:+ path').
Proof.
  split.
  - destruct (getUrl_base href path) as (base & Hurl & Hbase & Hall).
    rewrite (Hall path'), Hurl. unfold getUrl.
    rewrite (indexOfChar_app _ _ _ Hbase), sliceTo_app. done.
  - unfold getUrl. destruct (indexOfChar "#" href) as [i|] eqn:Hi.
    + apply sliceTo_found in Hi as (Hnone & t & Ht & _).
      exists (sliceTo i href). split_and!; [done| |done].
      remember (sliceTo i href) as b. rewrite Ht. apply prefix_append.
    + exists href. split_and!; [done| |done].
      clear. induction href as [|c s IH]; [done|]. cbn.
      by destruct (ascii_dec c c).
Qed.

(** X19. When the hash of the address does not start with a slash,
    [ensureSlash] returns [false] and writes an address with the slash put
    before it, and at that address [ensureSlash] returns [true] and writes
    nothing (for a hash without [%]). *)
Theorem ensureSlash_settles (decodeURI : string -> option string)
    (supportsPushState : bool) (href path : string) :
  (forall s, indexOfChar "%" s = None -> decodeURI s = Some s) ->
  getHash decodeURI href = Ok path ->
  indexOfChar "%" path = None ->
  startsWithSlash path = false ->
  exists url,
    ensureSlash decodeURI supportsPushState href
    = Ok (false, Some (if supportsPushState then ReplaceState url
                       else LocationReplace url)) /\
    getHash decodeURI url = Ok ("/" +:+ path) /\
    ensureSlash decodeURI supportsPushState url = Ok (true, None).
Proof.
  intros Hdecode Hread Hpath Hslash.
  exists (getUrl href ("/" +:+ path)).
  assert (indexOfChar "%" ("/" +:+ path) = None) as Hpath'.
  { rewrite append_cons, append_nil. cbn [indexOfChar].
    rewrite decide_False by done. by rewrite Hpath. }
  destruct (getUrl_base href ("/" +:+ path)) as (base & Hurl & Hbase & _).
  assert (getHash decodeURI (getUrl href ("/" +:+ path)) = Ok ("/" +:+ path))
    as Hread'.
  { rewrite Hurl. by apply getHash_of. }
  split_and!; [|done|].
  - unfold ensureSlash. rewrite Hread. cbn. rewrite Hslash.
    unfold replaceHash. by destruct supportsPushState.
  - unfold ensureSlash. rewrite Hread'. done.
Qed.

(** X20. [getLocation] takes the base off the path whenever the path
    starts with its characters, whether or not a segment ends there, and
    gives [/] for a path that is the base alone. *)
Theorem getLocation_strips_base (decodeURI : string -> option string)
    (base rest search hash : string) :
  decodeURI (base +:+ rest) = Some (base +:+ rest) ->
  getLocation decodeURI (base +:+ rest) search hash base
  = Ok (or_else (Some rest) "/" +:+ search +:+ hash).
Proof.
  intros Hdecode. unfold getLocation. rewrite Hdecode.
  assert (String.prefix base (base +:+ rest) = true) as ->.
  { apply prefix_append. }
  destruct base as [|c base]; [done|].
  cbn [truthy andb]. by rewrite sliceFrom_app.
Qed.

Lemma decodePlain_plain (s : string) :
  indexOfChar "%" s = None -> decodePlain s = Some s.
Proof. intros H. unfold decodePlain. by rewrite H. Qed.

Lemma getHash_reads_getUrl_witness :
  getHash decodePlain (getUrl "http://site.org/app#/old" "/users?tab=1#top")
  = Ok "/users?tab=1#top".
Proof.
  destruct (getHash_reads_getUrl decodePlain "http://site.org/app#/old"
              "/users?tab=1#top") as [H _].
  - exact decodePlain_plain.
  - vm_compute. reflexivity.
  - exact H.
Defined.

Lemma ensureSlash_settles_witness :
  exists url,
    ensureSlash decodePlain false "http://site.org/app#users"
    = Ok (false, Some (LocationReplace url)) /\
    ensureSlash decodePlain false url = Ok (true, None).
Proof.
  destruct (ensureSlash_settles decodePlain false "http://site.org/app#users"
              "users") as (url & Hfirst & _ & Hsecond).
  - exact decodePlain_plain.
  - vm_compute. reflexivity.
  - vm_compute. reflexivity.
  - reflexivity.
  - exists url. split; [exact Hfirst|exact Hsecond].
Defined.

Lemma getLocation_strips_base_witness :
  getLocation decodePlain ("/app" +:+ "lication/list") "?page=2" "" "/app"
  = Ok "lication/list?page=2".
Proof.
  apply (getLocation_strips_base decodePlain "/app" "lication/list" "?page=2" "").
  vm_compute. reflexivity.
Defined.

(** * history/base.js: the base *)

Lemma stripTrailingSlash_rooted (s : string) :
  startsWithSlash s = true ->
  stripTrailingSlash s = "" \/ startsWithSlash (stripTrailingSlash s) = true.
Proof.
  destruct s as [|c [|d s]]; [done| |].
  - intros Hc. left. cbn in *. apply bool_decide_eq_true in Hc.
    by rewrite decide_True.
  - intros Hc. right. exact Hc.
Qed.

Lemma dropNonSlash_app (host path : string) :
  indexOfChar "/" host = None ->
  path = "" \/ startsWithSlash path = true ->
  dropNonSlash (host +:+ path) = path.
Proof.
  intros Hhost Hpath. induction host as [|c host IH].
  - rewrite append_nil. destruct Hpath as [->|Hp]; [done|].
    destruct path as [|d path]; [done|]. cbn in *.
    apply bool_decide_eq_true in Hp. by rewrite decide_True.
  - rewrite append_cons. cbn [dropNonSlash]. cbn [indexOfChar] in Hhost.
    destruct (decide (c = "/"%char)); [done|].
    apply IH. by destruct (indexOfChar "/" host).
Qed.

(** X21. The base of a history is empty or starts with a slash, whatever
    is given; a base that starts with a slash and does not end with one is
    kept as it is, and without a base outside a browser the base is
    empty. *)
Theorem normalizeBase_rooted (inBrowser : bool) (baseHref base : option string) :
  let normal := normalizeBase inBrowser baseHref base in
  (normal = "" \/ startsWithSlash normal = true) /\
  (forall b, base = Some b -> startsWithSlash b = true ->
             stripTrailingSlash b = b -> normal = b) /\
  (truthy base = false -> inBrowser = false -> normal = "").
Proof.
  intros normal. subst normal. unfold normalizeBase. cbn zeta. split_and!.
  - set (b := if truthy base then _ else _).
    destruct (startsWithSlash b) eqn:Hb.
    + by apply stripTrailingSlash_rooted.
    + apply stripTrailingSlash_rooted. by rewrite append_cons.
  - intros b -> Hb Hstrip. destruct b as [|c b]; [done|].
    cbn [truthy]. change (default "" (Some (String c b))) with (String c b).
    by rewrite Hb.
  - intros -> ->. done.
Qed.

Lemma normalizeBase_rooted_witness :
  normalizeBase true None (Some "/app") = "/app".
Proof.
  destruct (normalizeBase_rooted true None (Some "/app")) as (_ & H & _).
  apply (H "/app"); reflexivity.
Defined.

(** X22. In a browser, without a base of its own, a router takes the
    [href] of the base element of the document and drops its origin: of
    [http://host/path] and [https://host/path] the path stays, without a
    slash at its end. *)
Theorem base_tag_without_origin (scheme host path : string)
    (base : option string) :
  scheme = "http://" \/ scheme = "https://" ->
  host <> "" ->
  indexOfChar "/" host = None ->
  path = "" \/ startsWithSlash path = true ->
  truthy base = false ->
  normalizeBase true (Some (scheme +:+ host +:+ path)) base
  = stripTrailingSlash path.
Proof.
  intros Hscheme Hhost Hclean Hpath Hbase. unfold normalizeBase.
  rewrite Hbase. cbn zeta.
  destruct host as [|c host]; [done|].
  cbn [indexOfChar] in Hclean.
  destruct (decide (c = "/"%char)) as [|Hc]; [done|].
  assert (indexOfChar "/" host = None) as Hclean'
    by (by destruct (indexOfChar "/" host)).
  assert (stripOrigin (or_else (Some (scheme +:+ String c host +:+ path)) "/")
          = path) as ->.
  { assert (or_else (Some (scheme +:+ String c host +:+ path)) "/"
            = scheme +:+ String c host +:+ path) as ->
      by (by destruct Hscheme as [-> | ->]).
    unfold stripOrigin.
    assert (match dropPrefix "https://" (scheme +:+ String c host +:+ path) with
            | Some rest => Some rest
            | None => dropPrefix "http://" (scheme +:+ String c host +:+ path)
            end = Some (String c (host +:+ path))) as ->.
    { destruct Hscheme as [-> | ->]; reflexivity. }
    rewrite decide_False by done. by apply dropNonSlash_app. }
  destruct Hpath as [->|Hp]; [done|]. by rewrite Hp.
Qed.

Lemma base_tag_without_origin_witness :
  normalizeBase true (Some ("https://" +:+ "example.org:8080" +:+ "/shop/")) None
  = "/shop".
Proof.
  apply (base_tag_without_origin "https://" "example.org:8080" "/shop/" None).
  - by right.
  - done.
  - vm_compute. reflexivity.
  - right. reflexivity.
  - reflexivity.
Defined.

(** * components/view.js *)

Lemma instanceOf_insert (name : string) (val : option Instance)
    (instances : gmap string (option Instance)) :
  instanceOf (<[name := val]> instances) name = val.
Proof. unfold instanceOf. by rewrite lookup_insert_eq. Qed.



Section PassingProps.

Variable callProps : Fn -> Route -> option (gmap string PropVal).
Variable declared : option (gset string).

Lemma moved_props (propsToPass attrs todo : gmap string PropVal) :
  let moved :=
    map_fold (fun key value (acc : gmap string PropVal * gmap string PropVal) =>
                if match declared with
                   | None => true
                   | Some names => negb (bool_decide (key ∈ names))
                   end
                then (delete key acc.1, <[key := value]> acc.2)
                else acc)
             (propsToPass, attrs) todo in
  forall key,
    moved.1 !! key
    = (if isDeclared declared key then propsToPass !! key
       else match todo !! key with
            | Some _ => None
            | None => propsToPass !! key
            end) /\
    moved.2 !! key
    = (if isDeclared declared key then attrs !! key
       else match todo !! key with
            | Some value => Some value
            | None => attrs !! key
            end).
Proof.
  cbn zeta.
  apply (map_fold_weak_ind
           (fun (moved : gmap string PropVal * gmap string PropVal) todo =>
              forall key,
                moved.1 !! key
                = (if isDeclared declared key then propsToPass !! key
                   else match todo !! key with
                        | Some _ => None
                        | None => propsToPass !! key
                        end) /\
                moved.2 !! key
                = (if isDeclared declared key then attrs !! key
                   else match todo !! key with
                        | Some value => Some value
                        | None => attrs !! key
                        end))).
  - intros key. rewrite lookup_empty. cbn [fst snd]. by destruct (isDeclared declared key).
  - intros i x m r Hi IH key. destruct (IH key) as [IH1 IH2].
    assert ((match declared with
             | None => true
             | Some names => negb (bool_decide (i ∈ names))
             end) = negb (isDeclared declared i)) as ->.
    { unfold isDeclared. by destruct declared. }
    destruct (isDeclared declared i) eqn:Hdecl; cbn [negb].
    + rewrite IH1, IH2. destruct (decide (key = i)) as [->|Hne].
      * by rewrite Hdecl.
      * by rewrite lookup_insert_ne.
    + cbn [fst snd]. destruct (decide (key = i)) as [->|Hne].
      * rewrite Hdecl. by rewrite lookup_delete_eq, !lookup_insert_eq.
      * rewrite lookup_delete_ne, !lookup_insert_ne by done.
        by rewrite IH1, IH2.
Qed.

(** X24. Of the props that a route passes to a component, the component
    gets those that it declares, with their values; the others go to the
    attributes, over an attribute of the same name, and the attributes under
    other names stay.  No prop is passed both ways and none is lost. *)
Theorem undeclared_props_become_attrs (data : ViewData) (route : Route)
    (configProps : option PropsValue) (propsToPass : gmap string PropVal) :
  resolveProps callProps route configProps = Some propsToPass ->
  exists props attrs,
    fillPropsinData callProps declared data route configProps
    = {| d_props := Some props; d_attrs := Some attrs |} /\
    forall key,
      props !! key = (if isDeclared declared key then propsToPass !! key else None) /\
      attrs !! key
      = (if isDeclared declared key then default ∅ (d_attrs data) !! key
         else match propsToPass !! key with
              | Some value => Some value
              | None => default ∅ (d_attrs data) !! key
              end).
Proof.
  intros Hresolved. unfold fillPropsinData. rewrite Hresolved. cbn zeta.
  eexists _, _. split; [reflexivity|]. intros key.
  destruct (moved_props propsToPass (default ∅ (d_attrs data)) propsToPass key)
    as [H1 H2].
  rewrite H1, H2. split; [|done].
  destruct (isDeclared declared key); [done|]. by destruct (propsToPass !! key).
Qed.

End PassingProps.

Lemma undeclared_props_become_attrs_witness :
  exists props attrs,
    fillPropsinData (fun _ _ => None) (Some {[ "id" ]})
      {| d_props := None; d_attrs := Some {[ "tab" := PropOther 0 ]} |}
      userCurrent (Some (PropsBool true))
    = {| d_props := Some props; d_attrs := Some attrs |} /\
    props !! "id" = Some (PropParam (Some "42")) /\
    props !! "tab" = None /\
    attrs !! "tab" = Some (PropParam (Some "posts")) /\
    attrs !! "id" = None.
Proof.
  destruct (undeclared_props_become_attrs (fun _ _ => None) (Some {[ "id" ]})
              {| d_props := None; d_attrs := Some {[ "tab" := PropOther 0 ]} |}
              userCurrent (Some (PropsBool true))
              (PropParam <$> r_params userCurrent))
    as (props & attrs & Hfill & Hkeys).
  - reflexivity.
  - exists props, attrs. split; [exact Hfill|].
    destruct (Hkeys "id") as [Hid Hid']. destruct (Hkeys "tab") as [Htab Htab'].
    split_and!.
    + rewrite Hid. vm_compute. reflexivity.
    + rewrite Htab. vm_compute. reflexivity.
    + rewrite Htab'. vm_compute. reflexivity.
    + rewrite Hid'. vm_compute. reflexivity.
Defined.
